(** * ULWILA Color Score Editor: layout, colour mapping and persistence

    A shallow embedding of the pure core of the editor
    (models/types.ts, constants/colors.ts, renderers/staffLayout.ts,
    renderers/circlesLayout.ts, export/jsonPersistence.ts) together with
    the properties its specification states about it.

    JavaScript numbers are embedded in two ways.  The modules [Types],
    [StaffLayout], [CirclesLayout] and those built on them compute with
    exact rationals ([Q]): every numeric literal of the sources is a
    decimal fraction and is represented exactly, and the only division
    whose divisor is not a non-zero literal ([4 / beatValue]) has its
    infinite and not-a-number results written out (see
    [StaffLayout.ext]).  They carry the properties that do not depend
    on how a sum is rounded: which notes a layout holds and in which
    order, what is kept when the width changes, how coordinates are
    built up.  The modules [Binary64], [StaffLayout64] and
    [CirclesLayout64] embed the two layout engines once more with every
    number an IEEE 754 binary64 value, as the code computes; they carry
    the properties that depend on a comparison of computed numbers: the
    bar lines, the rows of the systems, the sizes of the circles and
    the row breaks.  Array indices are naturals, staff positions are
    integers. *)

From Stdlib Require Import String List ZArith QArith Bool Lia Lqa Arith.
Import ListNotations.

Set Implicit Arguments.

(** * models/types.ts *)

Module Types.

Inductive Pitch := C | D | E | F | G | A | H.
Inductive Octave := lower | middle | upper.
Inductive Duration := whole | half | quarter | eighth | sixteenth.
Inductive RenderingMode := staff | circles.
Inductive Clef := treble | bass.

Record TimeSignature := mkTimeSignature {
  beats : Q;
  beatValue : Q
}.

(** [Note] and [Rest] of the source form the tagged union [NoteOrRest];
    the [type] discriminant is the constructor.  Optional fields are
    options, [None] standing for an absent property. *)
Inductive NoteOrRest :=
| Note (pitch : Pitch) (octave : Octave) (duration : Duration)
       (lyric : option string) (accented : option bool)
| Rest (duration : Duration).

Definition duration (n : NoteOrRest) : Duration :=
  match n with
  | Note _ _ d _ _ => d
  | Rest d => d
  end.

Record Part := mkPart {
  name : option string;
  notes : list NoteOrRest
}.

Record Score := mkScore {
  title : string;
  tempo : option Q;
  renderingMode : RenderingMode;
  timeSignature : TimeSignature;
  clef : Clef;
  parts : list Part
}.

End Types.
Import Types.

(** ** Iteration with indices

    [arr.forEach((x, i) => ...)] and [arr.map((x, i) => ...)] visit the
    elements in order together with their index. *)
Fixpoint mapi_from {X Y : Type} (i : nat) (f : nat -> X -> Y) (l : list X) : list Y :=
  match l with
  | [] => []
  | x :: l' => f i x :: mapi_from (S i) f l'
  end.

Definition mapi {X Y : Type} (f : nat -> X -> Y) (l : list X) : list Y :=
  mapi_from 0 f l.

(** An entry of the [allNotes] array that both layout engines build. *)
Record Tagged := mkTagged {
  t_note : NoteOrRest;
  t_partIndex : nat;
  t_noteIndex : nat
}.

(** The two nested [forEach] loops that fill [allNotes]: parts in
    order, the notes of each part in order. *)
Definition allNotes (score : Score) : list Tagged :=
  concat (mapi (fun partIndex part =>
                  mapi (fun noteIndex note => mkTagged note partIndex noteIndex)
                       (notes part))
               (parts score)).

Definition tag (t : Tagged) : nat * nat := (t_partIndex t, t_noteIndex t).

(** How often the index pair [(pi, ni)] occurs in a list of pairs. *)
Definition occursIn (pi ni : nat) (tags : list (nat * nat)) : nat :=
  length (filter (fun p => (fst p =? pi)%nat && (snd p =? ni)%nat) tags).

(** [a > b] on numbers. *)
Definition gtb (a b : Q) : bool := negb (Qle_bool a b).

(** One field of the object spread [{ ...DEFAULT_CONFIG, ...config }]:
    a field of [config] that is present overrides the default. *)
Definition spread (dflt : Q) (o : option Q) : Q :=
  match o with
  | Some v => v
  | None => dflt
  end.

Definition noteIsRest (note : NoteOrRest) : bool :=
  match note with
  | Rest _ => true
  | Note _ _ _ _ _ => false
  end.

Definition noteOctave (note : NoteOrRest) : option Octave :=
  match note with
  | Rest _ => None
  | Note _ octave _ _ _ => Some octave
  end.

Definition noteLyric (note : NoteOrRest) : option string :=
  match note with
  | Rest _ => None
  | Note _ _ _ lyric _ => lyric
  end.

(** * constants/colors.ts *)

Module Colors.

Open Scope string_scope.

Definition ULWILA_COLORS (p : Pitch) : string :=
  match p with
  | C => "#1A1A1A"
  | D => "#8B4513"
  | E => "#0000CD"
  | F => "#228B22"
  | G => "#DC143C"
  | A => "#FF8C00"
  | H => "#FFD700"
  end.

Definition ACCENTED_PITCHES : list Pitch := [C; D; F; G; A].

(** The partial record [NEXT_PITCH]: a missing key reads as [None]. *)
Definition NEXT_PITCH (p : Pitch) : option Pitch :=
  match p with
  | C => Some D
  | D => Some E
  | F => Some G
  | G => Some A
  | A => Some H
  | E | H => None
  end.

Record ColorPair := mkColorPair {
  left : string;
  right : string
}.

Definition getAccentedColors (pitch : Pitch) : ColorPair :=
  match NEXT_PITCH pitch with
  | None => {| left := ULWILA_COLORS pitch; right := ULWILA_COLORS pitch |}
  | Some nextPitch =>
      {| left := ULWILA_COLORS pitch; right := ULWILA_COLORS nextPitch |}
  end.

End Colors.

(** * renderers/staffLayout.ts *)

Module StaffLayout.

Open Scope Q_scope.

Record LayoutConfig := mkLayoutConfig {
  canvasWidth : Q;
  staffLineSpacing : Q;
  noteSpacing : Q;
  marginLeft : Q;
  marginTop : Q;
  staffHeight : Q;
  systemSpacing : Q
}.

(** [Partial<LayoutConfig>]: every field may be absent. *)
Record PartialLayoutConfig := mkPartialLayoutConfig {
  p_canvasWidth : option Q;
  p_staffLineSpacing : option Q;
  p_noteSpacing : option Q;
  p_marginLeft : option Q;
  p_marginTop : option Q;
  p_staffHeight : option Q;
  p_systemSpacing : option Q
}.

Record NoteLayout := mkNoteLayout {
  x : Q;
  y : Z;
  noteIndex : nat;
  partIndex : nat;
  isRest : bool;
  octave : option Octave
}.

Record StaffSystem := mkStaffSystem {
  startX : Q;
  startY : Q;
  notes : list NoteLayout;
  barLines : list Q
}.

Record StaffLayout := mkStaffLayout {
  systems : list StaffSystem;
  config : LayoutConfig
}.

Definition DEFAULT_CONFIG : LayoutConfig :=
  {| canvasWidth := 800;
     staffLineSpacing := 10;
     noteSpacing := 30;
     marginLeft := 60;
     marginTop := 40;
     staffHeight := 40;
     systemSpacing := 80 |}.

Definition DURATION_TO_BEATS (d : Duration) : Q :=
  match d with
  | whole => 4
  | half => 2
  | quarter => 1
  | eighth => 0.5
  | sixteenth => 0.25
  end.

Definition treblePitchOffsets (p : Pitch) : Z :=
  match p with
  | C => -2 | D => -1 | E => 0 | F => 1 | G => 2 | A => 3 | H => 4
  end.

Definition bassPitchOffsets (p : Pitch) : Z :=
  match p with
  | C => -4 | D => -3 | E => -2 | F => -1 | G => 0 | A => 1 | H => 2
  end.

Definition octaveOffsets (o : Octave) : Z :=
  match o with
  | lower => 0 | middle => 7 | upper => 14
  end.

Definition pitchToStaffPosition (pitch : Pitch) (octave : Octave) (clef : Clef) : Z :=
  let pitchOffsets :=
    match clef with
    | bass => bassPitchOffsets
    | treble => treblePitchOffsets
    end in
  (pitchOffsets pitch + octaveOffsets octave)%Z.

(** [{ ...DEFAULT_CONFIG, ...config }] *)
Definition fullConfig (config : option PartialLayoutConfig) : LayoutConfig :=
  match config with
  | None => DEFAULT_CONFIG
  | Some c =>
      {| canvasWidth := spread (canvasWidth DEFAULT_CONFIG) (p_canvasWidth c);
         staffLineSpacing := spread (staffLineSpacing DEFAULT_CONFIG) (p_staffLineSpacing c);
         noteSpacing := spread (noteSpacing DEFAULT_CONFIG) (p_noteSpacing c);
         marginLeft := spread (marginLeft DEFAULT_CONFIG) (p_marginLeft c);
         marginTop := spread (marginTop DEFAULT_CONFIG) (p_marginTop c);
         staffHeight := spread (staffHeight DEFAULT_CONFIG) (p_staffHeight c);
         systemSpacing := spread (systemSpacing DEFAULT_CONFIG) (p_systemSpacing c) |}
  end.

(** ** The measure threshold

    [beats * (4 / beatValue)] divides by a value read from the score.
    A zero divisor makes the quotient infinite, and the product with it
    is infinite or not a number; those results only ever meet the
    comparison [currentBeats >= beatsPerMeasure], so they are kept
    apart from the rationals in a type of their own.  The rationals
    have one zero and no rounding: the threshold as the code computes
    it, with the sign of a zero divisor and the rounding of quotient
    and product, is [StaffLayout64.beatsPerMeasure] below, and the
    properties of the bar lines are stated there. *)
Inductive ext :=
| Fin (q : Q)
| PosInf
| NegInf
| NaN.

Definition div4 (d : Q) : ext :=
  if Qeq_bool d 0 then PosInf else Fin (4 / d).

Definition mulExt (b : Q) (e : ext) : ext :=
  match e with
  | Fin q => Fin (b * q)
  | PosInf => if Qeq_bool b 0 then NaN else if gtb b 0 then PosInf else NegInf
  | NegInf => if Qeq_bool b 0 then NaN else if gtb b 0 then NegInf else PosInf
  | NaN => NaN
  end.

(** [a >= e]; every comparison with not-a-number is false. *)
Definition geExt (a : Q) (e : ext) : bool :=
  match e with
  | Fin q => Qle_bool q a
  | PosInf => false
  | NegInf => true
  | NaN => false
  end.

Definition beatsPerMeasure (score : Score) : ext :=
  mulExt (beats (timeSignature score)) (div4 (beatValue (timeSignature score))).

(** ** The layout loop

    The variables the [forEach] callback of [computeLayout] mutates. *)
Record LoopState := mkLoopState {
  st_systems : list StaffSystem;
  currentSystem : StaffSystem;
  currentX : Q;
  currentBeats : Q
}.

Definition pushNote (s : StaffSystem) (n : NoteLayout) : StaffSystem :=
  {| startX := startX s; startY := startY s;
     notes := notes s ++ [n]; barLines := barLines s |}.

Definition pushBarLine (s : StaffSystem) (b : Q) : StaffSystem :=
  {| startX := startX s; startY := startY s;
     notes := notes s; barLines := barLines s ++ [b] |}.

Definition noteY (score : Score) (note : NoteOrRest) : Z :=
  match note with
  | Rest _ => 4%Z
  | Note pitch octave _ _ _ => pitchToStaffPosition pitch octave (clef score)
  end.

(** The object pushed onto [currentSystem.notes] for an entry of
    [allNotes] when [currentX] is [x]. *)
Definition noteEntry (score : Score) (t : Tagged) (x : Q) : NoteLayout :=
  let note := t_note t in
  {| x := x;
     y := noteY score note;
     noteIndex := t_noteIndex t;
     partIndex := t_partIndex t;
     isRest := noteIsRest note;
     octave := noteOctave note |}.

(** One call of the [forEach] callback. *)
Definition layoutStep (score : Score) (cfg : LayoutConfig)
    (st : LoopState) (t : Tagged) : LoopState :=
  let note := t_note t in
  let sys1 := pushNote (currentSystem st) (noteEntry score t (currentX st)) in
  let noteBeats := DURATION_TO_BEATS (duration note) in
  let beats1 := currentBeats st + noteBeats in
  let x1 := currentX st + noteSpacing cfg in
  let complete := geExt beats1 (beatsPerMeasure score) in
  let sys2 :=
    if complete then pushBarLine sys1 (x1 - noteSpacing cfg / 2) else sys1 in
  let beats2 := if complete then 0 else beats1 in
  if gtb x1 (canvasWidth cfg - marginLeft cfg) then
    let nextY := startY sys2 + staffHeight cfg + systemSpacing cfg in
    {| st_systems := st_systems st ++ [sys2];
       currentSystem :=
         {| startX := marginLeft cfg; startY := nextY;
            notes := []; barLines := [] |};
       currentX := marginLeft cfg;
       currentBeats := beats2 |}
  else
    {| st_systems := st_systems st;
       currentSystem := sys2;
       currentX := x1;
       currentBeats := beats2 |}.

Definition initialState (cfg : LayoutConfig) : LoopState :=
  {| st_systems := [];
     currentSystem :=
       {| startX := marginLeft cfg; startY := marginTop cfg;
          notes := []; barLines := [] |};
     currentX := marginLeft cfg;
     currentBeats := 0 |}.

(** The two pushes after the loop. *)
Definition finish (st : LoopState) : list StaffSystem :=
  let systems1 :=
    if (0 <? length (notes (currentSystem st)))%nat
    then st_systems st ++ [currentSystem st]
    else st_systems st in
  if (length systems1 =? 0)%nat
  then systems1 ++ [currentSystem st]
  else systems1.

Definition computeLayoutWith (score : Score) (cfg : LayoutConfig) : StaffLayout :=
  {| systems := finish (fold_left (layoutStep score cfg) (allNotes score)
                                  (initialState cfg));
     config := cfg |}.

Definition computeLayout (score : Score) (config : option PartialLayoutConfig)
    : StaffLayout :=
  computeLayoutWith score (fullConfig config).

(** ** Vocabulary of the layout properties *)

(** Every note object pushed so far, in the order of the pushes. *)
Definition laidOut (st : LoopState) : list NoteLayout :=
  flat_map notes (st_systems st) ++ notes (currentSystem st).

(** The notes of all systems of a layout, system after system. *)
Definition allLayouts (l : StaffLayout) : list NoteLayout :=
  flat_map notes (systems l).

(** The rows a layout stacks below [y0]: each row starts
    [staffHeight + systemSpacing] below the one before it. *)
Fixpoint rowsFrom (cfg : LayoutConfig) (y0 : Q) (ys : list Q) : Prop :=
  match ys with
  | [] => True
  | y :: ys' =>
      y = y0 /\ rowsFrom cfg (y0 + staffHeight cfg + systemSpacing cfg) ys'
  end.

(** Where the row number [n] below [y0] starts. *)
Fixpoint nthRow (cfg : LayoutConfig) (y0 : Q) (n : nat) : Q :=
  match n with
  | O => y0
  | S k => nthRow cfg (y0 + staffHeight cfg + systemSpacing cfg) k
  end.

(** Loop invariant: the closed systems are stacked from [marginTop]
    and the current system is the next row. *)
Definition stacked (cfg : LayoutConfig) (st : LoopState) : Prop :=
  rowsFrom cfg (marginTop cfg) (map startY (st_systems st))
  /\ startY (currentSystem st)
     = nthRow cfg (marginTop cfg) (length (st_systems st)).

(** Loop invariant: a system without notes has no bar lines, and no
    closed system is without notes. *)
Definition tidy (st : LoopState) : Prop :=
  (notes (currentSystem st) = [] -> barLines (currentSystem st) = [])
  /\ Forall (fun s => notes s <> []) (st_systems st).

Definition layoutTag (n : NoteLayout) : nat * nat := (partIndex n, noteIndex n).

(** A note layout without its horizontal position. *)
Definition unplaced (n : NoteLayout) : nat * nat * Z * bool * option Octave :=
  (layoutTag n, y n, isRest n, octave n).

(** The configuration argument with its [canvasWidth] set to [w]. *)
Definition withCanvasWidth (w : Q) (config : option PartialLayoutConfig)
    : option PartialLayoutConfig :=
  match config with
  | None => Some (mkPartialLayoutConfig (Some w) None None None None None None)
  | Some c =>
      Some (mkPartialLayoutConfig (Some w) (p_staffLineSpacing c) (p_noteSpacing c)
              (p_marginLeft c) (p_marginTop c) (p_staffHeight c) (p_systemSpacing c))
  end.

(** A one-part score of the given notes, all else fixed. *)
Definition scoreOf (ts : TimeSignature) (ns : list NoteOrRest) : Score :=
  {| title := "example"; tempo := None; renderingMode := staff;
     timeSignature := ts; clef := treble;
     parts := [ {| name := None; Types.notes := ns |} ] |}.

(** The empty score of the layout tests. *)
Definition emptyScore : Score :=
  {| title := "Test Score"; tempo := None; renderingMode := staff;
     timeSignature := {| beats := 4; beatValue := 4 |};
     clef := treble; parts := [] |}.

Definition fourQuarters : Score :=
  scoreOf {| beats := 4; beatValue := 4 |}
          (map (fun p => Note p middle quarter None None) [C; D; E; F]).

End StaffLayout.

(** * renderers/circlesLayout.ts *)

Module CirclesLayout.

Open Scope Q_scope.

Record CirclesLayoutConfig := mkCirclesLayoutConfig {
  canvasWidth : Q;
  circleSize : Q;
  circleSpacing : Q;
  marginLeft : Q;
  marginTop : Q;
  rowSpacing : Q;
  lyricOffset : Q
}.

Record PartialCirclesLayoutConfig := mkPartialCirclesLayoutConfig {
  p_canvasWidth : option Q;
  p_circleSize : option Q;
  p_circleSpacing : option Q;
  p_marginLeft : option Q;
  p_marginTop : option Q;
  p_rowSpacing : option Q;
  p_lyricOffset : option Q
}.

(** The element type of [subCircles], [{ cx; cy; radius }]. *)
Record SubCircle := mkSubCircle {
  sub_cx : Q;
  sub_cy : Q;
  sub_radius : Q
}.

Record CircleLayout := mkCircleLayout {
  cx : Q;
  cy : Q;
  radius : Q;
  partIndex : nat;
  noteIndex : nat;
  isRest : bool;
  octave : option Octave;
  subCircles : option (list SubCircle);
  lyric : option string
}.

Record CircleRow := mkCircleRow {
  startY : Q;
  circles : list CircleLayout
}.

Record CirclesLayout := mkCirclesLayout {
  rows : list CircleRow;
  config : CirclesLayoutConfig;
  totalHeight : Q
}.

Definition DEFAULT_CONFIG : CirclesLayoutConfig :=
  {| canvasWidth := 800;
     circleSize := 40;
     circleSpacing := 50;
     marginLeft := 20;
     marginTop := 30;
     rowSpacing := 80;
     lyricOffset := 25 |}.

(** [{ ...DEFAULT_CONFIG, ...config }] *)
Definition fullConfig (config : option PartialCirclesLayoutConfig)
    : CirclesLayoutConfig :=
  match config with
  | None => DEFAULT_CONFIG
  | Some c =>
      {| canvasWidth := spread (canvasWidth DEFAULT_CONFIG) (p_canvasWidth c);
         circleSize := spread (circleSize DEFAULT_CONFIG) (p_circleSize c);
         circleSpacing := spread (circleSpacing DEFAULT_CONFIG) (p_circleSpacing c);
         marginLeft := spread (marginLeft DEFAULT_CONFIG) (p_marginLeft c);
         marginTop := spread (marginTop DEFAULT_CONFIG) (p_marginTop c);
         rowSpacing := spread (rowSpacing DEFAULT_CONFIG) (p_rowSpacing c);
         lyricOffset := spread (lyricOffset DEFAULT_CONFIG) (p_lyricOffset c) |}
  end.

Definition durationToPositions (duration : Duration) : Q :=
  match duration with
  | whole => 4
  | half => 2
  | quarter => 1
  | eighth => 1
  | sixteenth => 1
  end.

(** [computeNoteCircle]; the fields [duration], [octave] and [lyric]
    it reads from the note are its first three arguments. *)
Definition computeNoteCircle (duration : Duration) (octave : Octave)
    (lyric : option string) (startX rowY baseRadius : Q)
    (config : CirclesLayoutConfig) (partIndex noteIndex : nat) : CircleLayout :=
  match duration with
  | whole =>
      let centerX := startX + (4 - 1) * circleSpacing config / 2 in
      {| cx := centerX; cy := rowY; radius := baseRadius * 1.8;
         partIndex := partIndex; noteIndex := noteIndex; isRest := false;
         octave := Some octave; subCircles := None; lyric := lyric |}
  | half =>
      let centerX := startX + (2 - 1) * circleSpacing config / 2 in
      {| cx := centerX; cy := rowY; radius := baseRadius * 1.4;
         partIndex := partIndex; noteIndex := noteIndex; isRest := false;
         octave := Some octave; subCircles := None; lyric := lyric |}
  | quarter =>
      {| cx := startX; cy := rowY; radius := baseRadius;
         partIndex := partIndex; noteIndex := noteIndex; isRest := false;
         octave := Some octave; subCircles := None; lyric := lyric |}
  | eighth =>
      let smallRadius := baseRadius * 0.6 in
      let gap := smallRadius * 2.2 in
      {| cx := startX; cy := rowY; radius := smallRadius;
         partIndex := partIndex; noteIndex := noteIndex; isRest := false;
         octave := Some octave;
         subCircles := Some
           [ {| sub_cx := startX - gap / 2; sub_cy := rowY; sub_radius := smallRadius |};
             {| sub_cx := startX + gap / 2; sub_cy := rowY; sub_radius := smallRadius |} ];
         lyric := lyric |}
  | sixteenth =>
      let tinyRadius := baseRadius * 0.4 in
      let gap := tinyRadius * 2.4 in
      {| cx := startX; cy := rowY; radius := tinyRadius;
         partIndex := partIndex; noteIndex := noteIndex; isRest := false;
         octave := Some octave;
         subCircles := Some
           [ {| sub_cx := startX - gap / 2; sub_cy := rowY - gap / 2; sub_radius := tinyRadius |};
             {| sub_cx := startX + gap / 2; sub_cy := rowY - gap / 2; sub_radius := tinyRadius |};
             {| sub_cx := startX - gap / 2; sub_cy := rowY + gap / 2; sub_radius := tinyRadius |};
             {| sub_cx := startX + gap / 2; sub_cy := rowY + gap / 2; sub_radius := tinyRadius |} ];
         lyric := lyric |}
  end.

(** The variables the [for ... of] loop of [computeCirclesLayout]
    mutates. *)
Record LoopState := mkLoopState {
  st_rows : list CircleRow;
  currentRow : list CircleLayout;
  currentX : Q;
  currentRowY : Q
}.

Definition baseRadiusOf (cfg : CirclesLayoutConfig) : Q := circleSize cfg / 2.

Definition maxX (cfg : CirclesLayoutConfig) : Q :=
  canvasWidth cfg - marginLeft cfg - baseRadiusOf cfg.

(** The wrap test at the head of the loop body. *)
Definition wrapRow (cfg : CirclesLayoutConfig) (totalWidth : Q)
    (st : LoopState) : LoopState :=
  if gtb (currentX st + totalWidth - circleSpacing cfg / 2) (maxX cfg)
     && (0 <? length (currentRow st))%nat
  then
    {| st_rows := st_rows st
                  ++ [ {| startY := currentRowY st; circles := currentRow st |} ];
       currentRow := [];
       currentX := marginLeft cfg + baseRadiusOf cfg;
       currentRowY := currentRowY st + rowSpacing cfg |}
  else st.

(** The object pushed onto [currentRow] for an entry of [allNotes]
    when [currentX] is [x] and [currentRowY] is [rowY]: the placeholder
    of a rest, or the result of [computeNoteCircle]. *)
Definition noteEntry (cfg : CirclesLayoutConfig) (t : Tagged) (x rowY : Q)
    : CircleLayout :=
  let totalWidth := durationToPositions (Types.duration (t_note t))
                    * circleSpacing cfg in
  match t_note t with
  | Rest _ =>
      {| cx := x + (totalWidth - circleSpacing cfg) / 2;
         cy := rowY;
         radius := 0;
         partIndex := t_partIndex t;
         noteIndex := t_noteIndex t;
         isRest := true;
         octave := None; subCircles := None; lyric := None |}
  | Note _ octave duration lyric _ =>
      computeNoteCircle duration octave lyric x rowY
        (baseRadiusOf cfg) cfg (t_partIndex t) (t_noteIndex t)
  end.

(** One iteration of the loop. *)
Definition layoutStep (cfg : CirclesLayoutConfig) (st : LoopState) (t : Tagged)
    : LoopState :=
  let positions := durationToPositions (Types.duration (t_note t)) in
  let totalWidth := positions * circleSpacing cfg in
  let st1 := wrapRow cfg totalWidth st in
  {| st_rows := st_rows st1;
     currentRow := currentRow st1 ++ [noteEntry cfg t (currentX st1) (currentRowY st1)];
     currentX := currentX st1 + totalWidth;
     currentRowY := currentRowY st1 |}.

Definition initialState (cfg : CirclesLayoutConfig) : LoopState :=
  {| st_rows := [];
     currentRow := [];
     currentX := marginLeft cfg + baseRadiusOf cfg;
     currentRowY := marginTop cfg + baseRadiusOf cfg |}.

(** The two pushes after the loop. *)
Definition finish (st : LoopState) : list CircleRow :=
  let rows1 :=
    if (0 <? length (currentRow st))%nat
    then st_rows st ++ [ {| startY := currentRowY st; circles := currentRow st |} ]
    else st_rows st in
  if (length rows1 =? 0)%nat
  then rows1 ++ [ {| startY := currentRowY st; circles := [] |} ]
  else rows1.

Definition computeCirclesLayoutWith (score : Score) (cfg : CirclesLayoutConfig)
    : CirclesLayout :=
  let st := fold_left (layoutStep cfg) (allNotes score) (initialState cfg) in
  let rows := finish st in
  (* [rows] is never empty here; the default of [last] is not reached *)
  let lastRow := last rows {| startY := currentRowY st; circles := [] |} in
  {| rows := rows;
     config := cfg;
     totalHeight := startY lastRow + baseRadiusOf cfg + lyricOffset cfg + 20 |}.

Definition computeCirclesLayout (score : Score)
    (config : option PartialCirclesLayoutConfig) : CirclesLayout :=
  computeCirclesLayoutWith score (fullConfig config).

(** ** Vocabulary of the layout properties *)

(** Every circle entry pushed so far, in the order of the pushes. *)
Definition laidOut (st : LoopState) : list CircleLayout :=
  flat_map circles (st_rows st) ++ currentRow st.

(** The circle entries of all rows of a layout, row after row. *)
Definition allCircles (l : CirclesLayout) : list CircleLayout :=
  flat_map circles (rows l).

(** Loop invariant: no closed row is empty. *)
Definition tidy (st : LoopState) : Prop :=
  Forall (fun r => circles r <> []) (st_rows st).

Definition circleTag (c : CircleLayout) : nat * nat := (partIndex c, noteIndex c).

(** The size of an entry: its radius and the radii of its sub-circles. *)
Definition sizing (c : CircleLayout) : Q * option (list Q) :=
  (radius c, option_map (map sub_radius) (subCircles c)).

(** A circle entry without its centre and the centres of its
    sub-circles. *)
Definition unplaced (c : CircleLayout)
    : nat * nat * (Q * option (list Q)) * bool * option Octave * option string :=
  (circleTag c, sizing c, isRest c, octave c, lyric c).

(** The configuration argument with its [canvasWidth] set to [w]. *)
Definition withCanvasWidth (w : Q) (config : option PartialCirclesLayoutConfig)
    : option PartialCirclesLayoutConfig :=
  match config with
  | None => Some (mkPartialCirclesLayoutConfig (Some w) None None None None None None)
  | Some c =>
      Some (mkPartialCirclesLayoutConfig (Some w) (p_circleSize c) (p_circleSpacing c)
              (p_marginLeft c) (p_marginTop c) (p_rowSpacing c) (p_lyricOffset c))
  end.


End CirclesLayout.

(** * export/jsonPersistence.ts *)

Module JsonPersistence.

Open Scope string_scope.

(** ** JSON documents

    A JSON text is represented by the value it denotes: what
    [JSON.parse] returns for it and what [JSON.stringify] prints.
    Objects keep their members in order. *)
#[local] Unset Elimination Schemes.
Inductive json :=
| JNull
| JBool (b : bool)
| JNumber (q : Q)
| JString (s : string)
| JArray (items : list json)
| JObject (members : list (string * json)).
#[local] Set Elimination Schemes.

Fixpoint lookup (k : string) (members : list (string * json)) : option json :=
  match members with
  | [] => None
  | (k', v) :: rest => if String.eqb k k' then Some v else lookup k rest
  end.

(** [obj.k] after the cast to [Record<string, unknown>]; [None] is
    [undefined].  None of the keys the loader reads is a property of
    arrays, so an array reads as [undefined] everywhere. *)
Definition prop (obj : json) (k : string) : option json :=
  match obj with
  | JObject members => lookup k members
  | _ => None
  end.

(** [typeof v !== "object" || v === null] is false. *)
Definition isObject (v : option json) : bool :=
  match v with
  | Some (JObject _) | Some (JArray _) => true
  | _ => false
  end.

(** ** The string literal types of models/types.ts *)

Definition pitchName (p : Pitch) : string :=
  match p with
  | C => "C" | D => "D" | E => "E" | F => "F" | G => "G" | A => "A" | H => "H"
  end.

Definition octaveName (o : Octave) : string :=
  match o with
  | lower => "lower" | middle => "middle" | upper => "upper"
  end.

Definition durationName (d : Duration) : string :=
  match d with
  | whole => "whole" | half => "half" | quarter => "quarter"
  | eighth => "eighth" | sixteenth => "sixteenth"
  end.

Definition renderingModeName (m : RenderingMode) : string :=
  match m with
  | staff => "staff" | circles => "circles"
  end.

Definition clefName (c : Clef) : string :=
  match c with
  | treble => "treble" | bass => "bass"
  end.

Definition VALID_PITCHES : list Pitch := [C; D; E; F; G; A; H].
Definition VALID_OCTAVES : list Octave := [lower; middle; upper].
Definition VALID_DURATIONS : list Duration := [whole; half; quarter; eighth; sixteenth].
Definition VALID_RENDERING_MODES : list RenderingMode := [staff; circles].
Definition VALID_CLEFS : list Clef := [treble; bass].

(** [typeof v === "string" && VALID.includes(v)], followed by the cast
    of [v] to the literal type: the member of [valid] whose literal is
    [v], if [v] is a string and there is one. *)
Definition oneOf {T : Type} (nameOf : T -> string) (valid : list T)
    (v : option json) : option T :=
  match v with
  | Some (JString s) => find (fun t => String.eqb s (nameOf t)) valid
  | _ => None
  end.

(** ** Errors

    Each constructor stands for one [throw new Error(...)] of the
    module and carries what the message interpolates: the indices of
    the path prefix and the offending value. *)
Inductive LoadError :=
| InvalidJsonFile                 (* "Invalid JSON file" *)
| ScoreNotObject                  (* "Score must be a JSON object" *)
| TitleNotString                  (* 'Score must have a "title" string' *)
| InvalidRenderingMode (v : option json)
                                  (* 'Invalid renderingMode "<v>" - expected one of staff, circles' *)
| InvalidClef (v : option json)   (* 'Invalid clef "<v>" - expected one of treble, bass' *)
| TimeSignatureNotObject          (* 'Score must have a "timeSignature" object' *)
| TimeSignatureNotNumeric         (* 'timeSignature must have numeric "beats" and "beatValue"' *)
| PartsNotArray                   (* 'Score must have a "parts" array' *)
| TempoNotNumber                  (* "tempo must be a number if provided" *)
| PartNotObject (index : nat)     (* "parts[i]: must be an object" *)
| PartNotesNotArray (index : nat) (* 'parts[i]: must have a "notes" array' *)
| PartNameNotString (index : nat) (* "parts[i]: name must be a string if provided" *)
| EntryNotObject (partIndex noteIndex : nat)
                                  (* "parts[i].notes[j]: must be an object" *)
| InvalidPitch (partIndex noteIndex : nat) (v : option json)
                                  (* 'parts[i].notes[j]: invalid pitch "<v>" - expected one of ...' *)
| InvalidOctave (partIndex noteIndex : nat) (v : option json)
| InvalidDuration (partIndex noteIndex : nat) (v : option json)
| LyricNotString (partIndex noteIndex : nat)
                                  (* "parts[i].notes[j]: lyric must be a string if provided" *)
| AccentedNotBoolean (partIndex noteIndex : nat)
                                  (* "parts[i].notes[j]: accented must be a boolean if provided" *)
| InvalidType (partIndex noteIndex : nat) (v : option json).
                                  (* 'parts[i].notes[j]: invalid type "<v>" - expected "note" or "rest"' *)

(** A returned value or a thrown error. *)
Inductive result (T : Type) :=
| Ok (v : T)
| Throw (e : LoadError).

Arguments Ok {T} v.
Arguments Throw {T} e.

Definition bind {T U : Type} (r : result T) (k : T -> result U) : result U :=
  match r with
  | Ok v => k v
  | Throw e => Throw e
  end.

Notation "'let*' x ':=' r 'in' k" := (bind r (fun x => k))
  (at level 10, x name, r at level 100, k at level 200).

(** [throw] unless the required value is there. *)
Definition require {T : Type} (o : option T) (e : LoadError) : result T :=
  match o with
  | Some v => Ok v
  | None => Throw e
  end.

(** [arr.map((x, i) => f(x, i))] where [f] may throw: the first
    failing element, in index order, ends the call. *)
Fixpoint mapiM_from {X Y : Type} (i : nat) (f : X -> nat -> result Y)
    (l : list X) : result (list Y) :=
  match l with
  | [] => Ok []
  | x :: l' =>
      let* y := f x i in
      let* ys := mapiM_from (S i) f l' in
      Ok (y :: ys)
  end.

Definition mapiM {X Y : Type} (f : X -> nat -> result Y) (l : list X)
    : result (list Y) :=
  mapiM_from 0 f l.

(** An optional property that must have a given type when present. *)
Definition optString (v : option json) (e : LoadError) : result (option string) :=
  match v with
  | None => Ok None
  | Some (JString s) => Ok (Some s)
  | Some _ => Throw e
  end.

Definition optBoolean (v : option json) (e : LoadError) : result (option bool) :=
  match v with
  | None => Ok None
  | Some (JBool b) => Ok (Some b)
  | Some _ => Throw e
  end.

Definition optNumber (v : option json) (e : LoadError) : result (option Q) :=
  match v with
  | None => Ok None
  | Some (JNumber q) => Ok (Some q)
  | Some _ => Throw e
  end.

(** ** Loading *)

(** [v === s] for a string literal [s]. *)
Definition isString (v : option json) (s : string) : bool :=
  match v with
  | Some (JString s') => String.eqb s' s
  | _ => false
  end.

(** [typeof v === "number"]. *)
Definition isNumber (v : option json) : bool :=
  match v with
  | Some (JNumber _) => true
  | _ => false
  end.

Definition validateNoteOrRest (entry : json) (partIndex noteIndex : nat)
    : result NoteOrRest :=
  if negb (isObject (Some entry)) then Throw (EntryNotObject partIndex noteIndex)
  else if isString (prop entry "type") "note" then
    let* pitch :=
      require (oneOf pitchName VALID_PITCHES (prop entry "pitch"))
              (InvalidPitch partIndex noteIndex (prop entry "pitch")) in
    let* octave :=
      require (oneOf octaveName VALID_OCTAVES (prop entry "octave"))
              (InvalidOctave partIndex noteIndex (prop entry "octave")) in
    let* duration :=
      require (oneOf durationName VALID_DURATIONS (prop entry "duration"))
              (InvalidDuration partIndex noteIndex (prop entry "duration")) in
    let* lyric :=
      optString (prop entry "lyric") (LyricNotString partIndex noteIndex) in
    let* accented :=
      optBoolean (prop entry "accented") (AccentedNotBoolean partIndex noteIndex) in
    Ok (Note pitch octave duration lyric accented)
  else if isString (prop entry "type") "rest" then
    let* duration :=
      require (oneOf durationName VALID_DURATIONS (prop entry "duration"))
              (InvalidDuration partIndex noteIndex (prop entry "duration")) in
    Ok (Rest duration)
  else Throw (InvalidType partIndex noteIndex (prop entry "type")).

Definition validatePart (entry : json) (index : nat) : result Part :=
  if negb (isObject (Some entry)) then Throw (PartNotObject index)
  else
    match prop entry "notes" with
    | Some (JArray items) =>
        let* name := optString (prop entry "name") (PartNameNotString index) in
        let* notes := mapiM (fun n ni => validateNoteOrRest n index ni) items in
        Ok {| name := name; notes := notes |}
    | _ => Throw (PartNotesNotArray index)
    end.

(** [loadScore].  The argument is the content of the file: the JSON
    value its text denotes, or [None] when [JSON.parse] throws.  A
    rejected promise is a [Throw]. *)
Definition loadScore (file : option json) : result Score :=
  match file with
  | None => Throw InvalidJsonFile
  | Some (JObject members) =>
      let obj := JObject members in
      match prop obj "title" with
      | Some (JString title) =>
          let* renderingMode :=
            require (oneOf renderingModeName VALID_RENDERING_MODES
                           (prop obj "renderingMode"))
                    (InvalidRenderingMode (prop obj "renderingMode")) in
          let* clef :=
            require (oneOf clefName VALID_CLEFS (prop obj "clef"))
                    (InvalidClef (prop obj "clef")) in
          if negb (isObject (prop obj "timeSignature"))
          then Throw TimeSignatureNotObject
          else
            let ts := match prop obj "timeSignature" with
                      | Some v => v
                      | None => JNull
                      end in
            match prop ts "beats", prop ts "beatValue" with
            | Some (JNumber beats), Some (JNumber beatValue) =>
                match prop obj "parts" with
                | Some (JArray items) =>
                    let* parts := mapiM validatePart items in
                    let* tempo := optNumber (prop obj "tempo") TempoNotNumber in
                    Ok {| title := title;
                          tempo := tempo;
                          renderingMode := renderingMode;
                          timeSignature :=
                            {| beats := beats; beatValue := beatValue |};
                          clef := clef;
                          parts := parts |}
                | _ => Throw PartsNotArray
                end
            | _, _ => Throw TimeSignatureNotNumeric
            end
      | _ => Throw TitleNotString
      end
  | Some _ => Throw ScoreNotObject
  end.

(** ** Saving

    The document [JSON.stringify(score, null, 2)] prints in
    [saveScore]: the properties of each object in their declared order,
    a property whose value is [undefined] left out. *)
Definition optMember (k : string) (v : option json) : list (string * json) :=
  match v with
  | Some j => [(k, j)]
  | None => []
  end.

Definition noteToJson (n : NoteOrRest) : json :=
  match n with
  | Note pitch octave duration lyric accented =>
      JObject ([ ("type", JString "note");
                 ("pitch", JString (pitchName pitch));
                 ("octave", JString (octaveName octave));
                 ("duration", JString (durationName duration)) ]
               ++ optMember "lyric" (option_map JString lyric)
               ++ optMember "accented" (option_map JBool accented))
  | Rest duration =>
      JObject [ ("type", JString "rest");
                ("duration", JString (durationName duration)) ]
  end.

Definition partToJson (p : Part) : json :=
  JObject (optMember "name" (option_map JString (name p))
           ++ [ ("notes", JArray (map noteToJson (notes p))) ]).

Definition stringify (score : Score) : json :=
  JObject ([ ("title", JString (title score)) ]
           ++ optMember "tempo" (option_map JNumber (tempo score))
           ++ [ ("renderingMode", JString (renderingModeName (renderingMode score)));
                ("timeSignature",
                 JObject [ ("beats", JNumber (beats (timeSignature score)));
                           ("beatValue", JNumber (beatValue (timeSignature score))) ]);
                ("clef", JString (clefName (clef score)));
                ("parts", JArray (map partToJson (parts score))) ]).

(** ** Example files *)

(** A score of one quarter note with the time signature [b / bv], and
    the file saving it writes. *)
Definition scoreWith (b bv : Q) : Score :=
  {| title := "Test Score"; tempo := None; renderingMode := staff;
     timeSignature := {| beats := b; beatValue := bv |};
     clef := treble;
     parts := [ {| name := None;
                   notes := [ Note C middle quarter None None ] |} ] |}.

Definition fileWith (b bv : Q) : json := stringify (scoreWith b bv).

(** The test files for a missing and for a non-numeric time
    signature: a valid file but for its [timeSignature] member. *)
Definition fileWithTimeSignature (ts : option json) : json :=
  JObject ([ ("title", JString "Test");
             ("renderingMode", JString "staff") ]
           ++ optMember "timeSignature" ts
           ++ [ ("clef", JString "treble");
                ("parts", JArray []) ]).

Definition beatsFour : json :=
  JObject [ ("beats", JString "four"); ("beatValue", JNumber 4) ].

Definition membersOf (file : json) : list (string * json) :=
  match file with
  | JObject members => members
  | _ => []
  end.

(** The time signature of a document has the shape the loader asks
    for: a member that is an object and whose [beats] and [beatValue]
    are numbers. *)
Definition numericTimeSignature (obj : json) : bool :=
  match prop obj "timeSignature" with
  | Some ts =>
      isObject (Some ts) && isNumber (prop ts "beats")
      && isNumber (prop ts "beatValue")
  | None => false
  end.

(** The errors of the checks [loadScore] makes on a parsed document
    before it reads the parts. *)
Definition beforeParts (e : LoadError) : bool :=
  match e with
  | ScoreNotObject | TitleNotString | InvalidRenderingMode _ | InvalidClef _
  | TimeSignatureNotObject | TimeSignatureNotNumeric => true
  | _ => false
  end.

End JsonPersistence.

(** * renderers/staffSymbols.ts *)

Module StaffSymbols.

Open Scope Q_scope.

Record Notehead := mkNotehead {
  rx : Q;
  ry : Q;
  filled : bool
}.

Definition renderNotehead (filled : bool) : Notehead :=
  {| rx := 6; ry := if filled then 4.5 else 5; filled := filled |}.

Definition isNoteheadFilled (duration : Duration) : bool :=
  match duration with
  | quarter | eighth | sixteenth => true
  | whole | half => false
  end.

Definition hasStem (duration : Duration) : bool :=
  match duration with
  | whole => false
  | _ => true
  end.

Definition getFlagCount (duration : Duration) : nat :=
  match duration with
  | eighth => 1
  | sixteenth => 2
  | _ => 0
  end.

End StaffSymbols.

(** * renderers/StaffRenderer.tsx

    The geometry the component computes before it builds SVG elements. *)

Module StaffRenderer.

Open Scope Q_scope.

(** The layout the component asks for: [computeLayout(score,
    { canvasWidth: width })]. *)
Definition layoutFor (score : Score) (width : Q) : StaffLayout.StaffLayout :=
  StaffLayout.computeLayout score
    (Some (StaffLayout.mkPartialLayoutConfig (Some width) None None None None None None)).

(** [svgHeight]; [lastSystem] is [undefined] when [systems] is empty. *)
Definition svgHeight (layout : StaffLayout.StaffLayout) : Q :=
  let config := StaffLayout.config layout in
  match rev (StaffLayout.systems layout) with
  | lastSystem :: _ =>
      StaffLayout.startY lastSystem + StaffLayout.staffHeight config
      + StaffLayout.marginTop config
  | [] => StaffLayout.marginTop config + StaffLayout.staffHeight config
  end.

(** The y coordinates of the five lines [renderStaffLines] draws,
    [i = 0 .. 4]. *)
Definition staffLineYs (config : StaffLayout.LayoutConfig)
    (system : StaffLayout.StaffSystem) : list Q :=
  map (fun i : nat =>
         StaffLayout.startY system
         + inject_Z (Z.of_nat i) * StaffLayout.staffLineSpacing config)
      (seq 0 5).

Definition staffPositionToY (config : StaffLayout.LayoutConfig)
    (staffPosition : Z) (systemY : Q) : Q :=
  let bottomLineY := systemY + 4 * StaffLayout.staffLineSpacing config in
  bottomLineY - inject_Z staffPosition * (StaffLayout.staffLineSpacing config / 2).

(** [for (let pos = 10; pos <= y; pos += 2)]: the positions visited,
    at most [fuel] of them. *)
Fixpoint ledgerAboveLoop (fuel : nat) (pos y : Z) : list Z :=
  match fuel with
  | O => []
  | S fuel' =>
      if (pos <=? y)%Z then pos :: ledgerAboveLoop fuel' (pos + 2) y else []
  end.

(** [for (let pos = -2; pos >= y; pos -= 2)] *)
Fixpoint ledgerBelowLoop (fuel : nat) (pos y : Z) : list Z :=
  match fuel with
  | O => []
  | S fuel' =>
      if (pos >=? y)%Z then pos :: ledgerBelowLoop fuel' (pos - 2) y else []
  end.

(** The staff positions of the ledger lines [renderLedgerLines] draws
    for a note at staff position [y], above the staff first.  The fuel
    is one more than the number of positions either loop can visit. *)
Definition ledgerPositions (y : Z) : list Z :=
  (if (y >? 8)%Z then ledgerAboveLoop (S (Z.to_nat (y - 8))) 10 y else [])
  ++ (if (y <? 0)%Z then ledgerBelowLoop (S (Z.to_nat (- y))) (-2) y else []).

(** [stemDirection]: up ([-1]) in the lower register, down otherwise,
    also when the layout has no octave. *)
Definition stemDirection (noteLayout : StaffLayout.NoteLayout) : Z :=
  match StaffLayout.octave noteLayout with
  | Some lower => (-1)%Z
  | _ => 1%Z
  end.

End StaffRenderer.

(** * Geometry of the staff layout *)

Module StaffGeometry.
Import StaffLayout.

Open Scope Q_scope.

(** The x of the note number [k] of a system: [marginLeft] and [k]
    times [+ noteSpacing]. *)
Fixpoint xAfter (cfg : LayoutConfig) (k : nat) : Q :=
  match k with
  | O => marginLeft cfg
  | S j => xAfter cfg j + noteSpacing cfg
  end.

Definition slots (cfg : LayoutConfig) (n : nat) : list Q :=
  map (xAfter cfg) (seq 0 n).

(** Where the bar line after a note is drawn. *)
Definition barAfter (cfg : LayoutConfig) (n : NoteLayout) : Q :=
  x n + noteSpacing cfg - noteSpacing cfg / 2.

(** [l1] is [l2] with some elements left out. *)
Inductive subsequence {X : Type} : list X -> list X -> Prop :=
| sub_nil : subsequence [] []
| sub_skip (a : X) (l1 l2 : list X) : subsequence l1 l2 -> subsequence l1 (a :: l2)
| sub_take (a : X) (l1 l2 : list X) : subsequence l1 l2 -> subsequence (a :: l1) (a :: l2).

(** The right limit of the wrap test. *)
Definition usable (cfg : LayoutConfig) : Q := canvasWidth cfg - marginLeft cfg.

(** A system as the loop builds it. *)
Definition shaped (cfg : LayoutConfig) (s : StaffSystem) : Prop :=
  startX s = marginLeft cfg
  /\ map x (notes s) = slots cfg (length (notes s))
  /\ subsequence (barLines s) (map (barAfter cfg) (notes s))
  /\ (forall k, (0 < k < length (notes s))%nat -> gtb (xAfter cfg k) (usable cfg) = false).

(** A system the loop has closed: the slot after its last note is the
    first one beyond the limit. *)
Definition closed (cfg : LayoutConfig) (s : StaffSystem) : Prop :=
  shaped cfg s
  /\ notes s <> []
  /\ gtb (xAfter cfg (length (notes s))) (usable cfg) = true.

(** Loop invariant. *)
Definition geometry (cfg : LayoutConfig) (st : LoopState) : Prop :=
  Forall (closed cfg) (st_systems st)
  /\ shaped cfg (currentSystem st)
  /\ currentX st = xAfter cfg (length (notes (currentSystem st)))
  /\ (notes (currentSystem st) <> [] ->
      gtb (xAfter cfg (length (notes (currentSystem st)))) (usable cfg) = false).

End StaffGeometry.

(** * Geometry of the circles layout *)

Module CirclesGeometry.
Import CirclesLayout.

Open Scope Q_scope.

(** The y of the row number [k]: the first row's y and [k] times
    [+ rowSpacing]. *)
Fixpoint rowYAfter (cfg : CirclesLayoutConfig) (k : nat) : Q :=
  match k with
  | O => marginTop cfg + baseRadiusOf cfg
  | S j => rowYAfter cfg j + rowSpacing cfg
  end.

(** Where every row starts. *)
Definition rowStart (cfg : CirclesLayoutConfig) : Q :=
  marginLeft cfg + baseRadiusOf cfg.

(** The horizontal footprint of a note or rest. *)
Definition totalWidth (cfg : CirclesLayoutConfig) (t : Tagged) : Q :=
  durationToPositions (Types.duration (t_note t)) * circleSpacing cfg.

(** The entries of notes put one after the other on the row at [y],
    the first one in the slot that starts at [x]. *)
Fixpoint placeRow (cfg : CirclesLayoutConfig) (y x : Q) (ts : list Tagged)
    : list CircleLayout :=
  match ts with
  | [] => []
  | t :: ts' => noteEntry cfg t x y :: placeRow cfg y (x + totalWidth cfg t) ts'
  end.

(** Where the slot after these notes starts. *)
Fixpoint endOf (cfg : CirclesLayoutConfig) (x : Q) (ts : list Tagged) : Q :=
  match ts with
  | [] => x
  | t :: ts' => endOf cfg (x + totalWidth cfg t) ts'
  end.

(** The row number [k] holding the notes [ts]. *)
Definition rowOf (cfg : CirclesLayoutConfig) (k : nat) (ts : list Tagged)
    : CircleRow :=
  {| startY := rowYAfter cfg k;
     circles := placeRow cfg (rowYAfter cfg k) (rowStart cfg) ts |}.

Definition rowsOf (cfg : CirclesLayoutConfig) (tss : list (list Tagged))
    : list CircleRow :=
  mapi (rowOf cfg) tss.

(** The wrap test for the note [t] on a row that holds [ts]. *)
Definition overflows (cfg : CirclesLayoutConfig) (ts : list Tagged) (t : Tagged)
    : bool :=
  gtb (endOf cfg (rowStart cfg) ts + totalWidth cfg t - circleSpacing cfg / 2)
      (maxX cfg).

(** Every note of [ts] passed the wrap test on the row that held [pre]
    and the notes of [ts] before it. *)
Fixpoint fitsAfter (cfg : CirclesLayoutConfig) (pre ts : list Tagged) : Prop :=
  match ts with
  | [] => True
  | t :: ts' => overflows cfg pre t = false /\ fitsAfter cfg (pre ++ [t]) ts'
  end.

(** A row in which every note but the first passed the wrap test. *)
Definition rowFits (cfg : CirclesLayoutConfig) (ts : list Tagged) : Prop :=
  match ts with
  | [] => True
  | t :: ts' => fitsAfter cfg [t] ts'
  end.

(** Each row was closed by a note that failed the wrap test on it:
    the first note of the row after it. *)
Fixpoint closedByNext (cfg : CirclesLayoutConfig) (tss : list (list Tagged))
    : Prop :=
  match tss with
  | [] => True
  | ts :: rest =>
      match rest with
      | [] => True
      | next :: _ =>
          match next with
          | [] => False
          | t :: _ => overflows cfg ts t = true
          end
      end
      /\ closedByNext cfg rest
  end.

(** Loop invariant: the state after the notes [done]. *)
Definition breaking (cfg : CirclesLayoutConfig) (done : list Tagged)
    (st : LoopState) : Prop :=
  exists tss cur,
    done = concat tss ++ cur
    /\ st_rows st = rowsOf cfg tss
    /\ currentRow st = placeRow cfg (rowYAfter cfg (length tss)) (rowStart cfg) cur
    /\ currentX st = endOf cfg (rowStart cfg) cur
    /\ currentRowY st = rowYAfter cfg (length tss)
    /\ Forall (fun ts => ts <> [] /\ rowFits cfg ts) tss
    /\ rowFits cfg cur
    /\ (tss <> [] -> cur <> [])
    /\ closedByNext cfg (tss ++ [cur]).

(** The index pairs of the entries of the rows, row by row. *)
Definition rowTags (l : CirclesLayout) : list (list (nat * nat)) :=
  map (fun r => map circleTag (circles r)) (rows l).

(** The rows that hold the index pair [(pi, ni)]. *)
Definition rowsHolding (pi ni : nat) (rows : list (list (nat * nat)))
    : list (list (nat * nat)) :=
  filter (fun r => (0 <? occursIn pi ni r)%nat) rows.

End CirclesGeometry.

(** * What the loader reads and reports *)

Module JsonLoading.
Import JsonPersistence.

Open Scope string_scope.

(** The members of the document [loadScore] reads. *)
Definition topKeys : list string :=
  [ "title"; "tempo"; "renderingMode"; "timeSignature"; "clef"; "parts" ].

(** The place a message starts with: [parts[i]] or
    [parts[i].notes[j]]; [None] for the messages about the document. *)
Definition errorPath (e : LoadError) : option (nat * option nat) :=
  match e with
  | PartNotObject i | PartNotesNotArray i | PartNameNotString i => Some (i, None)
  | EntryNotObject i j | InvalidPitch i j _ | InvalidOctave i j _
  | InvalidDuration i j _ | LyricNotString i j | AccentedNotBoolean i j
  | InvalidType i j _ => Some (i, Some j)
  | _ => None
  end.

(** The entry of a file says what the loaded note says. *)
Definition noteAgrees (entry : json) (n : NoteOrRest) : Prop :=
  match n with
  | Note pitch octave duration lyric accented =>
      prop entry "type" = Some (JString "note")
      /\ prop entry "pitch" = Some (JString (pitchName pitch))
      /\ prop entry "octave" = Some (JString (octaveName octave))
      /\ prop entry "duration" = Some (JString (durationName duration))
      /\ prop entry "lyric" = option_map JString lyric
      /\ prop entry "accented" = option_map JBool accented
  | Rest duration =>
      prop entry "type" = Some (JString "rest")
      /\ prop entry "duration" = Some (JString (durationName duration))
  end.

Definition partAgrees (entry : json) (p : Part) : Prop :=
  prop entry "name" = option_map JString (name p)
  /\ exists items,
       prop entry "notes" = Some (JArray items)
       /\ Forall2 noteAgrees items (notes p).

Definition scoreAgrees (file : json) (score : Score) : Prop :=
  prop file "title" = Some (JString (title score))
  /\ prop file "tempo" = option_map JNumber (tempo score)
  /\ prop file "renderingMode"
     = Some (JString (renderingModeName (renderingMode score)))
  /\ prop file "clef" = Some (JString (clefName (clef score)))
  /\ (exists ts,
        prop file "timeSignature" = Some ts
        /\ prop ts "beats" = Some (JNumber (beats (timeSignature score)))
        /\ prop ts "beatValue" = Some (JNumber (beatValue (timeSignature score))))
  /\ exists items,
       prop file "parts" = Some (JArray items)
       /\ Forall2 partAgrees items (parts score).

(** What a thrown error says about the file. *)
Definition errorLocated (file : json) (e : LoadError) : Prop :=
  match errorPath e with
  | None => True
  | Some (pi, None) =>
      exists items part,
        prop file "parts" = Some (JArray items)
        /\ nth_error items pi = Some part
        /\ validatePart part pi = Throw e
  | Some (pi, Some ni) =>
      exists items part noteItems entry,
        prop file "parts" = Some (JArray items)
        /\ nth_error items pi = Some part
        /\ prop part "notes" = Some (JArray noteItems)
        /\ nth_error noteItems ni = Some entry
        /\ validateNoteOrRest entry pi ni = Throw e
  end.

(** The file of [scoreWith 4 4] with its members in reverse order and
    a member the loader does not know. *)
Definition shuffledFile : json :=
  JObject (rev (membersOf (fileWith 4 4)) ++ [ ("version", JNumber 2) ]).

(** A file whose second note of the first part has the pitch "X". *)
Definition badPitchFile : json :=
  JObject
    [ ("title", JString "Bad");
      ("renderingMode", JString "staff");
      ("timeSignature", JObject [ ("beats", JNumber 4); ("beatValue", JNumber 4) ]);
      ("clef", JString "treble");
      ("parts",
       JArray
         [ JObject
             [ ("notes",
                JArray
                  [ noteToJson (Note C middle quarter None None);
                    JObject [ ("type", JString "note");
                              ("pitch", JString "X");
                              ("octave", JString "middle");
                              ("duration", JString "quarter") ] ]) ] ]) ].

End JsonLoading.

From Stdlib Require Import Ascii Permutation.

(** * File names of the exports

    [sanitizeFilename] of export/jsonPersistence.ts and the function of
    the same name of export/imageExport.ts and export/pdfExport.ts.  A
    character of a string stands for a UTF-16 code unit; the code units
    of this embedding are those below 256. *)

Module Filenames.

Open Scope string_scope.

Definition between (lo n hi : nat) : bool := (lo <=? n)%nat && (n <=? hi)%nat.

(** A character the class [[a-z0-9]] matches under the flag [i]. *)
Definition isAlnum (c : ascii) : bool :=
  let n := nat_of_ascii c in
  between 48 n 57 || between 65 n 90 || between 97 n 122.

(** [s.replace(/[^a-z0-9]/gi, "_")] *)
Fixpoint replaceUnsafe (s : string) : string :=
  match s with
  | EmptyString => EmptyString
  | String c s' =>
      String (if isAlnum c then c else "_"%char) (replaceUnsafe s')
  end.

(** [s || d]: the empty string is falsy. *)
Definition orElse (s d : string) : string :=
  match s with
  | EmptyString => d
  | _ => s
  end.

(** export/jsonPersistence.ts *)
Definition sanitizeFilename (title : string) : string :=
  let sanitized := replaceUnsafe title in
  orElse sanitized "score".

(** The name [saveScore] downloads the file under. *)
Definition saveFilename (score : Score) : string :=
  sanitizeFilename (orElse (title score) "score") ++ ".json".

(** The white space and line terminators [trim] strips: tab, line
    feed, vertical tab, form feed, carriage return, space and no-break
    space. *)
Definition isWhiteSpace (c : ascii) : bool :=
  let n := nat_of_ascii c in
  between 9 n 13 || (n =? 32)%nat || (n =? 160)%nat.

Fixpoint trimStart (s : string) : string :=
  match s with
  | EmptyString => EmptyString
  | String c s' => if isWhiteSpace c then trimStart s' else s
  end.

Fixpoint trimEnd (s : string) : string :=
  match s with
  | EmptyString => EmptyString
  | String c s' =>
      match trimEnd s' with
      | EmptyString => if isWhiteSpace c then EmptyString else String c EmptyString
      | rest => String c rest
      end
  end.

Definition trim (s : string) : string := trimEnd (trimStart s).

(** export/imageExport.ts and export/pdfExport.ts *)
Definition sanitizeExportFilename (title : string) : string :=
  let trimmed := trim (orElse title "") in
  match trimmed with
  | EmptyString => "score"
  | _ => replaceUnsafe trimmed
  end.

(** Every character satisfies [P]. *)
Fixpoint allChars (P : ascii -> bool) (s : string) : bool :=
  match s with
  | EmptyString => true
  | String c s' => P c && allChars P s'
  end.

(** Letters, digits and the underscore. *)
Definition isSafe (c : ascii) : bool := isAlnum c || Ascii.eqb c "_"%char.

End Filenames.

(** * export/pdfExport.ts: the placement of the image on the page *)

Module PdfExport.

Open Scope Q_scope.





End PdfExport.

(** * store/scoreReducer.ts *)

Module ScoreReducer.

Open Scope string_scope.

(** [Partial<Pick<Note, "pitch" | "octave" | "duration" | "accented">>]:
    the properties of [changes] that are present. *)
Record NoteChanges := mkNoteChanges {
  c_pitch : option Pitch;
  c_octave : option Octave;
  c_duration : option Duration;
  c_accented : option bool
}.

Inductive ScoreAction :=
| ADD_NOTE (pitch : Pitch) (octave : Octave) (duration : Duration)
           (accented : option bool)
| ADD_REST (duration : Duration)
| SET_TITLE (payload : string)
| SET_TIME_SIGNATURE (payload : TimeSignature)
| SET_CLEF (payload : Clef)
| SET_RENDERING_MODE (payload : RenderingMode)
| LOAD_SCORE (payload : Score)
| EDIT_NOTE (partIndex noteIndex : nat) (changes : NoteChanges)
| DELETE_NOTE (partIndex noteIndex : nat)
| REORDER_NOTE (partIndex fromIndex toIndex : nat)
| SET_LYRIC (partIndex noteIndex : nat) (lyric : string).

Definition initialScoreState : Score :=
  {| title := ""; tempo := None; renderingMode := staff;
     timeSignature := {| beats := 4; beatValue := 4 |};
     clef := treble;
     parts := [ {| name := None; notes := [] |} ] |}.

(** What a call of the reducer comes to: the next state; a
    [TypeError] for reading [notes] of a part that is not there; or an
    object that is no score, its notes holding [undefined]. *)
Inductive outcome :=
| Next (state : Score)
| TypeError
| NotAScore.

(** [{ ...state, parts }] *)
Definition withParts (state : Score) (parts : list Part) : Score :=
  {| title := title state; tempo := tempo state;
     renderingMode := renderingMode state;
     timeSignature := timeSignature state;
     clef := clef state; parts := parts |}.

(** [{ ...part, notes }] *)
Definition withNotes (part : Part) (notes : list NoteOrRest) : Part :=
  {| name := name part; notes := notes |}.

(** [copy[i] = v] on a copy of [l], for an index within [l] (the
    reducer assigns only where it has read an element before). *)
Definition setAt {X : Type} (i : nat) (v : X) (l : list X) : list X :=
  firstn i l ++ v :: skipn (S i) l.

(** [l.filter((_, i) => keep(i))] *)
Fixpoint filterIndexFrom {X : Type} (i : nat) (keep : nat -> bool) (l : list X)
    : list X :=
  match l with
  | [] => []
  | x :: l' =>
      if keep i then x :: filterIndexFrom (S i) keep l'
      else filterIndexFrom (S i) keep l'
  end.

Definition filterIndex {X : Type} (keep : nat -> bool) (l : list X) : list X :=
  filterIndexFrom 0 keep l.

(** [copy.splice(start, 0, v)]: a start beyond the end is the end. *)
Definition spliceIn {X : Type} (start : nat) (v : X) (l : list X) : list X :=
  firstn start l ++ v :: skipn start l.

(** [copy.splice(start, 1)] leaves [copy] without the element at
    [start]; beyond the end it removes nothing. *)
Definition spliceOut {X : Type} (start : nat) (l : list X) : list X :=
  firstn start l ++ skipn (S start) l.

(** The case [ADD_NOTE] and [ADD_REST] share: a new last entry of the
    first part. *)
Definition append (state : Score) (entry : NoteOrRest) : outcome :=
  match parts state with
  | [] => TypeError
  | first :: rest =>
      Next (withParts state (withNotes first (notes first ++ [entry]) :: rest))
  end.

(** [{ ...existingNote, ...changes }] *)
Definition applyChanges (existingNote : NoteOrRest) (changes : NoteChanges)
    : NoteOrRest :=
  match existingNote with
  | Note pitch octave duration lyric accented =>
      Note (match c_pitch changes with Some p => p | None => pitch end)
           (match c_octave changes with Some o => o | None => octave end)
           (match c_duration changes with Some d => d | None => duration end)
           lyric
           (match c_accented changes with Some a => Some a | None => accented end)
  | Rest duration => Rest duration
  end.

(** The note with the lyric set, or removed when the string is empty. *)
Definition applyLyric (existingNote : NoteOrRest) (lyric : string) : NoteOrRest :=
  match existingNote with
  | Note pitch octave duration _ accented =>
      Note pitch octave duration
           (match lyric with "" => None | _ => Some lyric end) accented
  | Rest duration => Rest duration
  end.

Definition scoreReducer (state : Score) (action : ScoreAction) : outcome :=
  match action with
  | ADD_NOTE pitch octave duration accented =>
      let newNote :=
        Note pitch octave duration None
             (match accented with Some true => Some true | _ => None end) in
      append state newNote
  | ADD_REST duration => append state (Rest duration)
  | SET_TITLE payload =>
      Next {| title := payload; tempo := tempo state;
              renderingMode := renderingMode state;
              timeSignature := timeSignature state;
              clef := clef state; parts := parts state |}
  | SET_TIME_SIGNATURE payload =>
      Next {| title := title state; tempo := tempo state;
              renderingMode := renderingMode state;
              timeSignature := payload;
              clef := clef state; parts := parts state |}
  | SET_CLEF payload =>
      Next {| title := title state; tempo := tempo state;
              renderingMode := renderingMode state;
              timeSignature := timeSignature state;
              clef := payload; parts := parts state |}
  | SET_RENDERING_MODE payload =>
      Next {| title := title state; tempo := tempo state;
              renderingMode := payload;
              timeSignature := timeSignature state;
              clef := clef state; parts := parts state |}
  | LOAD_SCORE payload => Next payload
  | EDIT_NOTE partIndex noteIndex changes =>
      match nth_error (parts state) partIndex with
      | None => Next state
      | Some part =>
          match nth_error (notes part) noteIndex with
          | Some (Note p o d l a) =>
              let updatedNote := applyChanges (Note p o d l a) changes in
              let newNotes := setAt noteIndex updatedNote (notes part) in
              let newParts := setAt partIndex (withNotes part newNotes) (parts state) in
              Next (withParts state newParts)
          | _ => Next state
          end
      end
  | DELETE_NOTE partIndex noteIndex =>
      match nth_error (parts state) partIndex with
      | None => Next state
      | Some part =>
          let newNotes :=
            filterIndex (fun i => negb (i =? noteIndex)%nat) (notes part) in
          let newParts := setAt partIndex (withNotes part newNotes) (parts state) in
          Next (withParts state newParts)
      end
  | REORDER_NOTE partIndex fromIndex toIndex =>
      match nth_error (parts state) partIndex with
      | None => Next state
      | Some part =>
          match nth_error (notes part) fromIndex with
          | None => NotAScore
          | Some movedNote =>
              let newNotes :=
                spliceIn toIndex movedNote (spliceOut fromIndex (notes part)) in
              let newParts := setAt partIndex (withNotes part newNotes) (parts state) in
              Next (withParts state newParts)
          end
      end
  | SET_LYRIC partIndex noteIndex lyric =>
      match nth_error (parts state) partIndex with
      | None => Next state
      | Some part =>
          match nth_error (notes part) noteIndex with
          | Some (Note p o d l a) =>
              let updatedNote := applyLyric (Note p o d l a) lyric in
              let newNotes := setAt noteIndex updatedNote (notes part) in
              let newParts := setAt partIndex (withNotes part newNotes) (parts state) in
              Next (withParts state newParts)
          | _ => Next state
          end
      end
  end.

(** ** Vocabulary of the reducer's properties *)

(** The entry at [parts[pi].notes[ni]], if there is one. *)
Definition entryAt (state : Score) (pi ni : nat) : option NoteOrRest :=
  match nth_error (parts state) pi with
  | Some part => nth_error (notes part) ni
  | None => None
  end.

(** What the note actions never touch. *)
Definition frame (state : Score)
    : string * option Q * RenderingMode * TimeSignature * Clef * list (option string) :=
  (title state, tempo state, renderingMode state, timeSignature state,
   clef state, map name (parts state)).

(** The actions on notes and rests. *)
Definition onNotes (action : ScoreAction) : bool :=
  match action with
  | ADD_NOTE _ _ _ _ | ADD_REST _ | EDIT_NOTE _ _ _ | DELETE_NOTE _ _
  | REORDER_NOTE _ _ _ | SET_LYRIC _ _ _ => true
  | _ => false
  end.

(** A melody of four entries in a part named "Voice", after an empty
    first part. *)
Definition twoParts : Score :=
  {| title := "Two"; tempo := Some 96; renderingMode := staff;
     timeSignature := {| beats := 3; beatValue := 4 |};
     clef := bass;
     parts := [ {| name := None; notes := [] |};
                {| name := Some "Voice";
                   notes := [ Note C middle quarter (Some "la") None;
                              Rest eighth;
                              Note D lower half None (Some true);
                              Note E upper whole None None ] |} ] |}.

End ScoreReducer.

(** * The layout engines in the arithmetic of the code

    The modules [StaffLayout] and [CirclesLayout] above compute with
    exact rationals, which is what the geometry of a layout is stated
    in.  Where a layout decides by a comparison - a bar line when the
    beat counter reaches the threshold, a new system or row when the
    next position passes the right limit - the outcome depends on how
    the sums and products are rounded.  The modules below therefore
    compute as the code does: every number is an IEEE 754 binary64
    value, [+], [-], [*] and [/] round to nearest (ties to even), a
    decimal literal denotes the nearest binary64 value, and the
    comparisons are those of the standard (false on not-a-number, with
    infinities and the two zeros as the standard has them). *)

From Stdlib Require PrimFloat.

Set Warnings "-inexact-float,-abstract-large-number".

(** ** Numbers and scores *)

Module Binary64.
Import PrimFloat.

Open Scope float_scope.

(** A JavaScript number. *)
Definition number : Set := float.

(** [a > b] and [a >= b]. *)
Definition gtb (a b : number) : bool := b <? a.
Definition geb (a b : number) : bool := b <=? a.

(** One field of the object spread [{ ...DEFAULT_CONFIG, ...config }]. *)
Definition spread (dflt : number) (o : option number) : number :=
  match o with
  | Some v => v
  | None => dflt
  end.

(** [TimeSignature] and [Score] of models/types.ts; notes, rests and
    parts hold no numbers and are those of [Types]. *)
Record TimeSignature := mkTimeSignature {
  beats : number;
  beatValue : number
}.

Record Score := mkScore {
  title : string;
  tempo : option number;
  renderingMode : RenderingMode;
  timeSignature : TimeSignature;
  clef : Clef;
  parts : list Part
}.

(** The two nested [forEach] loops that fill [allNotes]. *)
Definition allNotes (score : Score) : list Tagged :=
  concat (mapi (fun partIndex part =>
                  mapi (fun noteIndex note => mkTagged note partIndex noteIndex)
                       (Types.notes part))
               (parts score)).

(** The durations of the notes and rests of a score, part after part,
    read from the score itself. *)
Definition durations (score : Score) : list Duration :=
  flat_map (fun part => map Types.duration (Types.notes part)) (parts score).

(** The index pairs of the notes and rests of a score, read from the
    score itself: the parts in order, the notes of each part in
    order. *)
Definition scoreTags (score : Score) : list (nat * nat) :=
  concat (mapi (fun partIndex part =>
                  map (pair partIndex) (seq 0 (length (Types.notes part))))
               (parts score)).

(** Consecutive elements of a list are related by [R]. *)
Fixpoint chain (R : number -> number -> bool) (ys : list number) : Prop :=
  match ys with
  | [] => True
  | a :: tl =>
      match tl with
      | [] => True
      | b :: _ => R a b = true /\ chain R tl
      end
  end.

Fixpoint chainb (R : number -> number -> bool) (ys : list number) : bool :=
  match ys with
  | [] => true
  | a :: tl =>
      match tl with
      | [] => true
      | b :: _ => R a b && chainb R tl
      end
  end.

(** Strictly increasing numbers. *)
Definition increasing (ys : list number) : Prop := chain (fun a b => a <? b) ys.

(** Rows of height [h] that start at [ys]: each one ends at or above
    the start of the next. *)
Definition clear (h : number) (ys : list number) : Prop :=
  chain (fun a b => a + h <=? b) ys.

(** A one-part score of the given notes, all else fixed. *)
Definition scoreOf (ts : TimeSignature) (ns : list NoteOrRest) : Score :=
  {| title := "example"; tempo := None; renderingMode := staff;
     timeSignature := ts; clef := treble;
     parts := [ {| name := None; Types.notes := ns |} ] |}.

End Binary64.

(** ** renderers/staffLayout.ts *)

Module StaffLayout64.
Import PrimFloat Binary64.

Open Scope float_scope.

Record LayoutConfig := mkLayoutConfig {
  canvasWidth : number;
  staffLineSpacing : number;
  noteSpacing : number;
  marginLeft : number;
  marginTop : number;
  staffHeight : number;
  systemSpacing : number
}.

(** [Partial<LayoutConfig>]: every field may be absent. *)
Record PartialLayoutConfig := mkPartialLayoutConfig {
  p_canvasWidth : option number;
  p_staffLineSpacing : option number;
  p_noteSpacing : option number;
  p_marginLeft : option number;
  p_marginTop : option number;
  p_staffHeight : option number;
  p_systemSpacing : option number
}.

Record NoteLayout := mkNoteLayout {
  x : number;
  y : Z;
  noteIndex : nat;
  partIndex : nat;
  isRest : bool;
  octave : option Octave
}.

Record StaffSystem := mkStaffSystem {
  startX : number;
  startY : number;
  notes : list NoteLayout;
  barLines : list number
}.

Record StaffLayout := mkStaffLayout {
  systems : list StaffSystem;
  config : LayoutConfig
}.

Definition DEFAULT_CONFIG : LayoutConfig :=
  {| canvasWidth := 800;
     staffLineSpacing := 10;
     noteSpacing := 30;
     marginLeft := 60;
     marginTop := 40;
     staffHeight := 40;
     systemSpacing := 80 |}.

Definition DURATION_TO_BEATS (d : Duration) : number :=
  match d with
  | whole => 4
  | half => 2
  | quarter => 1
  | eighth => 0.5
  | sixteenth => 0.25
  end.

(** [{ ...DEFAULT_CONFIG, ...config }] *)
Definition fullConfig (config : option PartialLayoutConfig) : LayoutConfig :=
  match config with
  | None => DEFAULT_CONFIG
  | Some c =>
      {| canvasWidth := spread (canvasWidth DEFAULT_CONFIG) (p_canvasWidth c);
         staffLineSpacing := spread (staffLineSpacing DEFAULT_CONFIG) (p_staffLineSpacing c);
         noteSpacing := spread (noteSpacing DEFAULT_CONFIG) (p_noteSpacing c);
         marginLeft := spread (marginLeft DEFAULT_CONFIG) (p_marginLeft c);
         marginTop := spread (marginTop DEFAULT_CONFIG) (p_marginTop c);
         staffHeight := spread (staffHeight DEFAULT_CONFIG) (p_staffHeight c);
         systemSpacing := spread (systemSpacing DEFAULT_CONFIG) (p_systemSpacing c) |}
  end.

(** [score.timeSignature.beats * (4 / score.timeSignature.beatValue)] *)
Definition beatsPerMeasure (score : Score) : number :=
  beats (timeSignature score) * (4 / beatValue (timeSignature score)).

(** The variables the [forEach] callback of [computeLayout] mutates. *)
Record LoopState := mkLoopState {
  st_systems : list StaffSystem;
  currentSystem : StaffSystem;
  currentX : number;
  currentBeats : number
}.

Definition pushNote (s : StaffSystem) (n : NoteLayout) : StaffSystem :=
  {| startX := startX s; startY := startY s;
     notes := notes s ++ [n]; barLines := barLines s |}.

Definition pushBarLine (s : StaffSystem) (b : number) : StaffSystem :=
  {| startX := startX s; startY := startY s;
     notes := notes s; barLines := barLines s ++ [b] |}.

Definition noteY (score : Score) (note : NoteOrRest) : Z :=
  match note with
  | Rest _ => 4%Z
  | Note pitch octave _ _ _ =>
      StaffLayout.pitchToStaffPosition pitch octave (clef score)
  end.

(** The object pushed onto [currentSystem.notes] for an entry of
    [allNotes] when [currentX] is [x]. *)
Definition noteEntry (score : Score) (t : Tagged) (x : number) : NoteLayout :=
  let note := t_note t in
  {| x := x;
     y := noteY score note;
     noteIndex := t_noteIndex t;
     partIndex := t_partIndex t;
     isRest := noteIsRest note;
     octave := noteOctave note |}.

(** One call of the [forEach] callback. *)
Definition layoutStep (score : Score) (cfg : LayoutConfig)
    (st : LoopState) (t : Tagged) : LoopState :=
  let note := t_note t in
  let sys1 := pushNote (currentSystem st) (noteEntry score t (currentX st)) in
  let noteBeats := DURATION_TO_BEATS (Types.duration note) in
  let beats1 := currentBeats st + noteBeats in
  let x1 := currentX st + noteSpacing cfg in
  let complete := geb beats1 (beatsPerMeasure score) in
  let sys2 :=
    if complete then pushBarLine sys1 (x1 - noteSpacing cfg / 2) else sys1 in
  let beats2 := if complete then 0 else beats1 in
  if gtb x1 (canvasWidth cfg - marginLeft cfg) then
    let nextY := startY sys2 + staffHeight cfg + systemSpacing cfg in
    {| st_systems := st_systems st ++ [sys2];
       currentSystem :=
         {| startX := marginLeft cfg; startY := nextY;
            notes := []; barLines := [] |};
       currentX := marginLeft cfg;
       currentBeats := beats2 |}
  else
    {| st_systems := st_systems st;
       currentSystem := sys2;
       currentX := x1;
       currentBeats := beats2 |}.

Definition initialState (cfg : LayoutConfig) : LoopState :=
  {| st_systems := [];
     currentSystem :=
       {| startX := marginLeft cfg; startY := marginTop cfg;
          notes := []; barLines := [] |};
     currentX := marginLeft cfg;
     currentBeats := 0 |}.

(** The two pushes after the loop. *)
Definition finish (st : LoopState) : list StaffSystem :=
  let systems1 :=
    if (0 <? length (notes (currentSystem st)))%nat
    then st_systems st ++ [currentSystem st]
    else st_systems st in
  if (length systems1 =? 0)%nat
  then systems1 ++ [currentSystem st]
  else systems1.

Definition computeLayoutWith (score : Score) (cfg : LayoutConfig) : StaffLayout :=
  {| systems := finish (fold_left (layoutStep score cfg) (allNotes score)
                                  (initialState cfg));
     config := cfg |}.

Definition computeLayout (score : Score) (config : option PartialLayoutConfig)
    : StaffLayout :=
  computeLayoutWith score (fullConfig config).

(** ** Vocabulary of the layout properties *)

(** Every note object pushed so far, in the order of the pushes. *)
Definition laidOut (st : LoopState) : list NoteLayout :=
  flat_map notes (st_systems st) ++ notes (currentSystem st).

(** Every bar line pushed so far. *)
Definition drawnBars (st : LoopState) : list number :=
  flat_map barLines (st_systems st) ++ barLines (currentSystem st).

(** The notes of all systems of a layout, system after system. *)
Definition allLayouts (l : StaffLayout) : list NoteLayout :=
  flat_map notes (systems l).

Definition totalBarLines (l : StaffLayout) : nat :=
  length (flat_map barLines (systems l)).

(** The beat counting rule in the words of the specification: add the
    beats of each note to a running counter; when the counter reaches
    or exceeds the threshold, count one bar line and start again from
    zero.  The result is the number of bar lines. *)
Fixpoint measuresCompleted (threshold counter : number) (beatsOf : list number)
    : nat :=
  match beatsOf with
  | [] => 0%nat
  | b :: rest =>
      if geb (counter + b) threshold
      then S (measuresCompleted threshold 0 rest)
      else measuresCompleted threshold (counter + b) rest
  end.

(** The rows a layout stacks below [y0]: each row starts at the start
    of the one before it [+ staffHeight + systemSpacing]. *)
Fixpoint rowsFrom (cfg : LayoutConfig) (y0 : number) (ys : list number) : Prop :=
  match ys with
  | [] => True
  | y :: ys' =>
      y = y0 /\ rowsFrom cfg (y0 + staffHeight cfg + systemSpacing cfg) ys'
  end.

(** Where the row number [n] below [y0] starts. *)
Fixpoint nthRow (cfg : LayoutConfig) (y0 : number) (n : nat) : number :=
  match n with
  | O => y0
  | S k => nthRow cfg (y0 + staffHeight cfg + systemSpacing cfg) k
  end.

(** The starts of [n] rows of height [h], [s] apart, stacked below
    [y0]. *)
Fixpoint rowStarts (h s y0 : number) (n : nat) : list number :=
  match n with
  | O => []
  | S k => y0 :: rowStarts h s (y0 + h + s) k
  end.

(** Loop invariant: the closed systems are stacked from [marginTop]
    and the current system is the next row. *)
Definition stacked (cfg : LayoutConfig) (st : LoopState) : Prop :=
  rowsFrom cfg (marginTop cfg) (map startY (st_systems st))
  /\ startY (currentSystem st)
     = nthRow cfg (marginTop cfg) (length (st_systems st)).

(** Loop invariant: a system without notes has no bar lines, and no
    closed system is without notes. *)
Definition tidy (st : LoopState) : Prop :=
  (notes (currentSystem st) = [] -> barLines (currentSystem st) = [])
  /\ Forall (fun s => notes s <> []) (st_systems st).

Definition layoutTag (n : NoteLayout) : nat * nat := (partIndex n, noteIndex n).

(** How often the note [(partIndex, noteIndex)] occurs in a list of
    note layouts. *)
Definition occurrences (pi ni : nat) (l : list NoteLayout) : nat :=
  occursIn pi ni (map layoutTag l).

(** The systems of a layout that hold the note [(partIndex, noteIndex)]. *)
Definition holders (pi ni : nat) (l : StaffLayout) : list StaffSystem :=
  filter (fun s => (0 <? occurrences pi ni (notes s))%nat) (systems l).

(** The largest number of systems for which the rows of the default
    vertical metrics are checked. *)
Definition checkedSystems : nat := 100000.

Definition fourQuarters : Score :=
  scoreOf {| beats := 4; beatValue := 4 |}
          (map (fun p => Note p middle quarter None None) [C; D; E; F]).

Definition sixQuarters : Score :=
  scoreOf {| beats := 3; beatValue := 4 |}
          (map (fun p => Note p middle quarter None None) [C; D; E; F; G; A]).

Definition twelveEighths : Score :=
  scoreOf {| beats := 6; beatValue := 8 |}
          (map (fun p => Note p middle eighth None None) [C; D; E; F; G; A; H]
           ++ map (fun p => Note p upper eighth None None) [C; D; E; F; G]).

(** Three whole notes in a measure of 273 ninety-firsts: twelve
    quarter beats in exact arithmetic, a little more in the code's. *)
Definition threeWholes : Score :=
  scoreOf {| beats := 273; beatValue := 91 |}
          (repeat (Note C middle whole None None) 3).

(** Thirty quarter notes: more than one system of the default width. *)
Definition thirtyQuarters : Score :=
  scoreOf {| beats := 4; beatValue := 4 |}
          (repeat (Note C middle quarter None None) 30).

(** Two quarter notes, for a canvas too narrow for more than one note
    per system. *)
Definition flatScore : Score :=
  scoreOf {| beats := 4; beatValue := 4 |}
          [ Note C middle quarter None None; Note D middle quarter None None ].

(** A canvas of width 100 with the given [staffHeight] and
    [systemSpacing]. *)
Definition narrowWith (h s : number) : PartialLayoutConfig :=
  {| p_canvasWidth := Some 100;
     p_staffLineSpacing := None;
     p_noteSpacing := None;
     p_marginLeft := None;
     p_marginTop := None;
     p_staffHeight := Some h;
     p_systemSpacing := Some s |}.

End StaffLayout64.

(** ** renderers/circlesLayout.ts *)

Module CirclesLayout64.
Import PrimFloat Binary64.

Open Scope float_scope.

Record CirclesLayoutConfig := mkCirclesLayoutConfig {
  canvasWidth : number;
  circleSize : number;
  circleSpacing : number;
  marginLeft : number;
  marginTop : number;
  rowSpacing : number;
  lyricOffset : number
}.

Record PartialCirclesLayoutConfig := mkPartialCirclesLayoutConfig {
  p_canvasWidth : option number;
  p_circleSize : option number;
  p_circleSpacing : option number;
  p_marginLeft : option number;
  p_marginTop : option number;
  p_rowSpacing : option number;
  p_lyricOffset : option number
}.

(** The element type of [subCircles], [{ cx; cy; radius }]. *)
Record SubCircle := mkSubCircle {
  sub_cx : number;
  sub_cy : number;
  sub_radius : number
}.

Record CircleLayout := mkCircleLayout {
  cx : number;
  cy : number;
  radius : number;
  partIndex : nat;
  noteIndex : nat;
  isRest : bool;
  octave : option Octave;
  subCircles : option (list SubCircle);
  lyric : option string
}.

Record CircleRow := mkCircleRow {
  startY : number;
  circles : list CircleLayout
}.

Record CirclesLayout := mkCirclesLayout {
  rows : list CircleRow;
  config : CirclesLayoutConfig;
  totalHeight : number
}.

Definition DEFAULT_CONFIG : CirclesLayoutConfig :=
  {| canvasWidth := 800;
     circleSize := 40;
     circleSpacing := 50;
     marginLeft := 20;
     marginTop := 30;
     rowSpacing := 80;
     lyricOffset := 25 |}.

(** [{ ...DEFAULT_CONFIG, ...config }] *)
Definition fullConfig (config : option PartialCirclesLayoutConfig)
    : CirclesLayoutConfig :=
  match config with
  | None => DEFAULT_CONFIG
  | Some c =>
      {| canvasWidth := spread (canvasWidth DEFAULT_CONFIG) (p_canvasWidth c);
         circleSize := spread (circleSize DEFAULT_CONFIG) (p_circleSize c);
         circleSpacing := spread (circleSpacing DEFAULT_CONFIG) (p_circleSpacing c);
         marginLeft := spread (marginLeft DEFAULT_CONFIG) (p_marginLeft c);
         marginTop := spread (marginTop DEFAULT_CONFIG) (p_marginTop c);
         rowSpacing := spread (rowSpacing DEFAULT_CONFIG) (p_rowSpacing c);
         lyricOffset := spread (lyricOffset DEFAULT_CONFIG) (p_lyricOffset c) |}
  end.

Definition durationToPositions (duration : Duration) : number :=
  match duration with
  | whole => 4
  | half => 2
  | quarter => 1
  | eighth => 1
  | sixteenth => 1
  end.

(** [computeNoteCircle]; the fields [duration], [octave] and [lyric]
    it reads from the note are its first three arguments. *)
Definition computeNoteCircle (duration : Duration) (octave : Octave)
    (lyric : option string) (startX rowY baseRadius : number)
    (config : CirclesLayoutConfig) (partIndex noteIndex : nat) : CircleLayout :=
  match duration with
  | whole =>
      let centerX := startX + (4 - 1) * circleSpacing config / 2 in
      {| cx := centerX; cy := rowY; radius := baseRadius * 1.8;
         partIndex := partIndex; noteIndex := noteIndex; isRest := false;
         octave := Some octave; subCircles := None; lyric := lyric |}
  | half =>
      let centerX := startX + (2 - 1) * circleSpacing config / 2 in
      {| cx := centerX; cy := rowY; radius := baseRadius * 1.4;
         partIndex := partIndex; noteIndex := noteIndex; isRest := false;
         octave := Some octave; subCircles := None; lyric := lyric |}
  | quarter =>
      {| cx := startX; cy := rowY; radius := baseRadius;
         partIndex := partIndex; noteIndex := noteIndex; isRest := false;
         octave := Some octave; subCircles := None; lyric := lyric |}
  | eighth =>
      let smallRadius := baseRadius * 0.6 in
      let gap := smallRadius * 2.2 in
      {| cx := startX; cy := rowY; radius := smallRadius;
         partIndex := partIndex; noteIndex := noteIndex; isRest := false;
         octave := Some octave;
         subCircles := Some
           [ {| sub_cx := startX - gap / 2; sub_cy := rowY; sub_radius := smallRadius |};
             {| sub_cx := startX + gap / 2; sub_cy := rowY; sub_radius := smallRadius |} ];
         lyric := lyric |}
  | sixteenth =>
      let tinyRadius := baseRadius * 0.4 in
      let gap := tinyRadius * 2.4 in
      {| cx := startX; cy := rowY; radius := tinyRadius;
         partIndex := partIndex; noteIndex := noteIndex; isRest := false;
         octave := Some octave;
         subCircles := Some
           [ {| sub_cx := startX - gap / 2; sub_cy := rowY - gap / 2; sub_radius := tinyRadius |};
             {| sub_cx := startX + gap / 2; sub_cy := rowY - gap / 2; sub_radius := tinyRadius |};
             {| sub_cx := startX - gap / 2; sub_cy := rowY + gap / 2; sub_radius := tinyRadius |};
             {| sub_cx := startX + gap / 2; sub_cy := rowY + gap / 2; sub_radius := tinyRadius |} ];
         lyric := lyric |}
  end.

(** The variables the [for ... of] loop of [computeCirclesLayout]
    mutates. *)
Record LoopState := mkLoopState {
  st_rows : list CircleRow;
  currentRow : list CircleLayout;
  currentX : number;
  currentRowY : number
}.

Definition baseRadiusOf (cfg : CirclesLayoutConfig) : number := circleSize cfg / 2.

Definition maxX (cfg : CirclesLayoutConfig) : number :=
  canvasWidth cfg - marginLeft cfg - baseRadiusOf cfg.

(** The wrap test at the head of the loop body. *)
Definition wrapRow (cfg : CirclesLayoutConfig) (totalWidth : number)
    (st : LoopState) : LoopState :=
  if gtb (currentX st + totalWidth - circleSpacing cfg / 2) (maxX cfg)
     && (0 <? length (currentRow st))%nat
  then
    {| st_rows := st_rows st
                  ++ [ {| startY := currentRowY st; circles := currentRow st |} ];
       currentRow := [];
       currentX := marginLeft cfg + baseRadiusOf cfg;
       currentRowY := currentRowY st + rowSpacing cfg |}
  else st.

(** The object pushed onto [currentRow] for an entry of [allNotes]
    when [currentX] is [x] and [currentRowY] is [rowY]: the placeholder
    of a rest, or the result of [computeNoteCircle]. *)
Definition noteEntry (cfg : CirclesLayoutConfig) (t : Tagged) (x rowY : number)
    : CircleLayout :=
  let totalWidth := durationToPositions (Types.duration (t_note t))
                    * circleSpacing cfg in
  match t_note t with
  | Rest _ =>
      {| cx := x + (totalWidth - circleSpacing cfg) / 2;
         cy := rowY;
         radius := 0;
         partIndex := t_partIndex t;
         noteIndex := t_noteIndex t;
         isRest := true;
         octave := None; subCircles := None; lyric := None |}
  | Note _ octave duration lyric _ =>
      computeNoteCircle duration octave lyric x rowY
        (baseRadiusOf cfg) cfg (t_partIndex t) (t_noteIndex t)
  end.

(** One iteration of the loop. *)
Definition layoutStep (cfg : CirclesLayoutConfig) (st : LoopState) (t : Tagged)
    : LoopState :=
  let positions := durationToPositions (Types.duration (t_note t)) in
  let totalWidth := positions * circleSpacing cfg in
  let st1 := wrapRow cfg totalWidth st in
  {| st_rows := st_rows st1;
     currentRow := currentRow st1 ++ [noteEntry cfg t (currentX st1) (currentRowY st1)];
     currentX := currentX st1 + totalWidth;
     currentRowY := currentRowY st1 |}.

Definition initialState (cfg : CirclesLayoutConfig) : LoopState :=
  {| st_rows := [];
     currentRow := [];
     currentX := marginLeft cfg + baseRadiusOf cfg;
     currentRowY := marginTop cfg + baseRadiusOf cfg |}.

(** The two pushes after the loop. *)
Definition finish (st : LoopState) : list CircleRow :=
  let rows1 :=
    if (0 <? length (currentRow st))%nat
    then st_rows st ++ [ {| startY := currentRowY st; circles := currentRow st |} ]
    else st_rows st in
  if (length rows1 =? 0)%nat
  then rows1 ++ [ {| startY := currentRowY st; circles := [] |} ]
  else rows1.

Definition computeCirclesLayoutWith (score : Score) (cfg : CirclesLayoutConfig)
    : CirclesLayout :=
  let st := fold_left (layoutStep cfg) (allNotes score) (initialState cfg) in
  let rows := finish st in
  (* [rows] is never empty here; the default of [last] is not reached *)
  let lastRow := last rows {| startY := currentRowY st; circles := [] |} in
  {| rows := rows;
     config := cfg;
     totalHeight := startY lastRow + baseRadiusOf cfg + lyricOffset cfg + 20 |}.

Definition computeCirclesLayout (score : Score)
    (config : option PartialCirclesLayoutConfig) : CirclesLayout :=
  computeCirclesLayoutWith score (fullConfig config).

(** ** Vocabulary of the layout properties *)

(** Every circle entry pushed so far, in the order of the pushes. *)
Definition laidOut (st : LoopState) : list CircleLayout :=
  flat_map circles (st_rows st) ++ currentRow st.

(** The circle entries of all rows of a layout, row after row. *)
Definition allCircles (l : CirclesLayout) : list CircleLayout :=
  flat_map circles (rows l).

Definition circleTag (c : CircleLayout) : nat * nat := (partIndex c, noteIndex c).

(** The entries of a layout that carry the indices [(pi, ni)]. *)
Definition entriesOf (pi ni : nat) (l : CirclesLayout) : list CircleLayout :=
  filter (fun c => (partIndex c =? pi)%nat && (noteIndex c =? ni)%nat)
         (allCircles l).

(** The sizing rule of the specification for base radius [r]: what
    the entry [c] of a note of duration [d] looks like. *)
Definition sized (r : number) (d : Duration) (c : CircleLayout) : Prop :=
  match d with
  | whole => radius c = r * 1.8 /\ subCircles c = None
  | half => radius c = r * 1.4 /\ subCircles c = None
  | quarter => radius c = r /\ subCircles c = None
  | eighth =>
      let gap := r * 0.6 * 2.2 in
      subCircles c
      = Some [ mkSubCircle (cx c - gap / 2) (cy c) (r * 0.6);
               mkSubCircle (cx c + gap / 2) (cy c) (r * 0.6) ]
  | sixteenth =>
      let gap := r * 0.4 * 2.4 in
      subCircles c
      = Some [ mkSubCircle (cx c - gap / 2) (cy c - gap / 2) (r * 0.4);
               mkSubCircle (cx c + gap / 2) (cy c - gap / 2) (r * 0.4);
               mkSubCircle (cx c - gap / 2) (cy c + gap / 2) (r * 0.4);
               mkSubCircle (cx c + gap / 2) (cy c + gap / 2) (r * 0.4) ]
  end.

(** ** The rows of a layout *)

(** The y of the row number [k]: the first row's y and [k] times
    [+ rowSpacing]. *)
Fixpoint rowYAfter (cfg : CirclesLayoutConfig) (k : nat) : number :=
  match k with
  | O => marginTop cfg + baseRadiusOf cfg
  | S j => rowYAfter cfg j + rowSpacing cfg
  end.

(** Where every row starts. *)
Definition rowStart (cfg : CirclesLayoutConfig) : number :=
  marginLeft cfg + baseRadiusOf cfg.

(** The horizontal footprint of a note or rest. *)
Definition totalWidth (cfg : CirclesLayoutConfig) (t : Tagged) : number :=
  durationToPositions (Types.duration (t_note t)) * circleSpacing cfg.

(** The entries of notes put one after the other on the row at [y],
    the first one in the slot that starts at [x]. *)
Fixpoint placeRow (cfg : CirclesLayoutConfig) (y x : number) (ts : list Tagged)
    : list CircleLayout :=
  match ts with
  | [] => []
  | t :: ts' => noteEntry cfg t x y :: placeRow cfg y (x + totalWidth cfg t) ts'
  end.

(** Where the slot after these notes starts. *)
Fixpoint endOf (cfg : CirclesLayoutConfig) (x : number) (ts : list Tagged)
    : number :=
  match ts with
  | [] => x
  | t :: ts' => endOf cfg (x + totalWidth cfg t) ts'
  end.

(** The row number [k] holding the notes [ts]. *)
Definition rowOf (cfg : CirclesLayoutConfig) (k : nat) (ts : list Tagged)
    : CircleRow :=
  {| startY := rowYAfter cfg k;
     circles := placeRow cfg (rowYAfter cfg k) (rowStart cfg) ts |}.

Definition rowsOf (cfg : CirclesLayoutConfig) (tss : list (list Tagged))
    : list CircleRow :=
  mapi (rowOf cfg) tss.

(** The wrap test for the note [t] on a row that holds [ts]. *)
Definition overflows (cfg : CirclesLayoutConfig) (ts : list Tagged) (t : Tagged)
    : bool :=
  gtb (endOf cfg (rowStart cfg) ts + totalWidth cfg t - circleSpacing cfg / 2)
      (maxX cfg).

(** Every note of [ts] passed the wrap test on the row that held [pre]
    and the notes of [ts] before it. *)
Fixpoint fitsAfter (cfg : CirclesLayoutConfig) (pre ts : list Tagged) : Prop :=
  match ts with
  | [] => True
  | t :: ts' => overflows cfg pre t = false /\ fitsAfter cfg (pre ++ [t]) ts'
  end.

(** A row in which every note but the first passed the wrap test. *)
Definition rowFits (cfg : CirclesLayoutConfig) (ts : list Tagged) : Prop :=
  match ts with
  | [] => True
  | t :: ts' => fitsAfter cfg [t] ts'
  end.

(** Each row was closed by a note that failed the wrap test on it:
    the first note of the row after it. *)
Fixpoint closedByNext (cfg : CirclesLayoutConfig) (tss : list (list Tagged))
    : Prop :=
  match tss with
  | [] => True
  | ts :: rest =>
      match rest with
      | [] => True
      | next :: _ =>
          match next with
          | [] => False
          | t :: _ => overflows cfg ts t = true
          end
      end
      /\ closedByNext cfg rest
  end.

(** Loop invariant: the state after the notes [done]. *)
Definition breaking (cfg : CirclesLayoutConfig) (done : list Tagged)
    (st : LoopState) : Prop :=
  exists tss cur,
    done = concat tss ++ cur
    /\ st_rows st = rowsOf cfg tss
    /\ currentRow st = placeRow cfg (rowYAfter cfg (length tss)) (rowStart cfg) cur
    /\ currentX st = endOf cfg (rowStart cfg) cur
    /\ currentRowY st = rowYAfter cfg (length tss)
    /\ Forall (fun ts => ts <> [] /\ rowFits cfg ts) tss
    /\ rowFits cfg cur
    /\ (tss <> [] -> cur <> [])
    /\ closedByNext cfg (tss ++ [cur]).

(** One eighth note. *)
Definition oneEighth : Score :=
  scoreOf {| beats := 4; beatValue := 4 |} [ Note F middle eighth None None ].

(** Sixty quarter notes, and the default canvas with circles 19.2
    apart: the sum of thirty-seven spacings passes the right limit by
    its rounding. *)
Definition sixtyQuarters : Score :=
  scoreOf {| beats := 4; beatValue := 4 |}
          (repeat (Note C middle quarter None None) 60).

Definition spaced (s : number) : PartialCirclesLayoutConfig :=
  {| p_canvasWidth := None;
     p_circleSize := None;
     p_circleSpacing := Some s;
     p_marginLeft := None;
     p_marginTop := None;
     p_rowSpacing := None;
     p_lyricOffset := None |}.

End CirclesLayout64.

(** * Properties of the flattened note sequence *)

Module FlattenFacts.

Lemma flat_map_snoc {X Y : Type} (f : X -> list Y) (l : list X) (a : X) :
  flat_map f (l ++ [a]) = flat_map f l ++ f a.
Proof.
  rewrite flat_map_app. simpl. now rewrite app_nil_r.
Qed.

Lemma snoc_not_nil {X : Type} (l : list X) (a : X) : l ++ [a] <> [].
Proof. intros Habs. now apply app_eq_nil in Habs. Qed.

Lemma mapi_from_In {X Y : Type} (f : nat -> X -> Y) (l : list X) :
  forall i k x, nth_error l k = Some x -> In (f (i + k)%nat x) (mapi_from i f l).
Proof.
  induction l as [| a l IH]; intros i k x Hk.
  - destruct k; discriminate.
  - destruct k as [| k]; simpl in *.
    + injection Hk as ->. left. f_equal. lia.
    + right. replace (i + S k)%nat with (S i + k)%nat by lia. now apply IH.
Qed.

Lemma notes_tags (pi : nat) (l : list NoteOrRest) :
  forall j,
    map tag (mapi_from j (fun ni note => mkTagged note pi ni) l)
    = map (pair pi) (seq j (length l)).
Proof.
  induction l as [| a l IH]; intros j; simpl; [reflexivity |].
  now rewrite IH.
Qed.

Lemma notes_tags_NoDup (pi j : nat) (l : list NoteOrRest) :
  NoDup (map tag (mapi_from j (fun ni note => mkTagged note pi ni) l)).
Proof.
  rewrite notes_tags. apply NoDup_map_NoDup_ForallPairs; [| apply seq_NoDup].
  intros a b _ _ Hab. now injection Hab.
Qed.

Lemma parts_tags (ps : list Part) :
  forall i,
    NoDup (map tag (concat (mapi_from i (fun partIndex part =>
             mapi (fun noteIndex note => mkTagged note partIndex noteIndex)
                  (Types.notes part)) ps)))
    /\ (forall p, In p (map tag (concat (mapi_from i (fun partIndex part =>
             mapi (fun noteIndex note => mkTagged note partIndex noteIndex)
                  (Types.notes part)) ps))) -> (i <= fst p)%nat).
Proof.
  induction ps as [| a ps IH]; intros i; simpl.
  - split; [constructor | intros p []].
  - destruct (IH (S i)) as [Hnd Hge]. rewrite map_app. split.
    + apply NoDup_app; [apply notes_tags_NoDup | exact Hnd |].
      intros p Hp Hq. apply Hge in Hq.
      unfold mapi in Hp. rewrite notes_tags in Hp.
      apply in_map_iff in Hp. destruct Hp as [n [<- _]]. simpl in Hq. lia.
    + intros p Hp. apply in_app_or in Hp. destruct Hp as [Hp | Hp].
      * unfold mapi in Hp. rewrite notes_tags in Hp.
        apply in_map_iff in Hp. destruct Hp as [n [<- _]]. simpl. lia.
      * apply Hge in Hp. lia.
Qed.

(** No two entries of [allNotes] have the same pair of indices. *)
Lemma allNotes_tags_NoDup (score : Score) : NoDup (map tag (allNotes score)).
Proof. exact (proj1 (parts_tags (parts score) 0)). Qed.

(** The note at index [ni] of the part at index [pi] is an entry of
    [allNotes], tagged with these indices. *)
Lemma allNotes_In (score : Score) (pi ni : nat) (part : Part) (note : NoteOrRest) :
  nth_error (parts score) pi = Some part ->
  nth_error (Types.notes part) ni = Some note ->
  In (mkTagged note pi ni) (allNotes score).
Proof.
  intros Hp Hn. unfold allNotes. apply in_concat.
  exists (mapi (fun noteIndex n => mkTagged n pi noteIndex) (Types.notes part)).
  split.
  - exact (mapi_from_In
             (fun partIndex part0 =>
                mapi (fun noteIndex n => mkTagged n partIndex noteIndex)
                     (Types.notes part0)) (parts score) 0 pi Hp).
  - exact (mapi_from_In (fun noteIndex n => mkTagged n pi noteIndex)
             (Types.notes part) 0 ni Hn).
Qed.

Lemma mapi_from_nil {X Y : Type} (f : nat -> X -> Y) (l : list X) (i : nat) :
  mapi_from i f l = [] <-> l = [].
Proof. destruct l; simpl; split; intros H; discriminate || reflexivity. Qed.

Lemma parts_nil (ps : list Part) :
  forall i,
    concat (mapi_from i (fun partIndex part =>
              mapi (fun noteIndex note => mkTagged note partIndex noteIndex)
                   (Types.notes part)) ps) = []
    <-> Forall (fun part => Types.notes part = []) ps.
Proof.
  induction ps as [| a ps IH]; intros i; simpl.
  - split; [constructor | reflexivity].
  - split.
    + intros H. apply app_eq_nil in H. destruct H as [Ha Hps].
      constructor; [now apply mapi_from_nil in Ha | now apply (IH (S i))].
    + intros H. inversion H as [| ? ? Ha Hps]; subst.
      rewrite Ha. simpl. now apply IH.
Qed.

(** [allNotes] is empty exactly when no part has a note or rest. *)
Lemma allNotes_nil_iff (score : Score) :
  allNotes score = [] <-> Forall (fun part => Types.notes part = []) (parts score).
Proof. apply parts_nil. Qed.

Lemma allNotes_not_nil (score : Score) :
  Exists (fun part => Types.notes part <> []) (parts score) -> allNotes score <> [].
Proof.
  intros He Hnil. apply allNotes_nil_iff in Hnil.
  apply Exists_exists in He. destruct He as [part [Hin Hne]].
  rewrite Forall_forall in Hnil. exact (Hne (Hnil part Hin)).
Qed.

Lemma Forall2_map_eq {X Y1 Y2 Z : Type} (R1 : X -> Y1 -> Prop) (R2 : X -> Y2 -> Prop)
    (f1 : Y1 -> Z) (f2 : Y2 -> Z) (ts : list X) :
  (forall t a b, R1 t a -> R2 t b -> f1 a = f2 b) ->
  forall l1 l2, Forall2 R1 ts l1 -> Forall2 R2 ts l2 -> map f1 l1 = map f2 l2.
Proof.
  intros Hf. induction ts as [| t ts IH]; intros l1 l2 H1 H2;
    inversion H1; inversion H2; subst; simpl; [reflexivity |].
  f_equal; [eapply Hf; eassumption | now apply IH].
Qed.

Lemma Forall2_not_nil {X Y : Type} (R : X -> Y -> Prop) (ts : list X) (l : list Y) :
  Forall2 R ts l -> ts <> [] -> l <> [].
Proof. intros HF Hne Hl. subst l. inversion HF. now subst. Qed.

Lemma Forall_Exists_nil {X Y : Type} (f : X -> list Y) (l : list X) :
  Forall (fun a => f a <> []) l -> ~ Exists (fun a => f a = []) l.
Proof.
  intros HF HE. apply Exists_exists in HE. destruct HE as [a [Hin Ha]].
  rewrite Forall_forall in HF. exact (HF a Hin Ha).
Qed.

Lemma occursIn_none (pi ni : nat) (tags : list (nat * nat)) :
  ~ In (pi, ni) tags -> occursIn pi ni tags = 0%nat.
Proof.
  unfold occursIn. induction tags as [| [a b] tags IH]; intros Hn; simpl.
  - reflexivity.
  - destruct (Nat.eqb_spec a pi) as [-> |]; destruct (Nat.eqb_spec b ni) as [-> |];
      simpl; try (apply IH; intros Hin; apply Hn; now right).
    exfalso. apply Hn. now left.
Qed.

Lemma occursIn_once (pi ni : nat) (tags : list (nat * nat)) :
  NoDup tags -> In (pi, ni) tags -> occursIn pi ni tags = 1%nat.
Proof.
  induction 1 as [| [a b] tags Hnotin Hnd IH]; intros Hin; [destruct Hin |].
  destruct Hin as [Heq | Hin].
  - injection Heq as -> ->. unfold occursIn. simpl.
    rewrite !Nat.eqb_refl. simpl. f_equal. now apply occursIn_none.
  - unfold occursIn. simpl.
    destruct (Nat.eqb_spec a pi) as [-> |]; destruct (Nat.eqb_spec b ni) as [-> |];
      simpl; try (now apply IH).
    contradiction.
Qed.

Lemma occursIn_app (pi ni : nat) (l1 l2 : list (nat * nat)) :
  occursIn pi ni (l1 ++ l2) = (occursIn pi ni l1 + occursIn pi ni l2)%nat.
Proof. unfold occursIn. now rewrite filter_app, length_app. Qed.

End FlattenFacts.

(** * Properties of the colour mapping *)

Module ColorsFacts.
Import Colors.

(** C6. [getAccentedColors pitch] has the pitch's own colour on the
    left; on the right it has the colour of the upper neighbour for the
    five pitches that have one (C to D, D to E, F to G, G to A, A to H)
    and the pitch's own colour again for E and H.  In particular the
    pair for C is (colour of C, colour of D) and the pair for E is
    (colour of E, colour of E). *)
Theorem getAccentedColors_neighbours :
  (forall p, left (getAccentedColors p) = ULWILA_COLORS p)
  /\ right (getAccentedColors C) = ULWILA_COLORS D
  /\ right (getAccentedColors D) = ULWILA_COLORS E
  /\ right (getAccentedColors F) = ULWILA_COLORS G
  /\ right (getAccentedColors G) = ULWILA_COLORS A
  /\ right (getAccentedColors A) = ULWILA_COLORS H
  /\ getAccentedColors E = mkColorPair (ULWILA_COLORS E) (ULWILA_COLORS E)
  /\ getAccentedColors H = mkColorPair (ULWILA_COLORS H) (ULWILA_COLORS H)
  /\ getAccentedColors C = mkColorPair (ULWILA_COLORS C) (ULWILA_COLORS D).
Proof.
  repeat split; try reflexivity.
  destruct p; reflexivity.
Qed.

End ColorsFacts.

(** * Properties of the staff layout *)

Module StaffLayoutFacts.
Import StaffLayout FlattenFacts.

(** C2. [pitchToStaffPosition] is defined on every pitch, octave and
    clef and returns an integer: the clef's base offset of the pitch
    (treble: C=-2 .. H=4, bass: C=-4 .. H=2) plus 0 in the lower, 7 in
    the middle and 14 in the upper register.  Treble lower E is 0,
    treble middle C is 5, bass lower G is 0 and bass middle A is 8. *)
Theorem pitchToStaffPosition_table :
  (forall p c,
      pitchToStaffPosition p lower c
      = match c with treble => treblePitchOffsets p | bass => bassPitchOffsets p end)
  /\ (forall p c, pitchToStaffPosition p middle c = pitchToStaffPosition p lower c + 7)%Z
  /\ (forall p c, pitchToStaffPosition p upper c = pitchToStaffPosition p lower c + 14)%Z
  /\ map (fun p => pitchToStaffPosition p lower treble) [C; D; E; F; G; A; H]
     = [-2; -1; 0; 1; 2; 3; 4]%Z
  /\ map (fun p => pitchToStaffPosition p lower bass) [C; D; E; F; G; A; H]
     = [-4; -3; -2; -1; 0; 1; 2]%Z
  /\ pitchToStaffPosition E lower treble = 0%Z
  /\ pitchToStaffPosition C middle treble = 5%Z
  /\ pitchToStaffPosition G lower bass = 0%Z
  /\ pitchToStaffPosition A middle bass = 8%Z.
Proof.
  repeat split; try reflexivity;
    intros p c; destruct p, c; reflexivity.
Qed.

(** ** The loop, one step at a time *)

Section Loop.

Variable score : Score.
Variable cfg : LayoutConfig.

Let step := layoutStep score cfg.

(** A step pushes exactly one note object, at the current x. *)
Lemma step_laidOut (st : LoopState) (t : Tagged) :
  laidOut (step st t) = laidOut st ++ [noteEntry score t (currentX st)].
Proof.
  unfold step, layoutStep, laidOut.
  destruct (geExt _ _), (gtb _ _); simpl;
    rewrite ?flat_map_snoc; simpl; rewrite ?app_nil_r, ?app_assoc; reflexivity.
Qed.

Lemma fold_laidOut (ts : list Tagged) (st : LoopState) :
  exists ls,
    laidOut (fold_left step ts st) = laidOut st ++ ls
    /\ Forall2 (fun t n => n = noteEntry score t (x n)) ts ls.
Proof.
  revert st. induction ts as [| t ts IH]; intros st; simpl.
  - exists []. rewrite app_nil_r. split; [reflexivity | constructor].
  - destruct (IH (step st t)) as [ls [Hl HF]].
    exists (noteEntry score t (currentX st) :: ls). split.
    + rewrite Hl, step_laidOut, <- app_assoc. reflexivity.
    + constructor; [reflexivity | exact HF].
Qed.

Lemma step_tidy (st : LoopState) (t : Tagged) : tidy st -> tidy (step st t).
Proof.
  intros [Hb Hs]. unfold step, layoutStep, tidy.
  destruct (gtb _ _); simpl; split.
  - reflexivity.
  - apply Forall_app. split; [exact Hs |].
    constructor; [| constructor].
    destruct (geExt _ _); simpl; apply snoc_not_nil.
  - intros Habs. destruct (geExt _ _); simpl in Habs;
      now apply snoc_not_nil in Habs.
  - exact Hs.
Qed.

Lemma fold_tidy (ts : list Tagged) (st : LoopState) :
  tidy st -> tidy (fold_left step ts st).
Proof.
  revert st. induction ts as [| t ts IH]; intros st Ht; simpl; auto using step_tidy.
Qed.

Lemma initial_tidy : tidy (initialState cfg).
Proof. split; [reflexivity | constructor]. Qed.

Lemma nthRow_S (y0 : Q) (n : nat) :
  nthRow cfg y0 (S n) = nthRow cfg y0 n + staffHeight cfg + systemSpacing cfg.
Proof.
  revert y0. induction n as [| n IH]; intros y0; [reflexivity |].
  change (nthRow cfg y0 (S (S n)))
    with (nthRow cfg (y0 + staffHeight cfg + systemSpacing cfg) (S n)).
  now rewrite IH.
Qed.

Lemma rowsFrom_snoc (ys : list Q) :
  forall y0 y,
    rowsFrom cfg y0 ys -> y = nthRow cfg y0 (length ys) ->
    rowsFrom cfg y0 (ys ++ [y]).
Proof.
  induction ys as [| a ys IH]; intros y0 y Hr Hy; simpl in *.
  - split; [exact Hy | exact I].
  - destruct Hr as [Ha Hr]. split; [exact Ha |]. now apply IH.
Qed.

Lemma step_stacked (st : LoopState) (t : Tagged) :
  stacked cfg st -> stacked cfg (step st t).
Proof.
  intros [Hr Hy]. unfold step, layoutStep, stacked.
  destruct (gtb _ _); simpl.
  - split.
    + rewrite map_app. apply rowsFrom_snoc; [exact Hr |]. rewrite length_map.
      destruct (geExt _ _); simpl; exact Hy.
    + rewrite length_app, Nat.add_comm.
      change (1 + length (st_systems st))%nat with (S (length (st_systems st))).
      rewrite nthRow_S. destruct (geExt _ _); simpl; now rewrite Hy.
  - split; [exact Hr |]. destruct (geExt _ _); simpl; exact Hy.
Qed.

Lemma fold_stacked (ts : list Tagged) (st : LoopState) :
  stacked cfg st -> stacked cfg (fold_left step ts st).
Proof.
  revert st. induction ts as [| t ts IH]; intros st Hs; simpl; auto using step_stacked.
Qed.

Lemma initial_stacked : stacked cfg (initialState cfg).
Proof. split; [exact I | reflexivity]. Qed.

(** ** The systems pushed after the loop *)

Lemma finish_cases (st : LoopState) :
  (notes (currentSystem st) <> []
   /\ finish st = st_systems st ++ [currentSystem st])
  \/ (notes (currentSystem st) = [] /\ st_systems st = []
      /\ finish st = [currentSystem st])
  \/ (notes (currentSystem st) = [] /\ st_systems st <> []
      /\ finish st = st_systems st).
Proof.
  unfold finish.
  destruct (notes (currentSystem st)) as [| n ns] eqn:Hn; simpl.
  - destruct (st_systems st) as [| s ss] eqn:Hs; simpl.
    + right. left. auto.
    + right. right. repeat split; discriminate || reflexivity.
  - left. split; [discriminate |].
    rewrite length_app, Nat.add_comm. reflexivity.
Qed.

Lemma finish_notes (st : LoopState) : flat_map notes (finish st) = laidOut st.
Proof.
  unfold laidOut.
  destruct (finish_cases st) as [[_ ->] | [[Hn [Hs ->]] | [Hn [_ ->]]]].
  - apply flat_map_snoc.
  - rewrite Hs. simpl. now rewrite app_nil_r.
  - now rewrite Hn, app_nil_r.
Qed.

Lemma finish_rows (st : LoopState) :
  stacked cfg st -> rowsFrom cfg (marginTop cfg) (map startY (finish st)).
Proof.
  intros [Hr Hy].
  destruct (finish_cases st) as [[_ ->] | [[Hn [Hs ->]] | [Hn [_ ->]]]].
  - rewrite map_app. apply rowsFrom_snoc; [exact Hr |]. now rewrite length_map.
  - rewrite Hs in Hy. simpl in *. auto.
  - exact Hr.
Qed.

Lemma finish_nonempty (st : LoopState) :
  tidy st -> laidOut st <> [] -> Forall (fun s => notes s <> []) (finish st).
Proof.
  intros [_ Hs] Hl.
  destruct (finish_cases st) as [[Hn ->] | [[Hn [Hs0 ->]] | [Hn [_ ->]]]].
  - apply Forall_app. split; [exact Hs |]. constructor; [exact Hn | constructor].
  - exfalso. apply Hl. unfold laidOut. now rewrite Hs0, Hn.
  - exact Hs.
Qed.

End Loop.

(** ** The layout as a whole *)

Lemma layout_notes (score : Score) (cfg : LayoutConfig) :
  Forall2 (fun t n => n = noteEntry score t (x n))
          (allNotes score) (allLayouts (computeLayoutWith score cfg)).
Proof.
  unfold allLayouts, computeLayoutWith. simpl. rewrite finish_notes.
  destruct (fold_laidOut score cfg (allNotes score) (initialState cfg))
    as [ls [Hl HF]].
  rewrite Hl. exact HF.
Qed.

Lemma layout_rows (score : Score) (cfg : LayoutConfig) :
  rowsFrom cfg (marginTop cfg) (map startY (systems (computeLayoutWith score cfg))).
Proof.
  unfold computeLayoutWith. simpl.
  apply finish_rows, fold_stacked, initial_stacked.
Qed.

(** What changes with the configuration is only [x]. *)
Lemma layout_unplaced (score : Score) (cfg1 cfg2 : LayoutConfig) :
  map unplaced (allLayouts (computeLayoutWith score cfg1))
  = map unplaced (allLayouts (computeLayoutWith score cfg2)).
Proof.
  eapply Forall2_map_eq; [| apply layout_notes | apply layout_notes].
  intros t a b Ha Hb. cbv beta in Ha, Hb. rewrite Ha, Hb. reflexivity.
Qed.

Lemma layout_empty (score : Score) (cfg : LayoutConfig) :
  allNotes score = [] ->
  systems (computeLayoutWith score cfg)
  = [ {| startX := marginLeft cfg; startY := marginTop cfg;
         notes := []; barLines := [] |} ].
Proof.
  intros Hnil. unfold computeLayoutWith. rewrite Hnil. reflexivity.
Qed.

Lemma layout_nonempty (score : Score) (cfg : LayoutConfig) :
  allNotes score <> [] ->
  Forall (fun s => notes s <> []) (systems (computeLayoutWith score cfg)).
Proof.
  intros Hne. unfold computeLayoutWith. simpl.
  apply finish_nonempty; [apply fold_tidy, initial_tidy |].
  rewrite <- finish_notes.
  exact (Forall2_not_nil (layout_notes score cfg) Hne).
Qed.

End StaffLayoutFacts.

(** * Properties of the circles layout *)

Module CirclesLayoutFacts.
Import CirclesLayout FlattenFacts.

Section Loop.

Variable cfg : CirclesLayoutConfig.

Let step := layoutStep cfg.

(** A step pushes exactly one entry. *)
Lemma row_step_laidOut (st : LoopState) (t : Tagged) :
  exists x y, laidOut (step st t) = laidOut st ++ [noteEntry cfg t x y].
Proof.
  unfold step, layoutStep, laidOut, wrapRow.
  destruct (gtb _ _ && _); simpl.
  - eexists. eexists. rewrite flat_map_snoc. simpl. reflexivity.
  - eexists. eexists. rewrite app_assoc. reflexivity.
Qed.

Lemma row_fold_laidOut (ts : list Tagged) (st : LoopState) :
  exists cs,
    laidOut (fold_left step ts st) = laidOut st ++ cs
    /\ Forall2 (fun t c => exists x y, c = noteEntry cfg t x y) ts cs.
Proof.
  revert st. induction ts as [| t ts IH]; intros st; simpl.
  - exists []. rewrite app_nil_r. split; [reflexivity | constructor].
  - destruct (IH (step st t)) as [cs [Hl HF]].
    destruct (row_step_laidOut st t) as [x [y Hs]].
    exists (noteEntry cfg t x y :: cs). split.
    + rewrite Hl, Hs, <- app_assoc. reflexivity.
    + constructor; [now exists x, y | exact HF].
Qed.

Lemma row_step_tidy (st : LoopState) (t : Tagged) : tidy st -> tidy (step st t).
Proof.
  intros Hs. unfold step, layoutStep, tidy, wrapRow.
  destruct (gtb _ _) ; simpl; [| exact Hs].
  destruct (currentRow st) as [| c cs] eqn:Hc; simpl; [exact Hs |].
  apply Forall_app. split; [exact Hs |].
  constructor; [simpl; discriminate | constructor].
Qed.

Lemma row_fold_tidy (ts : list Tagged) (st : LoopState) :
  tidy st -> tidy (fold_left step ts st).
Proof.
  revert st. induction ts as [| t ts IH]; intros st Ht; simpl; auto using row_step_tidy.
Qed.

Lemma row_finish_cases (st : LoopState) :
  (currentRow st <> []
   /\ finish st = st_rows st ++ [mkCircleRow (currentRowY st) (currentRow st)])
  \/ (currentRow st = [] /\ st_rows st = []
      /\ finish st = [mkCircleRow (currentRowY st) []])
  \/ (currentRow st = [] /\ st_rows st <> [] /\ finish st = st_rows st).
Proof.
  unfold finish.
  destruct (currentRow st) as [| c cs] eqn:Hc; simpl.
  - destruct (st_rows st) as [| r rs] eqn:Hr; simpl.
    + right. left. auto.
    + right. right. repeat split; discriminate || reflexivity.
  - left. split; [discriminate |].
    rewrite length_app, Nat.add_comm. reflexivity.
Qed.

Lemma finish_circles (st : LoopState) : flat_map circles (finish st) = laidOut st.
Proof.
  unfold laidOut.
  destruct (row_finish_cases st) as [[_ ->] | [[Hc [Hr ->]] | [Hc [_ ->]]]].
  - rewrite flat_map_snoc. reflexivity.
  - rewrite Hr, Hc. reflexivity.
  - now rewrite Hc, app_nil_r.
Qed.

Lemma row_finish_nonempty (st : LoopState) :
  tidy st -> laidOut st <> [] -> Forall (fun r => circles r <> []) (finish st).
Proof.
  intros Hs Hl.
  destruct (row_finish_cases st) as [[Hc ->] | [[Hc [Hr ->]] | [Hc [_ ->]]]].
  - apply Forall_app. split; [exact Hs |]. constructor; [exact Hc | constructor].
  - exfalso. apply Hl. unfold laidOut. now rewrite Hr, Hc.
  - exact Hs.
Qed.

End Loop.

(** ** The layout as a whole *)

Lemma layout_circles (score : Score) (cfg : CirclesLayoutConfig) :
  Forall2 (fun t c => exists x y, c = noteEntry cfg t x y)
          (allNotes score) (allCircles (computeCirclesLayoutWith score cfg)).
Proof.
  unfold allCircles, computeCirclesLayoutWith. simpl. rewrite finish_circles.
  destruct (row_fold_laidOut cfg (allNotes score) (initialState cfg)) as [cs [Hl HF]].
  rewrite Hl. exact HF.
Qed.

Lemma noteEntry_unplaced (cfg1 cfg2 : CirclesLayoutConfig) (t : Tagged)
    (x1 y1 x2 y2 : Q) :
  circleSize cfg1 = circleSize cfg2 ->
  unplaced (noteEntry cfg1 t x1 y1) = unplaced (noteEntry cfg2 t x2 y2).
Proof.
  intros Hsize. unfold unplaced, circleTag, sizing, noteEntry, baseRadiusOf.
  rewrite Hsize.
  destruct (t_note t) as [p o d l a | d]; [destruct d |]; reflexivity.
Qed.

(** Between configurations of the same [circleSize], what changes is
    only the centres. *)
Lemma rows_unplaced (score : Score) (cfg1 cfg2 : CirclesLayoutConfig) :
  circleSize cfg1 = circleSize cfg2 ->
  map unplaced (allCircles (computeCirclesLayoutWith score cfg1))
  = map unplaced (allCircles (computeCirclesLayoutWith score cfg2)).
Proof.
  intros Hsize.
  eapply Forall2_map_eq; [| apply layout_circles | apply layout_circles].
  intros t a b [x1 [y1 ->]] [x2 [y2 ->]]. now apply noteEntry_unplaced.
Qed.

Lemma rows_empty (score : Score) (cfg : CirclesLayoutConfig) :
  allNotes score = [] ->
  rows (computeCirclesLayoutWith score cfg)
  = [ {| startY := marginTop cfg + circleSize cfg / 2; circles := [] |} ].
Proof.
  intros Hnil. unfold computeCirclesLayoutWith. rewrite Hnil. reflexivity.
Qed.

Lemma rows_nonempty (score : Score) (cfg : CirclesLayoutConfig) :
  allNotes score <> [] ->
  Forall (fun r => circles r <> []) (rows (computeCirclesLayoutWith score cfg)).
Proof.
  intros Hne. unfold computeCirclesLayoutWith. simpl.
  apply row_finish_nonempty; [apply row_fold_tidy; constructor |].
  rewrite <- finish_circles.
  exact (Forall2_not_nil (layout_circles score cfg) Hne).
Qed.



End CirclesLayoutFacts.

(** * Properties of both layouts *)

Module LayoutFacts.
Import FlattenFacts.

(** C9. For any two canvas widths, the staff layouts give each note
    and rest the same staff position [y] (and rest flag and octave),
    note by note in the same order, and the circle layouts give each
    note the same radius and the same sub-circle radii (and rest flag,
    octave and lyric): between the two layouts only the horizontal
    positions, the centres and the division into systems and rows can
    differ. *)
Theorem width_changes_wrapping_only (score : Score)
    (sconfig : option StaffLayout.PartialLayoutConfig)
    (cconfig : option CirclesLayout.PartialCirclesLayoutConfig)
    (w1 w2 : Q) :
  map StaffLayout.unplaced
      (StaffLayout.allLayouts
         (StaffLayout.computeLayout score (StaffLayout.withCanvasWidth w1 sconfig)))
  = map StaffLayout.unplaced
      (StaffLayout.allLayouts
         (StaffLayout.computeLayout score (StaffLayout.withCanvasWidth w2 sconfig)))
  /\ map CirclesLayout.unplaced
       (CirclesLayout.allCircles
          (CirclesLayout.computeCirclesLayout score
             (CirclesLayout.withCanvasWidth w1 cconfig)))
     = map CirclesLayout.unplaced
         (CirclesLayout.allCircles
            (CirclesLayout.computeCirclesLayout score
               (CirclesLayout.withCanvasWidth w2 cconfig))).
Proof.
  split.
  - apply StaffLayoutFacts.layout_unplaced.
  - apply CirclesLayoutFacts.rows_unplaced.
    destruct cconfig; reflexivity.
Qed.

(** C10. A score without notes or rests has one system without notes
    and bar lines and one row without circles.  A score with at least
    one note or rest has no system without notes and no row without
    circles.  So a layout has an empty system, or an empty row,
    exactly when the score has no note or rest. *)
Theorem empty_rows_only_for_empty_scores (score : Score)
    (sconfig : option StaffLayout.PartialLayoutConfig)
    (cconfig : option CirclesLayout.PartialCirclesLayoutConfig) :
  let scfg := StaffLayout.fullConfig sconfig in
  let ccfg := CirclesLayout.fullConfig cconfig in
  let systems := StaffLayout.systems (StaffLayout.computeLayout score sconfig) in
  let rows := CirclesLayout.rows (CirclesLayout.computeCirclesLayout score cconfig) in
  (Forall (fun part => notes part = []) (parts score) ->
     systems = [ StaffLayout.mkStaffSystem (StaffLayout.marginLeft scfg)
                   (StaffLayout.marginTop scfg) [] [] ]
     /\ rows = [ CirclesLayout.mkCircleRow
                   (CirclesLayout.marginTop ccfg + CirclesLayout.circleSize ccfg / 2)
                   [] ])
  /\ (Exists (fun part => notes part <> []) (parts score) ->
       Forall (fun s => StaffLayout.notes s <> []) systems
       /\ Forall (fun r => CirclesLayout.circles r <> []) rows)
  /\ (Exists (fun s => StaffLayout.notes s = []) systems
       <-> Forall (fun part => notes part = []) (parts score))
  /\ (Exists (fun r => CirclesLayout.circles r = []) rows
       <-> Forall (fun part => notes part = []) (parts score)).
Proof.
  intros scfg ccfg systems rows.
  assert (Hempty : Forall (fun part => notes part = []) (parts score) ->
                   systems = [ StaffLayout.mkStaffSystem (StaffLayout.marginLeft scfg)
                                 (StaffLayout.marginTop scfg) [] [] ]
                   /\ rows = [ CirclesLayout.mkCircleRow
                                 (CirclesLayout.marginTop ccfg
                                  + CirclesLayout.circleSize ccfg / 2) [] ]).
  { intros Hnone. apply allNotes_nil_iff in Hnone. split.
    - now apply StaffLayoutFacts.layout_empty.
    - now apply CirclesLayoutFacts.rows_empty. }
  assert (Hfull : allNotes score <> [] ->
                  Forall (fun s => StaffLayout.notes s <> []) systems
                  /\ Forall (fun r => CirclesLayout.circles r <> []) rows).
  { intros Hne. split.
    - now apply StaffLayoutFacts.layout_nonempty.
    - now apply CirclesLayoutFacts.rows_nonempty. }
  split; [exact Hempty |].
  split; [intros Hsome; apply Hfull; now apply allNotes_not_nil |].
  split; split.
  - intros Hex. apply allNotes_nil_iff.
    destruct (allNotes score) as [| t ts] eqn:Hall; [reflexivity |].
    exfalso. refine (Forall_Exists_nil _ _ Hex).
    apply Hfull. discriminate.
  - intros Hnone. destruct (Hempty Hnone) as [-> _]. now left.
  - intros Hex. apply allNotes_nil_iff.
    destruct (allNotes score) as [| t ts] eqn:Hall; [reflexivity |].
    exfalso. refine (Forall_Exists_nil _ _ Hex).
    apply Hfull. discriminate.
  - intros Hnone. destruct (Hempty Hnone) as [_ ->]. now left.
Qed.

(** The empty score has one empty system and one empty row; the four
    quarter notes have none. *)
Lemma empty_rows_only_for_empty_scores_witness :
  (StaffLayout.systems (StaffLayout.computeLayout StaffLayout.emptyScore None)
   = [ StaffLayout.mkStaffSystem 60 40 [] [] ]
   /\ CirclesLayout.rows
        (CirclesLayout.computeCirclesLayout StaffLayout.emptyScore None)
      = [ CirclesLayout.mkCircleRow (30 + 40 / 2) [] ])
  /\ Forall (fun s => StaffLayout.notes s <> [])
       (StaffLayout.systems
          (StaffLayout.computeLayout StaffLayout.fourQuarters None)).
Proof.
  split.
  - apply (empty_rows_only_for_empty_scores StaffLayout.emptyScore None None).
    constructor.
  - apply (empty_rows_only_for_empty_scores StaffLayout.fourQuarters None None).
    left. discriminate.
Defined.

End LayoutFacts.

(** * Properties of the persistence format *)

Module JsonPersistenceFacts.
Import JsonPersistence.

Lemma oneOf_pitch (p : Pitch) :
  oneOf pitchName VALID_PITCHES (Some (JString (pitchName p))) = Some p.
Proof. destruct p; reflexivity. Qed.

Lemma oneOf_octave (o : Octave) :
  oneOf octaveName VALID_OCTAVES (Some (JString (octaveName o))) = Some o.
Proof. destruct o; reflexivity. Qed.

Lemma oneOf_duration (d : Duration) :
  oneOf durationName VALID_DURATIONS (Some (JString (durationName d))) = Some d.
Proof. destruct d; reflexivity. Qed.

Lemma oneOf_renderingMode (m : RenderingMode) :
  oneOf renderingModeName VALID_RENDERING_MODES
        (Some (JString (renderingModeName m))) = Some m.
Proof. destruct m; reflexivity. Qed.

Lemma oneOf_clef (c : Clef) :
  oneOf clefName VALID_CLEFS (Some (JString (clefName c))) = Some c.
Proof. destruct c; reflexivity. Qed.

#[local] Arguments oneOf : simpl never.

Lemma validate_noteToJson (n : NoteOrRest) (pi ni : nat) :
  validateNoteOrRest (noteToJson n) pi ni = Ok n.
Proof.
  destruct n as [p o d l a | d].
  - destruct l, a; cbn;
      rewrite oneOf_pitch, oneOf_octave, oneOf_duration; reflexivity.
  - cbn. rewrite oneOf_duration. reflexivity.
Qed.

Lemma validate_notes (pi : nat) (ns : list NoteOrRest) :
  forall i,
    mapiM_from i (fun n ni => validateNoteOrRest n pi ni) (map noteToJson ns)
    = Ok ns.
Proof.
  induction ns as [| n ns IH]; intros i; simpl; [reflexivity |].
  rewrite validate_noteToJson. simpl. rewrite IH. reflexivity.
Qed.

Lemma validate_partToJson (p : Part) (i : nat) :
  validatePart (partToJson p) i = Ok p.
Proof.
  destruct p as [nm ns]. destruct nm; cbn; unfold mapiM;
    rewrite validate_notes; reflexivity.
Qed.

Lemma validate_parts (ps : list Part) :
  forall i, mapiM_from i validatePart (map partToJson ps) = Ok ps.
Proof.
  induction ps as [| p ps IH]; intros i; simpl; [reflexivity |].
  rewrite validate_partToJson. simpl. rewrite IH. reflexivity.
Qed.

(** C4. Loading the document that saving a score writes gives the
    score back: title, rendering mode, time signature, clef, parts and
    notes, and every optional field - tempo, part name, lyric and
    accented flag - present with its value or absent as in the
    original. *)
Theorem loadScore_stringify (score : Score) :
  loadScore (Some (stringify score)) = Ok score.
Proof.
  destruct score as [ttl tmp mode [b bv] clf ps].
  destruct tmp; cbn;
    rewrite oneOf_renderingMode, oneOf_clef; cbn;
    unfold mapiM; rewrite validate_parts; reflexivity.
Qed.

(** C7 as stated fails: files whose [beats] is zero or negative, or
    whose [beatValue] is a fraction, load, and the score has these
    values. *)
Lemma loadScore_accepts_any_numbers :
  loadScore (Some (fileWith 0 4)) = Ok (scoreWith 0 4)
  /\ loadScore (Some (fileWith (-3) 4)) = Ok (scoreWith (-3) 4)
  /\ loadScore (Some (fileWith 4 1.5)) = Ok (scoreWith 4 1.5)
  /\ loadScore (Some (fileWith 4 0)) = Ok (scoreWith 4 0).
Proof. repeat split; reflexivity. Qed.

(** C7, as the code has it. [loadScore] checks the time signature for
    its shape only.  A document whose "timeSignature" member is
    missing or not an object, or whose "beats" or "beatValue" is not a
    number, is never loaded: the call throws, before any part is
    read.  The checks of the document, its title, rendering mode and
    clef come first; when they pass, the error is the one about a
    missing "timeSignature" object, or the one about numeric "beats"
    and "beatValue", and neither carries the value.  When both are
    numbers, whatever their values, and the rest of the document is
    valid, the score is returned with these two numbers as its time
    signature. *)
Theorem timeSignature_checked_for_shape (obj : json) :
  (numericTimeSignature obj = false ->
   (exists e, loadScore (Some obj) = Throw e /\ beforeParts e = true)
   /\ (forall members ttl m c,
         obj = JObject members ->
         prop obj "title" = Some (JString ttl) ->
         oneOf renderingModeName VALID_RENDERING_MODES (prop obj "renderingMode")
         = Some m ->
         oneOf clefName VALID_CLEFS (prop obj "clef") = Some c ->
         loadScore (Some obj)
         = Throw (if isObject (prop obj "timeSignature")
                  then TimeSignatureNotNumeric
                  else TimeSignatureNotObject)))
  /\ (forall members ttl m c ts b bv items ps tmp,
        obj = JObject members ->
        prop obj "title" = Some (JString ttl) ->
        oneOf renderingModeName VALID_RENDERING_MODES (prop obj "renderingMode")
        = Some m ->
        oneOf clefName VALID_CLEFS (prop obj "clef") = Some c ->
        prop obj "timeSignature" = Some ts -> isObject (Some ts) = true ->
        prop ts "beats" = Some (JNumber b) ->
        prop ts "beatValue" = Some (JNumber bv) ->
        prop obj "parts" = Some (JArray items) ->
        mapiM validatePart items = Ok ps ->
        optNumber (prop obj "tempo") TempoNotNumber = Ok tmp ->
        loadScore (Some obj)
        = Ok {| title := ttl; tempo := tmp; renderingMode := m;
                timeSignature := {| beats := b; beatValue := bv |};
                clef := c; parts := ps |}).
Proof.
  split.
  - intros Hbad.
    assert (Hthrows : forall members ttl m c,
               obj = JObject members ->
               prop obj "title" = Some (JString ttl) ->
               oneOf renderingModeName VALID_RENDERING_MODES
                     (prop obj "renderingMode") = Some m ->
               oneOf clefName VALID_CLEFS (prop obj "clef") = Some c ->
               loadScore (Some obj)
               = Throw (if isObject (prop obj "timeSignature")
                        then TimeSignatureNotNumeric
                        else TimeSignatureNotObject)).
    { intros members ttl m c -> Httl Hmode Hclef.
      unfold numericTimeSignature in Hbad.
      unfold loadScore. cbv beta iota zeta.
      rewrite Httl, Hmode, Hclef. cbn [require bind].
      destruct (prop (JObject members) "timeSignature") as [ts |];
        [| reflexivity].
      destruct (isObject (Some ts)); cbn [negb andb] in *; [| reflexivity].
      destruct (prop ts "beats") as [[| | qb | | |] |];
        destruct (prop ts "beatValue") as [[| | qv | | |] |];
        try reflexivity; discriminate Hbad. }
    split; [| exact Hthrows].
    destruct obj as [| bo | qo | so | items | members];
      try (eexists; split; reflexivity).
    destruct (prop (JObject members) "title") as [[| | | ttl | |] |] eqn:Httl;
      try (eexists; split; [unfold loadScore; now rewrite Httl | reflexivity]).
    destruct (oneOf renderingModeName VALID_RENDERING_MODES
                    (prop (JObject members) "renderingMode")) as [m |] eqn:Hmode;
      [| eexists; split;
         [unfold loadScore; cbv beta iota zeta; rewrite Httl, Hmode; reflexivity
         | reflexivity]].
    destruct (oneOf clefName VALID_CLEFS (prop (JObject members) "clef"))
      as [c |] eqn:Hclef;
      [| eexists; split;
         [unfold loadScore; cbv beta iota zeta; rewrite Httl, Hmode, Hclef;
          reflexivity
         | reflexivity]].
    rewrite (Hthrows members ttl m c eq_refl eq_refl eq_refl eq_refl).
    eexists. split; [reflexivity |].
    now destruct (isObject (prop (JObject members) "timeSignature")).
  - intros members ttl m c ts b bv items ps tmp -> Httl Hmode Hclef
           Hts Hobj Hb Hbv Hparts Hps Htmp.
    unfold loadScore. cbv beta iota zeta.
    rewrite Httl, Hmode, Hclef. cbn [require bind].
    rewrite Hts, Hobj. cbn [negb]. rewrite Hb, Hbv, Hparts, Hps.
    cbn [bind]. rewrite Htmp. reflexivity.
Qed.

(** The empty document, the test file without a time signature and
    the one whose beats are the string "four" are rejected; the file
    with zero beats meets every condition of the last part and
    loads. *)
Lemma timeSignature_checked_for_shape_witness :
  loadScore (Some (JObject [])) = Throw TitleNotString
  /\ loadScore (Some (fileWithTimeSignature None)) = Throw TimeSignatureNotObject
  /\ loadScore (Some (fileWithTimeSignature (Some beatsFour)))
     = Throw TimeSignatureNotNumeric
  /\ loadScore (Some (fileWith 0 4)) = Ok (scoreWith 0 4).
Proof.
  split; [| split; [| split]].
  { destruct (timeSignature_checked_for_shape (JObject [])) as (Hrejects & _).
    destruct (Hrejects eq_refl) as ((e & He & _) & _).
    reflexivity. }
  { destruct (timeSignature_checked_for_shape (fileWithTimeSignature None))
      as (Hrejects & _).
    destruct (Hrejects eq_refl) as (_ & Hnamed).
    exact (Hnamed _ "Test" staff treble eq_refl eq_refl eq_refl eq_refl). }
  { destruct (timeSignature_checked_for_shape
                (fileWithTimeSignature (Some beatsFour))) as (Hrejects & _).
    destruct (Hrejects eq_refl) as (_ & Hnamed).
    exact (Hnamed _ "Test" staff treble eq_refl eq_refl eq_refl eq_refl). }
  destruct (timeSignature_checked_for_shape (fileWith 0 4)) as (_ & Hloads).
  exact (Hloads _ "Test Score" staff treble _ 0 4 _ _ None eq_refl eq_refl eq_refl
           eq_refl eq_refl eq_refl eq_refl eq_refl eq_refl eq_refl eq_refl).
Defined.

End JsonPersistenceFacts.

(** * Properties of the geometry of the staff layout *)

Module StaffGeometryFacts.
Import StaffLayout StaffGeometry FlattenFacts.

Lemma subsequence_refl_nil {X : Type} (l : list X) : subsequence [] l.
Proof. induction l; constructor; assumption. Qed.

Lemma subsequence_snoc_skip {X : Type} (l1 l2 : list X) (a : X) :
  subsequence l1 l2 -> subsequence l1 (l2 ++ [a]).
Proof.
  induction 1; simpl.
  - constructor. constructor.
  - now constructor.
  - now constructor.
Qed.

Lemma subsequence_snoc_take {X : Type} (l1 l2 : list X) (a : X) :
  subsequence l1 l2 -> subsequence (l1 ++ [a]) (l2 ++ [a]).
Proof.
  induction 1; simpl.
  - apply sub_take, sub_nil.
  - now constructor.
  - now constructor.
Qed.

Lemma subsequence_length {X : Type} (l1 l2 : list X) :
  subsequence l1 l2 -> (length l1 <= length l2)%nat.
Proof. induction 1; simpl; lia. Qed.

Lemma slots_S (cfg : LayoutConfig) (n : nat) :
  slots cfg (S n) = slots cfg n ++ [xAfter cfg n].
Proof. unfold slots. rewrite seq_S, map_app. reflexivity. Qed.

Section Loop.

Variable score : Score.
Variable cfg : LayoutConfig.

Lemma pushed_shaped (s : StaffSystem) (t : Tagged) (bars : list Q) :
  shaped cfg s ->
  (notes s <> [] -> gtb (xAfter cfg (length (notes s))) (usable cfg) = false) ->
  subsequence bars
    (map (barAfter cfg) (notes s ++ [noteEntry score t (xAfter cfg (length (notes s)))])) ->
  shaped cfg
    {| startX := startX s; startY := startY s;
       notes := notes s ++ [noteEntry score t (xAfter cfg (length (notes s)))];
       barLines := bars |}.
Proof.
  intros (Hx & Hslots & _ & Hfit) Hlast Hbars. unfold shaped. simpl.
  rewrite length_app, Nat.add_comm. simpl.
  split; [exact Hx |]. split; [| split; [exact Hbars |]].
  - rewrite map_app, slots_S, Hslots. reflexivity.
  - intros k [Hk0 Hk]. destruct (Nat.eq_dec k (length (notes s))) as [-> | Hne].
    + apply Hlast. destruct (notes s); [simpl in Hk0; lia | discriminate].
    + apply Hfit. lia.
Qed.

Lemma step_geometry (st : LoopState) (t : Tagged) :
  geometry cfg st -> geometry cfg (layoutStep score cfg st t).
Proof.
  intros (Hclosed & Hshaped & Hx & Hlast).
  assert (Hsub := Hshaped). destruct Hsub as (_ & _ & Hbars & _).
  unfold layoutStep, geometry. rewrite Hx.
  set (m := length (notes (currentSystem st))).
  set (n := noteEntry score t (xAfter cfg m)).
  assert (Hskip : subsequence (barLines (currentSystem st))
                    (map (barAfter cfg) (notes (currentSystem st) ++ [n]))).
  { rewrite map_app. now apply subsequence_snoc_skip. }
  assert (Htake : subsequence
                    (barLines (currentSystem st)
                     ++ [xAfter cfg m + noteSpacing cfg - noteSpacing cfg / 2])
                    (map (barAfter cfg) (notes (currentSystem st) ++ [n]))).
  { rewrite map_app. now apply subsequence_snoc_take. }
  assert (Hsys : forall bars,
             subsequence bars (map (barAfter cfg) (notes (currentSystem st) ++ [n])) ->
             shaped cfg
               {| startX := startX (currentSystem st);
                  startY := startY (currentSystem st);
                  notes := notes (currentSystem st) ++ [n];
                  barLines := bars |}).
  { intros bars Hb. now apply pushed_shaped. }
  change (xAfter cfg m + noteSpacing cfg) with (xAfter cfg (S m)).
  assert (Hlen : length (notes (currentSystem st) ++ [n]) = S m).
  { rewrite length_app, Nat.add_comm. reflexivity. }
  destruct (gtb (xAfter cfg (S m)) (usable cfg)) eqn:Hwrap;
    fold (usable cfg); rewrite Hwrap; simpl.
  - split; [| split; [| split]].
    + apply Forall_app. split; [exact Hclosed |].
      constructor; [| constructor].
      destruct (geExt _ _); simpl; (split; [apply Hsys; assumption |]);
        simpl; (split; [apply snoc_not_nil | now rewrite Hlen]).
    + repeat split; try reflexivity; simpl; [constructor | intros k Hk; lia].
    + reflexivity.
    + intros Habs. now contradiction Habs.
  - split; [exact Hclosed |].
    destruct (geExt _ _); simpl;
      (split; [apply Hsys; assumption |]); simpl; rewrite Hlen;
      (split; [reflexivity | intros _; exact Hwrap]).
Qed.

Lemma fold_geometry (ts : list Tagged) (st : LoopState) :
  geometry cfg st -> geometry cfg (fold_left (layoutStep score cfg) ts st).
Proof.
  revert st. induction ts as [| t ts IH]; intros st Hg; simpl; auto using step_geometry.
Qed.

Lemma initial_geometry : geometry cfg (initialState cfg).
Proof.
  unfold geometry, initialState, shaped. simpl.
  repeat split; try constructor; try reflexivity.
  - intros k Hk. lia.
  - intros Habs. now contradiction Habs.
Qed.

End Loop.

(** ** The systems of a layout *)

Lemma closed_same_length (cfg : LayoutConfig) (s1 s2 : StaffSystem) :
  closed cfg s1 -> closed cfg s2 -> length (notes s1) = length (notes s2).
Proof.
  intros ((_ & _ & _ & Hfit1) & Hne1 & Hw1) ((_ & _ & _ & Hfit2) & Hne2 & Hw2).
  assert (H1 : (0 < length (notes s1))%nat) by (destruct (notes s1); simpl; [easy | lia]).
  assert (H2 : (0 < length (notes s2))%nat) by (destruct (notes s2); simpl; [easy | lia]).
  destruct (Nat.lt_trichotomy (length (notes s1)) (length (notes s2))) as [Hlt | [Heq | Hgt]].
  - rewrite Hfit2 in Hw1 by lia. discriminate.
  - exact Heq.
  - rewrite Hfit1 in Hw2 by lia. discriminate.
Qed.

Lemma open_not_longer (cfg : LayoutConfig) (s cur : StaffSystem) :
  closed cfg s -> shaped cfg cur ->
  (notes cur <> [] -> gtb (xAfter cfg (length (notes cur))) (usable cfg) = false) ->
  (length (notes cur) <= length (notes s))%nat.
Proof.
  intros ((_ & _ & _ & _) & Hne & Hw) (_ & _ & _ & Hfit) Hlast.
  destruct (Nat.le_gt_cases (length (notes cur)) (length (notes s))) as [Hle | Hgt];
    [exact Hle |].
  assert (H0 : (0 < length (notes s))%nat) by (destruct (notes s); simpl; [easy | lia]).
  rewrite Hfit in Hw by lia. discriminate.
Qed.

Lemma closed_shaped (cfg : LayoutConfig) (l : list StaffSystem) :
  Forall (closed cfg) l -> Forall (shaped cfg) l.
Proof. apply Forall_impl. now intros s [Hs _]. Qed.

Lemma layout_shaped (score : Score) (cfg : LayoutConfig) :
  Forall (shaped cfg) (systems (computeLayoutWith score cfg)).
Proof.
  unfold computeLayoutWith. simpl.
  pose proof (fold_geometry score (allNotes score) (initial_geometry cfg))
    as (Hclosed & Hcur & _ & _).
  destruct (StaffLayoutFacts.finish_cases
              (fold_left (layoutStep score cfg) (allNotes score) (initialState cfg)))
    as [[_ ->] | [[_ [_ ->]] | [_ [_ ->]]]].
  - apply Forall_app. split; [now apply closed_shaped | now constructor].
  - now constructor.
  - now apply closed_shaped.
Qed.



(** The systems all start at the left margin and their notes are one
    [noteSpacing] apart from there, whatever their durations. *)
Theorem notes_evenly_spaced (score : Score) (config : option PartialLayoutConfig) :
  let cfg := fullConfig config in
  Forall (fun s => startX s = marginLeft cfg
                   /\ map x (notes s) = slots cfg (length (notes s)))
         (systems (computeLayout score config)).
Proof.
  intros cfg. unfold computeLayout. fold cfg.
  eapply Forall_impl; [| apply layout_shaped].
  intros s (Hx & Hslots & _). now split.
Qed.

(** The bar lines of a system are, in order, bar lines after notes of
    that system, half a [noteSpacing] before the next slot; so a system
    has no more bar lines than notes. *)
Theorem bar_lines_follow_notes (score : Score) (config : option PartialLayoutConfig) :
  let cfg := fullConfig config in
  Forall (fun s => subsequence (barLines s) (map (barAfter cfg) (notes s))
                   /\ (length (barLines s) <= length (notes s))%nat)
         (systems (computeLayout score config)).
Proof.
  intros cfg. unfold computeLayout. fold cfg.
  eapply Forall_impl; [| apply layout_shaped].
  intros s (_ & _ & Hbars & _). split; [exact Hbars |].
  apply subsequence_length in Hbars. now rewrite length_map in Hbars.
Qed.


(** All systems but the last hold the same number of notes, and the
    last one holds no more. *)
Theorem systems_fill_evenly (score : Score) (config : option PartialLayoutConfig) :
  let all := systems (computeLayout score config) in
  exists m : nat,
    Forall (fun s => length (notes s) = m) (removelast all)
    /\ Forall (fun s => removelast all = [] \/ (length (notes s) <= m)%nat) all.
Proof.
  unfold computeLayout, computeLayoutWith. simpl.
  set (cfg := fullConfig config).
  pose proof (fold_geometry score (allNotes score) (initial_geometry cfg))
    as (Hclosed & Hcur & _ & Hlast).
  destruct (StaffLayoutFacts.finish_cases
              (fold_left (layoutStep score cfg) (allNotes score) (initialState cfg)))
    as [[_ ->] | [[_ [_ ->]] | [_ [Hne ->]]]];
    set (st := fold_left (layoutStep score cfg) (allNotes score) (initialState cfg)) in *.
  - rewrite removelast_last.
    destruct (st_systems st) as [| s0 ss] eqn:Hss.
    + exists 0%nat. split; [constructor |]. constructor; [now left | constructor].
    + exists (length (notes s0)).
      assert (Hs0 : closed cfg s0) by (now inversion Hclosed).
      split.
      * eapply Forall_impl; [| exact Hclosed].
        intros s Hs. now apply closed_same_length with (cfg := cfg).
      * apply Forall_app. split.
        -- eapply Forall_impl; [| exact Hclosed].
           intros s Hs. right.
           now rewrite (closed_same_length Hs Hs0).
        -- constructor; [| constructor]. right.
           now apply open_not_longer with (cfg := cfg).
  - exists 0%nat. split; [constructor |]. constructor; [now left | constructor].
  - destruct (st_systems st) as [| s0 ss] eqn:Hss; [now contradiction Hne |].
    exists (length (notes s0)).
    assert (Hs0 : closed cfg s0) by (now inversion Hclosed).
    assert (Hall : Forall (fun s => length (notes s) = length (notes s0)) (s0 :: ss)).
    { eapply Forall_impl; [| exact Hclosed].
      intros s Hs. now apply closed_same_length with (cfg := cfg). }
    split.
    + destruct (exists_last (l := s0 :: ss)) as [pre [z Hz]]; [discriminate |].
      rewrite Hz in *. rewrite removelast_last.
      apply Forall_app in Hall. tauto.
    + eapply Forall_impl; [| exact Hall]. intros s Hs.
      cbv beta in Hs. right. rewrite Hs. apply Nat.le_refl.
Qed.

End StaffGeometryFacts.

(** * Properties of the staff renderer's geometry *)

Module StaffRendererFacts.
Import StaffSymbols StaffRenderer.

Lemma rowsFrom_last (cfg : StaffLayout.LayoutConfig) (l : list Q) :
  forall y0 y,
    StaffLayout.rowsFrom cfg y0 (l ++ [y]) ->
    y = StaffLayout.nthRow cfg y0 (length l).
Proof.
  induction l as [| a l IH]; intros y0 y Hr; simpl in *.
  - now destruct Hr.
  - destruct Hr as [_ Hr]. now apply IH.
Qed.

Lemma systems_not_nil (score : Score) (cfg : StaffLayout.LayoutConfig) :
  StaffLayout.systems (StaffLayout.computeLayoutWith score cfg) <> [].
Proof.
  unfold StaffLayout.computeLayoutWith. simpl.
  destruct (StaffLayoutFacts.finish_cases
              (fold_left (StaffLayout.layoutStep score cfg) (allNotes score)
                         (StaffLayout.initialState cfg)))
    as [[_ ->] | [[_ [_ ->]] | [_ [Hne ->]]]].
  - apply FlattenFacts.snoc_not_nil.
  - discriminate.
  - exact Hne.
Qed.

(** The layout the renderer asks for always has a last system, the
    row number [length systems - 1] below the top margin, and the SVG
    is as high as that system's start plus the staff height (40) plus
    the top margin (40). *)
Theorem svgHeight_below_last_system (score : Score) (width : Q) :
  let layout := layoutFor score width in
  let cfg := StaffLayout.config layout in
  exists pre lastSystem,
    StaffLayout.systems layout = pre ++ [lastSystem]
    /\ StaffLayout.startY lastSystem = StaffLayout.nthRow cfg 40 (length pre)
    /\ svgHeight layout = StaffLayout.startY lastSystem + 40 + 40.
Proof.
  intros layout cfg.
  destruct (exists_last (systems_not_nil score cfg)) as [pre [lastSystem Hsys]].
  exists pre, lastSystem.
  assert (Hl : StaffLayout.systems layout = pre ++ [lastSystem]) by exact Hsys.
  split; [exact Hl |]. split.
  - pose proof (StaffLayoutFacts.layout_rows score cfg) as Hrows.
    fold cfg in Hsys. rewrite Hsys, map_app in Hrows. simpl in Hrows.
    apply rowsFrom_last in Hrows. now rewrite length_map in Hrows.
  - unfold svgHeight. rewrite Hl, rev_app_distr. reflexivity.
Qed.

(** Staff positions 8, 6, 4, 2 and 0 are drawn on the five staff
    lines, top to bottom, and one position up is half a line spacing
    up on the page. *)
Theorem staff_positions_on_the_lines (config : StaffLayout.LayoutConfig)
    (system : StaffLayout.StaffSystem) (position : Z) :
  Forall2 Qeq
    (map (fun p => staffPositionToY config p (StaffLayout.startY system))
         [8; 6; 4; 2; 0]%Z)
    (staffLineYs config system)
  /\ staffPositionToY config (position + 1) (StaffLayout.startY system)
     == staffPositionToY config position (StaffLayout.startY system)
        - StaffLayout.staffLineSpacing config / 2.
Proof.
  split.
  - unfold staffLineYs, staffPositionToY. simpl.
    repeat constructor; field.
  - unfold staffPositionToY. rewrite inject_Z_plus. field.
Qed.

Lemma ledgerAbove_In (y p : Z) :
  forall fuel pos,
    (y - pos < 2 * Z.of_nat fuel)%Z ->
    (In p (ledgerAboveLoop fuel pos y)
     <-> (pos <= p <= y)%Z /\ Z.even (p - pos) = true).
Proof.
  induction fuel as [| fuel IH]; intros pos Hfuel; simpl.
  - split; [intros [] | intros [Hp _]; lia].
  - destruct (Z.leb_spec pos y) as [Hle | Hgt].
    + simpl. rewrite IH by lia. split.
      * intros [<- | [Hp He]].
        -- split; [lia |]. now rewrite Z.sub_diag.
        -- split; [lia |].
           replace (p - pos)%Z with (p - (pos + 2) + 2)%Z by lia.
           now rewrite Z.even_add, He.
      * intros [Hp He]. destruct (Z.eq_dec pos p) as [-> | Hne]; [now left |].
        right.
        assert (Hp1 : p <> (pos + 1)%Z).
        { intros ->. replace (pos + 1 - pos)%Z with 1%Z in He by lia. discriminate. }
        split; [lia |].
        replace (p - pos)%Z with (p - (pos + 2) + 2)%Z in He by lia.
        now rewrite Z.even_add in He; simpl in He; destruct (Z.even (p - (pos + 2))).
    + split; [intros [] | intros [Hp _]; lia].
Qed.

Lemma ledgerBelow_In (y p : Z) :
  forall fuel pos,
    (pos - y < 2 * Z.of_nat fuel)%Z ->
    (In p (ledgerBelowLoop fuel pos y)
     <-> (y <= p <= pos)%Z /\ Z.even (pos - p) = true).
Proof.
  induction fuel as [| fuel IH]; intros pos Hfuel; simpl.
  - split; [intros [] | intros [Hp _]; lia].
  - destruct (Z.geb_spec pos y) as [Hge | Hlt].
    + simpl. rewrite IH by lia. split.
      * intros [<- | [Hp He]].
        -- split; [lia |]. now rewrite Z.sub_diag.
        -- split; [lia |].
           replace (pos - p)%Z with (pos - 2 - p + 2)%Z by lia.
           now rewrite Z.even_add, He.
      * intros [Hp He]. destruct (Z.eq_dec pos p) as [-> | Hne]; [now left |].
        right.
        assert (Hp1 : p <> (pos - 1)%Z).
        { intros ->. replace (pos - (pos - 1))%Z with 1%Z in He by lia. discriminate. }
        split; [lia |].
        replace (pos - p)%Z with (pos - 2 - p + 2)%Z in He by lia.
        now rewrite Z.even_add in He; simpl in He; destruct (Z.even (pos - 2 - p)).
    + split; [intros [] | intros [Hp _]; lia].
Qed.

(** The ledger lines of a note at staff position [y] are at exactly
    the even positions between the staff and the note: above the top
    line (8) up to [y], or below the bottom line (0) down to [y].  A
    note on the staff has none. *)
Theorem ledger_lines_between_staff_and_note (y p : Z) :
  In p (ledgerPositions y)
  <-> Z.even p = true /\ ((8 < p <= y)%Z \/ (y <= p < 0)%Z).
Proof.
  unfold ledgerPositions. rewrite in_app_iff.
  destruct (Z.gtb_spec y 8) as [Habove | Hnot]; destruct (Z.ltb_spec y 0) as [Hbelow | Hnot'];
    try lia.
  - rewrite ledgerAbove_In by lia. split.
    + intros [[Hp He] | []]. split; [| lia].
      apply Z.even_spec in He. destruct He as [k Hk].
      apply Z.even_spec. exists (k + 5)%Z. lia.
    + intros [He [Hp | Hp]]; [| lia]. left.
      apply Z.even_spec in He. destruct He as [k Hk].
      split; [lia |]. apply Z.even_spec. exists (k - 5)%Z. lia.
  - rewrite ledgerBelow_In by lia. split.
    + intros [[] | [Hp He]]. split; [| lia].
      apply Z.even_spec in He. destruct He as [k Hk].
      apply Z.even_spec. exists (- 1 - k)%Z. lia.
    + intros [He [Hp | Hp]]; [lia |]. right.
      apply Z.even_spec in He. destruct He as [k Hk].
      split; [lia |]. apply Z.even_spec. exists (- 1 - k)%Z. lia.
  - simpl. split; [intros [[] | []] | intros [_ [Hp | Hp]]; lia].
Qed.

(** No note needs more than five ledger lines, whatever its pitch,
    register and clef, and none in the treble clef needs more than
    one below the staff. *)
Theorem ledger_lines_of_a_note (pitch : Pitch) (octave : Octave) (clef : Clef) :
  (length (ledgerPositions (StaffLayout.pitchToStaffPosition pitch octave clef)) <= 5)%nat
  /\ (length (filter (fun p => (p <? 0)%Z)
               (ledgerPositions (StaffLayout.pitchToStaffPosition pitch octave treble)))
      <= 1)%nat.
Proof.
  destruct pitch, octave, clef; vm_compute; split; lia.
Qed.

(** A note with flags has a filled head, a note with a filled head has
    a stem, and the whole note is the only one without a stem.  The
    notehead [renderNotehead] returns carries the filled flag it was
    given, so the head drawn for a note with flags is a filled one;
    every head is 6 wide, a filled one 4.5 and an open one 5 high. *)
Theorem flags_head_and_stem (duration : Duration) :
  (0 < getFlagCount duration)%nat ->
  isNoteheadFilled duration = true
  /\ hasStem duration = true
  /\ filled (renderNotehead (isNoteheadFilled duration)) = true
  /\ (forall d, (isNoteheadFilled d = true -> hasStem d = true)
                /\ (hasStem d = false <-> d = whole))
  /\ (forall f, filled (renderNotehead f) = f
                /\ rx (renderNotehead f) = 6
                /\ ry (renderNotehead f) = if f then 4.5 else 5).
Proof.
  intros Hflags.
  assert (Hfilled : isNoteheadFilled duration = true)
    by (destruct duration; simpl in *; lia || reflexivity).
  split; [exact Hfilled |].
  split; [destruct duration; simpl in *; lia || reflexivity |].
  split; [now rewrite Hfilled |].
  split.
  - intros d. split; [destruct d; simpl; congruence |].
    split; [destruct d; simpl; congruence | intros ->; reflexivity].
  - intros f. repeat split.
Qed.

(** The sixteenth note has flags. *)
Lemma flags_head_and_stem_witness :
  isNoteheadFilled sixteenth = true
  /\ hasStem sixteenth = true
  /\ filled (renderNotehead (isNoteheadFilled sixteenth)) = true.
Proof.
  destruct (flags_head_and_stem sixteenth) as (Hhead & Hstem & Hdrawn & _);
    [simpl; lia | repeat split; assumption].
Defined.

End StaffRendererFacts.

(** * Properties of the geometry of the circles layout *)

Module CirclesGeometryFacts.
Import CirclesLayout CirclesGeometry FlattenFacts.

Lemma mapi_from_snoc {X Y : Type} (f : nat -> X -> Y) (l : list X) (a : X) :
  forall i, mapi_from i f (l ++ [a]) = mapi_from i f l ++ [f (i + length l)%nat a].
Proof.
  induction l as [| b l IH]; intros i; simpl.
  - now rewrite Nat.add_0_r.
  - rewrite IH. replace (i + S (length l))%nat with (S i + length l)%nat by lia.
    reflexivity.
Qed.

Lemma rowsOf_snoc (cfg : CirclesLayoutConfig) (tss : list (list Tagged))
    (ts : list Tagged) :
  rowsOf cfg (tss ++ [ts]) = rowsOf cfg tss ++ [rowOf cfg (length tss) ts].
Proof. unfold rowsOf, mapi. now rewrite mapi_from_snoc. Qed.

Lemma placeRow_snoc (cfg : CirclesLayoutConfig) (y : Q) (ts : list Tagged) (t : Tagged) :
  forall x,
    placeRow cfg y x (ts ++ [t])
    = placeRow cfg y x ts ++ [noteEntry cfg t (endOf cfg x ts) y].
Proof.
  induction ts as [| a ts IH]; intros x; simpl; [reflexivity |].
  now rewrite IH.
Qed.

Lemma endOf_snoc (cfg : CirclesLayoutConfig) (ts : list Tagged) (t : Tagged) :
  forall x, endOf cfg x (ts ++ [t]) = endOf cfg x ts + totalWidth cfg t.
Proof.
  induction ts as [| a ts IH]; intros x; simpl; [reflexivity |]. apply IH.
Qed.

Lemma placeRow_length (cfg : CirclesLayoutConfig) (y : Q) (ts : list Tagged) :
  forall x, length (placeRow cfg y x ts) = length ts.
Proof.
  induction ts as [| a ts IH]; intros x; simpl; [reflexivity |]. now rewrite IH.
Qed.

Lemma fitsAfter_snoc (cfg : CirclesLayoutConfig) (ts : list Tagged) (t : Tagged) :
  forall pre,
    fitsAfter cfg pre ts -> overflows cfg (pre ++ ts) t = false ->
    fitsAfter cfg pre (ts ++ [t]).
Proof.
  induction ts as [| a ts IH]; intros pre Hfit Hnew; simpl in *.
  - rewrite app_nil_r in Hnew. now split.
  - destruct Hfit as [Ha Hfit]. split; [exact Ha |].
    apply IH; [exact Hfit |]. now rewrite <- app_assoc.
Qed.

Lemma closedByNext_grow (cfg : CirclesLayoutConfig) (cur : list Tagged) (t : Tagged) :
  forall tss,
    cur <> [] -> closedByNext cfg (tss ++ [cur]) ->
    closedByNext cfg (tss ++ [cur ++ [t]]).
Proof.
  intros tss Hne. induction tss as [| ts tss IH]; simpl; [tauto |].
  intros [Hhead Hrest]. split; [| now apply IH].
  destruct tss as [| next tss']; simpl in *.
  - destruct cur as [| c cur']; [now contradiction Hne | exact Hhead].
  - exact Hhead.
Qed.

Lemma closedByNext_wrap (cfg : CirclesLayoutConfig) (cur : list Tagged) (t : Tagged) :
  forall tss,
    overflows cfg cur t = true -> closedByNext cfg (tss ++ [cur]) ->
    closedByNext cfg ((tss ++ [cur]) ++ [[t]]).
Proof.
  intros tss Hover. induction tss as [| ts tss IH]; simpl.
  - intros _. repeat split. exact Hover.
  - intros [Hhead Hrest]. split; [| now apply IH].
    destruct tss as [| next tss']; simpl in *; exact Hhead.
Qed.

Section Loop.

Variable cfg : CirclesLayoutConfig.

Lemma step_breaking (done : list Tagged) (st : LoopState) (t : Tagged) :
  breaking cfg done st -> breaking cfg (done ++ [t]) (layoutStep cfg st t).
Proof.
  intros (tss & cur & Hdone & Hrows & Hrow & Hx & Hy & Hclosed & Hfits & Hne & Hnext).
  assert (Hfirst : cur = [] -> tss = []).
  { intros ->. destruct tss as [| ts tss']; [reflexivity |].
    exfalso. apply Hne; [discriminate | reflexivity]. }
  assert (Htest : gtb (currentX st + totalWidth cfg t - circleSpacing cfg / 2) (maxX cfg)
                  = overflows cfg cur t).
  { unfold overflows. now rewrite Hx. }
  assert (Hlen : length (currentRow st) = length cur).
  { now rewrite Hrow, placeRow_length. }
  unfold layoutStep, wrapRow. fold (totalWidth cfg t). rewrite Htest, Hlen.
  destruct (overflows cfg cur t) eqn:Hover; destruct cur as [| c cur'] eqn:Hcur;
    simpl.
  - (* the test fails on an empty row: no wrap *)
    rewrite (Hfirst eq_refl) in *.
    exists [], [t]. simpl in *. rewrite Hrows, Hrow, Hx, Hy, Hdone.
    repeat split; try reflexivity; try constructor. discriminate.
  - (* wrap *)
    exists (tss ++ [c :: cur']), [t]. simpl.
    rewrite rowsOf_snoc, length_app, Nat.add_comm, Hrows, Hrow, Hy. simpl.
    repeat split; try reflexivity.
    + rewrite Hdone, concat_app. simpl. now rewrite app_nil_r, <- app_assoc.
    + apply Forall_app. split; [exact Hclosed |].
      constructor; [| constructor]. split; [discriminate | exact Hfits].
    + discriminate.
    + now apply closedByNext_wrap.
  - (* first note of the first row *)
    rewrite (Hfirst eq_refl) in *.
    exists [], [t]. simpl in *. rewrite Hrows, Hrow, Hx, Hy, Hdone.
    repeat split; try reflexivity; try constructor. discriminate.
  - (* the note fits *)
    exists tss, ((c :: cur') ++ [t]).
    rewrite placeRow_snoc, endOf_snoc, Hrows, Hrow, Hx, Hy, Hdone.
    repeat split; try assumption; try reflexivity.
    + now rewrite app_assoc.
    + simpl. apply fitsAfter_snoc; [exact Hfits | exact Hover].
    + intros _. discriminate.
    + apply closedByNext_grow; [discriminate | exact Hnext].
Qed.

Lemma fold_breaking (ts : list Tagged) :
  forall done st,
    breaking cfg done st ->
    breaking cfg (done ++ ts) (fold_left (layoutStep cfg) ts st).
Proof.
  induction ts as [| t ts IH]; intros done st Hb; simpl.
  - now rewrite app_nil_r.
  - replace (done ++ t :: ts) with ((done ++ [t]) ++ ts)
      by (now rewrite <- app_assoc).
    apply IH. now apply step_breaking.
Qed.

Lemma initial_breaking : breaking cfg [] (initialState cfg).
Proof.
  exists [], []. simpl. repeat split; try reflexivity; try constructor.
  intros Habs. now contradiction Habs.
Qed.

End Loop.

(** ** The rows of a layout *)

Lemma layout_breaking (score : Score) (cfg : CirclesLayoutConfig) :
  exists tss,
    tss <> []
    /\ concat tss = allNotes score
    /\ rows (computeCirclesLayoutWith score cfg) = rowsOf cfg tss
    /\ Forall (rowFits cfg) tss
    /\ closedByNext cfg tss.
Proof.
  unfold computeCirclesLayoutWith. simpl.
  pose proof (fold_breaking (allNotes score) (initial_breaking cfg)) as Hb.
  simpl in Hb.
  set (st := fold_left (layoutStep cfg) (allNotes score) (initialState cfg)) in *.
  destruct Hb as (tss & cur & Hdone & Hrows & Hrow & _ & Hy & Hclosed & Hfits & Hne & Hnext).
  assert (Hcur : currentRow st = [] -> cur = []).
  { intros Hnil. rewrite Hrow in Hnil. apply (f_equal (@length _)) in Hnil.
    rewrite placeRow_length in Hnil. now destruct cur. }
  destruct (CirclesLayoutFacts.row_finish_cases st)
    as [[Hsome ->] | [[Hnil [Hnone ->]] | [Hnil [Hsome ->]]]].
  - exists (tss ++ [cur]). split; [apply snoc_not_nil |].
    rewrite concat_app, rowsOf_snoc, Hrows, Hrow, Hy. simpl. rewrite app_nil_r.
    repeat split; try (now symmetry); try assumption.
    apply Forall_app. split; [| now constructor].
    eapply Forall_impl; [| exact Hclosed]. now intros ts [_ Hts].
  - apply Hcur in Hnil. subst cur.
    assert (Htss : tss = []).
    { rewrite Hrows in Hnone. destruct tss; [reflexivity | discriminate]. }
    subst tss. simpl in *. exists [[]].
    rewrite Hy. repeat split; try (now symmetry); try discriminate.
    constructor; [exact I | constructor].
  - apply Hcur in Hnil. subst cur. exfalso. apply Hsome. rewrite Hrows.
    destruct tss as [| ts tss']; [reflexivity |].
    exfalso. apply Hne; [discriminate | reflexivity].
Qed.

Lemma rowsOf_startY (cfg : CirclesLayoutConfig) (tss : list (list Tagged)) :
  forall i,
    map startY (mapi_from i (rowOf cfg) tss)
    = map (rowYAfter cfg) (seq i (length tss)).
Proof.
  induction tss as [| ts tss IH]; intros i; simpl; [reflexivity |].
  now rewrite IH.
Qed.

Lemma noteEntry_cy (cfg : CirclesLayoutConfig) (t : Tagged) (x y : Q) :
  cy (noteEntry cfg t x y) = y.
Proof.
  unfold noteEntry. destruct (t_note t) as [p o d l a | d]; [destruct d |];
    reflexivity.
Qed.

Lemma placeRow_cy (cfg : CirclesLayoutConfig) (y : Q) (ts : list Tagged) :
  forall x, Forall (fun c => cy c = y) (placeRow cfg y x ts).
Proof.
  induction ts as [| t ts IH]; intros x; simpl; constructor.
  - apply noteEntry_cy.
  - apply IH.
Qed.

Lemma rowsOf_cy (cfg : CirclesLayoutConfig) (tss : list (list Tagged)) :
  forall i,
    Forall (fun r => Forall (fun c => cy c = startY r) (circles r))
           (mapi_from i (rowOf cfg) tss).
Proof.
  induction tss as [| ts tss IH]; intros i; simpl; constructor.
  - apply placeRow_cy.
  - apply IH.
Qed.

(** Row number [k] is [k] times [rowSpacing] below the first one, and
    every entry of a row has the row's y as its centre's y. *)
Theorem circle_rows_stacked (score : Score)
    (config : option PartialCirclesLayoutConfig) :
  let cfg := fullConfig config in
  let rs := rows (computeCirclesLayout score config) in
  map startY rs = map (rowYAfter cfg) (seq 0 (length rs))
  /\ Forall (fun r => Forall (fun c => cy c = startY r) (circles r)) rs.
Proof.
  intros cfg rs. unfold rs, computeCirclesLayout. fold cfg.
  destruct (layout_breaking score cfg) as (tss & _ & _ & -> & _).
  unfold rowsOf, mapi. split.
  - rewrite rowsOf_startY. f_equal. f_equal.
    clear. generalize 0%nat. induction tss; intros i; simpl; [reflexivity |].
    now rewrite <- IHtss.
  - apply rowsOf_cy.
Qed.

(** A layout always has a last row, and its total height is that
    row's y plus the base radius, the lyric offset and 20. *)
Theorem totalHeight_below_last_row (score : Score)
    (config : option PartialCirclesLayoutConfig) :
  let cfg := fullConfig config in
  let l := computeCirclesLayout score config in
  exists n,
    length (rows l) = S n
    /\ totalHeight l
       = rowYAfter cfg n + circleSize cfg / 2 + lyricOffset cfg + 20.
Proof.
  intros cfg l. unfold l, computeCirclesLayout. fold cfg.
  destruct (layout_breaking score cfg) as (tss & Hne & _ & Hrows & _).
  destruct (exists_last Hne) as [pre [ts Htss]]. subst tss.
  exists (length pre).
  unfold computeCirclesLayoutWith in *. simpl in *.
  rewrite Hrows, rowsOf_snoc. split.
  - rewrite length_app, Nat.add_comm. simpl. f_equal.
    unfold rowsOf, mapi. generalize 0%nat. clear.
    induction pre; intros i; simpl; [reflexivity |]. now rewrite IHpre.
  - rewrite last_last. reflexivity.
Qed.

Lemma rowsHolding_none (pi ni : nat) (rs : list (list (nat * nat))) :
  occursIn pi ni (concat rs) = 0%nat -> rowsHolding pi ni rs = [].
Proof.
  unfold rowsHolding. induction rs as [| r rs IH]; intros H0; simpl in *;
    [reflexivity |].
  rewrite occursIn_app in H0.
  destruct (occursIn pi ni r) eqn:Hr; [| lia].
  simpl. apply IH. lia.
Qed.

Lemma rowsHolding_once (pi ni : nat) (rs : list (list (nat * nat))) :
  occursIn pi ni (concat rs) = 1%nat -> length (rowsHolding pi ni rs) = 1%nat.
Proof.
  unfold rowsHolding. induction rs as [| r rs IH]; intros H1; simpl in *;
    [discriminate |].
  rewrite occursIn_app in H1.
  destruct (occursIn pi ni r) as [| k] eqn:Hr; simpl.
  - apply IH. lia.
  - fold (rowsHolding pi ni rs). rewrite rowsHolding_none by lia. reflexivity.
Qed.

Lemma rowTags_concat (l : CirclesLayout) :
  concat (rowTags l) = map circleTag (allCircles l).
Proof.
  unfold rowTags, allCircles.
  induction (rows l) as [| r rs IH]; simpl; [reflexivity |].
  now rewrite IH, map_app.
Qed.

Lemma circle_tags (score : Score) (cfg : CirclesLayoutConfig) :
  map circleTag (allCircles (computeCirclesLayoutWith score cfg))
  = map tag (allNotes score).
Proof.
  pose proof (CirclesLayoutFacts.layout_circles score cfg) as HF.
  induction HF as [| t c ts cs [x [y ->]] _ IH]; simpl; [reflexivity |].
  rewrite IH. f_equal. unfold noteEntry, circleTag, tag.
  destruct (t_note t) as [p o d l a | d]; [destruct d |]; reflexivity.
Qed.

(** Every note and rest of the score has one circle entry, in exactly
    one row, and the entries, row after row, are in the order of the
    flattened score, each with its part and note index. *)
Theorem circles_partition_the_notes (score : Score)
    (config : option PartialCirclesLayoutConfig) :
  let l := computeCirclesLayout score config in
  map circleTag (allCircles l) = map tag (allNotes score)
  /\ NoDup (map circleTag (allCircles l))
  /\ forall pi ni part note,
       nth_error (parts score) pi = Some part ->
       nth_error (notes part) ni = Some note ->
       length (rowsHolding pi ni (rowTags l)) = 1%nat.
Proof.
  intros l. unfold l, computeCirclesLayout.
  split; [apply circle_tags |]. split.
  - rewrite circle_tags. apply allNotes_tags_NoDup.
  - intros pi ni part note Hp Hn. apply rowsHolding_once.
    rewrite rowTags_concat, circle_tags.
    apply occursIn_once; [apply allNotes_tags_NoDup |].
    change (pi, ni) with (tag (mkTagged note pi ni)).
    apply in_map. now apply allNotes_In with (part := part).
Qed.

End CirclesGeometryFacts.

(** * Properties of what the loader reads and reports *)

Module JsonLoadingFacts.
Import JsonPersistence JsonLoading.

Open Scope string_scope.

Lemma isString_inv (v : option json) (s : string) :
  isString v s = true -> v = Some (JString s).
Proof.
  destruct v as [[| | | s' | |] |]; simpl; try discriminate.
  intros H. apply String.eqb_eq in H. now subst.
Qed.

Lemma oneOf_inv {T : Type} (nameOf : T -> string) (valid : list T)
    (v : option json) (t : T) :
  oneOf nameOf valid v = Some t -> v = Some (JString (nameOf t)).
Proof.
  destruct v as [[| | | s | |] |]; simpl; try discriminate.
  intros H. apply find_some in H. destruct H as [_ H].
  apply String.eqb_eq in H. now subst.
Qed.

Lemma optString_inv (v : option json) (e : LoadError) (o : option string) :
  optString v e = Ok o -> v = option_map JString o.
Proof.
  destruct v as [[| | | s | |] |]; simpl; intros H; try discriminate;
    now injection H as <-.
Qed.

Lemma optBoolean_inv (v : option json) (e : LoadError) (o : option bool) :
  optBoolean v e = Ok o -> v = option_map JBool o.
Proof.
  destruct v as [[| b | | | |] |]; simpl; intros H; try discriminate;
    now injection H as <-.
Qed.

Lemma optNumber_inv (v : option json) (e : LoadError) (o : option Q) :
  optNumber v e = Ok o -> v = option_map JNumber o.
Proof.
  destruct v as [[| | q | | |] |]; simpl; intros H; try discriminate;
    now injection H as <-.
Qed.

Lemma bind_Ok {T U : Type} (r : result T) (k : T -> result U) (u : U) :
  bind r k = Ok u -> exists v, r = Ok v /\ k v = Ok u.
Proof. destruct r; simpl; [eauto | discriminate]. Qed.

Lemma require_Ok {T : Type} (o : option T) (e : LoadError) (v : T) :
  require o e = Ok v -> o = Some v.
Proof. destruct o; simpl; intros H; [now injection H as -> | discriminate]. Qed.

Lemma validateNoteOrRest_agrees (entry : json) (pi ni : nat) (n : NoteOrRest) :
  validateNoteOrRest entry pi ni = Ok n -> noteAgrees entry n.
Proof.
  unfold validateNoteOrRest.
  destruct (negb (isObject (Some entry))); [discriminate |].
  destruct (isString (prop entry "type") "note") eqn:Hnote.
  - intros H.
    apply bind_Ok in H. destruct H as [p [Hp H]].
    apply bind_Ok in H. destruct H as [o [Ho H]].
    apply bind_Ok in H. destruct H as [d [Hd H]].
    apply bind_Ok in H. destruct H as [l [Hl H]].
    apply bind_Ok in H. destruct H as [a [Ha H]].
    injection H as <-.
    apply require_Ok, oneOf_inv in Hp, Ho, Hd.
    apply optString_inv in Hl. apply optBoolean_inv in Ha.
    apply isString_inv in Hnote. simpl. auto 7.
  - destruct (isString (prop entry "type") "rest") eqn:Hrest; [| discriminate].
    intros H.
    apply bind_Ok in H. destruct H as [d [Hd H]].
    injection H as <-.
    apply require_Ok, oneOf_inv in Hd.
    apply isString_inv in Hrest. simpl. auto.
Qed.

Lemma mapiM_from_Ok {X Y : Type} (f : X -> nat -> result Y) (R : X -> Y -> Prop)
    (items : list X) :
  (forall x i y, f x i = Ok y -> R x y) ->
  forall i ys, mapiM_from i f items = Ok ys -> Forall2 R items ys.
Proof.
  intros HR. induction items as [| x items IH]; intros i ys H; simpl in H.
  - injection H as <-. constructor.
  - apply bind_Ok in H. destruct H as [y [Hy H]].
    apply bind_Ok in H. destruct H as [ys' [Hys H]].
    injection H as <-. constructor; [eapply HR; eassumption | eapply IH; eassumption].
Qed.

Lemma validatePart_agrees (entry : json) (i : nat) (p : Part) :
  validatePart entry i = Ok p -> partAgrees entry p.
Proof.
  unfold validatePart.
  destruct (negb (isObject (Some entry))); [discriminate |].
  destruct (prop entry "notes") as [[| | | | items |] |] eqn:Hnotes;
    try discriminate.
  intros H.
  apply bind_Ok in H. destruct H as [nm [Hnm H]].
  apply bind_Ok in H. destruct H as [ns [Hns H]].
  injection H as <-. apply optString_inv in Hnm.
  split; [exact Hnm |]. exists items. split; [exact Hnotes |].
  unfold mapiM in Hns.
  eapply mapiM_from_Ok; [| exact Hns].
  intros x k y Hxy. eapply validateNoteOrRest_agrees. exact Hxy.
Qed.

(** A score that [loadScore] returns says nothing the file does not
    say: title, rendering mode, clef, both numbers of the time
    signature, the tempo, every part name, and type, pitch, octave,
    duration, lyric and accented flag of every note are members of the
    file with these values, and an optional field is absent from the
    score exactly when it is absent from the file. *)
Theorem loaded_score_is_in_the_file (file : json) (score : Score) :
  loadScore (Some file) = Ok score -> scoreAgrees file score.
Proof.
  unfold loadScore.
  destruct file as [| | | | | members]; try discriminate.
  cbv beta iota zeta. set (obj := JObject members).
  destruct (prop obj "title") as [[| | | ttl | |] |] eqn:Httl; try discriminate.
  intros H.
  apply bind_Ok in H. destruct H as [m [Hm H]].
  apply bind_Ok in H. destruct H as [c [Hc H]].
  destruct (negb (isObject (prop obj "timeSignature"))); [discriminate |].
  destruct (prop obj "timeSignature") as [ts |] eqn:Hts.
  - destruct (prop ts "beats") as [[| | b | | |] |] eqn:Hb; try discriminate;
      destruct (prop ts "beatValue") as [[| | bv | | |] |] eqn:Hbv; try discriminate.
    destruct (prop obj "parts") as [[| | | | items |] |] eqn:Hparts; try discriminate.
    apply bind_Ok in H. destruct H as [ps [Hps H]].
    apply bind_Ok in H. destruct H as [tmp [Htmp H]].
    injection H as <-.
    apply require_Ok, oneOf_inv in Hm, Hc. apply optNumber_inv in Htmp.
    unfold scoreAgrees. simpl.
    repeat split; try assumption.
    + exists ts. auto.
    + exists items. split; [exact Hparts |].
      unfold mapiM in Hps. eapply mapiM_from_Ok; [| exact Hps].
      intros x k y Hxy. eapply validatePart_agrees. exact Hxy.
  - simpl in H. discriminate.
Qed.

(** The file with zero beats loads, and the loaded score is in it. *)
Lemma loaded_score_is_in_the_file_witness :
  scoreAgrees (fileWith 0 4) (scoreWith 0 4).
Proof.
  apply (@loaded_score_is_in_the_file (fileWith 0 4) (scoreWith 0 4)).
  reflexivity.
Defined.

(** [loadScore] reads six members of the document and nothing else:
    two documents whose members of these names are the same load
    alike, whatever the order of their members and whatever other
    members they have. *)
Theorem loadScore_reads_six_members (m1 m2 : list (string * json)) :
  (forall k, In k topKeys -> lookup k m1 = lookup k m2) ->
  loadScore (Some (JObject m1)) = loadScore (Some (JObject m2)).
Proof.
  intros Hsame. unfold loadScore, prop. cbv beta iota zeta.
  rewrite (Hsame "title"), (Hsame "tempo"), (Hsame "renderingMode"),
    (Hsame "timeSignature"), (Hsame "clef"), (Hsame "parts")
    by (simpl; tauto).
  reflexivity.
Qed.

(** The shuffled file with its unknown member loads like the file
    that was saved. *)
Lemma loadScore_reads_six_members_witness :
  loadScore (Some shuffledFile) = loadScore (Some (fileWith 4 4)).
Proof.
  apply (@loadScore_reads_six_members
           (rev (membersOf (fileWith 4 4)) ++ [ ("version", JNumber 2) ])
           (membersOf (fileWith 4 4))).
  intros k [<- | [<- | [<- | [<- | [<- | [<- | []]]]]]]; reflexivity.
Defined.

Lemma bind_Throw {T U : Type} (r : result T) (k : T -> result U) (e : LoadError) :
  bind r k = Throw e -> r = Throw e \/ exists v, r = Ok v /\ k v = Throw e.
Proof.
  destruct r; simpl; [right; eauto | intros H; left; now injection H as ->].
Qed.

Lemma mapiM_from_Throw {X Y : Type} (f : X -> nat -> result Y) (items : list X)
    (e : LoadError) :
  forall i,
    mapiM_from i f items = Throw e ->
    exists k x, nth_error items k = Some x /\ f x (i + k)%nat = Throw e.
Proof.
  induction items as [| x items IH]; intros i H; simpl in H; [discriminate |].
  apply bind_Throw in H. destruct H as [H | [y [_ H]]].
  - exists 0%nat, x. rewrite Nat.add_0_r. now split.
  - apply bind_Throw in H. destruct H as [H | [ys [_ H]]]; [| discriminate].
    destruct (IH _ H) as [k [x' [Hk Hx']]].
    exists (S k), x'. split; [exact Hk |].
    now replace (i + S k)%nat with (S i + k)%nat by lia.
Qed.

Lemma require_Throw {T : Type} (o : option T) (e e' : LoadError) :
  require o e = Throw e' -> e' = e.
Proof. destruct o; simpl; intros H; [discriminate | now injection H]. Qed.

Lemma optString_Throw (v : option json) (e e' : LoadError) :
  optString v e = Throw e' -> e' = e.
Proof.
  destruct v as [[| | | s | |] |]; simpl; intros H; try discriminate;
    now injection H.
Qed.

Lemma optBoolean_Throw (v : option json) (e e' : LoadError) :
  optBoolean v e = Throw e' -> e' = e.
Proof.
  destruct v as [[| b | | | |] |]; simpl; intros H; try discriminate;
    now injection H.
Qed.

Lemma optNumber_Throw (v : option json) (e e' : LoadError) :
  optNumber v e = Throw e' -> e' = e.
Proof.
  destruct v as [[| | q | | |] |]; simpl; intros H; try discriminate;
    now injection H.
Qed.

(** The errors of [validateNoteOrRest] carry the indices it was
    given. *)
Lemma validateNoteOrRest_path (entry : json) (pi ni : nat) (e : LoadError) :
  validateNoteOrRest entry pi ni = Throw e -> errorPath e = Some (pi, Some ni).
Proof.
  unfold validateNoteOrRest.
  destruct (negb (isObject (Some entry))); [intros H; now injection H as <- |].
  destruct (isString (prop entry "type") "note").
  - intros H.
    apply bind_Throw in H. destruct H as [H | [p [_ H]]];
      [apply require_Throw in H; now subst |].
    apply bind_Throw in H. destruct H as [H | [o [_ H]]];
      [apply require_Throw in H; now subst |].
    apply bind_Throw in H. destruct H as [H | [d [_ H]]];
      [apply require_Throw in H; now subst |].
    apply bind_Throw in H. destruct H as [H | [l [_ H]]];
      [apply optString_Throw in H; now subst |].
    apply bind_Throw in H. destruct H as [H | [a [_ H]]];
      [apply optBoolean_Throw in H; now subst |].
    discriminate.
  - destruct (isString (prop entry "type") "rest");
      [| intros H; now injection H as <-].
    intros H.
    apply bind_Throw in H. destruct H as [H | [d [_ H]]];
      [apply require_Throw in H; now subst |].
    discriminate.
Qed.

Lemma validatePart_path (part : json) (pi : nat) (e : LoadError) :
  validatePart part pi = Throw e ->
  errorPath e = Some (pi, None)
  \/ exists noteItems ni entry,
       prop part "notes" = Some (JArray noteItems)
       /\ nth_error noteItems ni = Some entry
       /\ validateNoteOrRest entry pi ni = Throw e.
Proof.
  unfold validatePart.
  destruct (negb (isObject (Some part))); [intros H; injection H as <-; now left |].
  destruct (prop part "notes") as [[| | | | noteItems |] |] eqn:Hnotes;
    try (intros H; injection H as <-; now left).
  intros H.
  apply bind_Throw in H. destruct H as [H | [nm [_ H]]];
    [apply optString_Throw in H; subst; now left |].
  apply bind_Throw in H. destruct H as [H | [ns [_ H]]]; [| discriminate].
  unfold mapiM in H. apply mapiM_from_Throw in H.
  destruct H as [ni [entry [Hni Hentry]]]. right.
  exists noteItems, ni, entry. auto.
Qed.

(** An error that names [parts[i]] or [parts[i].notes[j]] is about
    that entry of the file: the file has it, and validating it alone
    throws this error. *)
Theorem errors_name_the_failing_entry (file : json) (e : LoadError) :
  loadScore (Some file) = Throw e -> errorLocated file e.
Proof.
  unfold loadScore.
  destruct file as [| | | | | members];
    try (intros H; injection H as <-; exact I).
  cbv beta iota zeta. set (obj := JObject members).
  destruct (prop obj "title") as [[| | | ttl | |] |];
    try (intros H; injection H as <-; exact I).
  intros H.
  apply bind_Throw in H. destruct H as [H | [m [_ H]]];
    [apply require_Throw in H; subst; exact I |].
  apply bind_Throw in H. destruct H as [H | [c [_ H]]];
    [apply require_Throw in H; subst; exact I |].
  destruct (negb (isObject (prop obj "timeSignature")));
    [injection H as <-; exact I |].
  destruct (prop obj "timeSignature") as [ts |].
  - destruct (prop ts "beats") as [[| | b | | |] |];
      try (injection H as <-; exact I);
      destruct (prop ts "beatValue") as [[| | bv | | |] |];
      try (injection H as <-; exact I).
    destruct (prop obj "parts") as [[| | | | items |] |] eqn:Hparts;
      try (injection H as <-; exact I).
    apply bind_Throw in H. destruct H as [H | [ps [_ H]]].
    + unfold mapiM in H. apply mapiM_from_Throw in H.
      destruct H as [pi [part [Hpi Hpart]]]. simpl in Hpart.
      destruct (validatePart_path _ _ Hpart)
        as [Hpath | [noteItems [ni [entry [Hnotes [Hni Hentry]]]]]].
      * unfold errorLocated. rewrite Hpath. exists items, part. auto.
      * unfold errorLocated. rewrite (validateNoteOrRest_path _ _ _ Hentry).
        exists items, part, noteItems, entry. auto.
    + apply bind_Throw in H. destruct H as [H | [tmp [_ H]]]; [| discriminate].
      apply optNumber_Throw in H. subst. exact I.
  - simpl in H. injection H as <-. exact I.
Qed.

(** The file with the pitch "X": the error names the second note of
    the first part and carries the value. *)
Lemma errors_name_the_failing_entry_witness :
  errorLocated badPitchFile (InvalidPitch 0 1 (Some (JString "X"))).
Proof.
  apply (@errors_name_the_failing_entry badPitchFile). reflexivity.
Defined.

End JsonLoadingFacts.

(** * Properties of the file names and of the page placement *)

Module ExportFacts.
Import Filenames PdfExport.

Open Scope string_scope.

Lemma replaceUnsafe_length (s : string) :
  String.length (replaceUnsafe s) = String.length s.
Proof. induction s as [| c s IH]; simpl; [reflexivity | now rewrite IH]. Qed.

Lemma isSafe_underscore : isSafe "_"%char = true.
Proof. reflexivity. Qed.

Lemma replaceUnsafe_safe (s : string) : allChars isSafe (replaceUnsafe s) = true.
Proof.
  induction s as [| c s IH]; simpl; [reflexivity |].
  rewrite IH, andb_true_r. unfold isSafe at 1.
  destruct (isAlnum c) eqn:Hc; [now rewrite Hc | reflexivity].
Qed.

Lemma replaceUnsafe_fixes_safe (s : string) :
  allChars isSafe s = true -> replaceUnsafe s = s.
Proof.
  induction s as [| c s IH]; simpl; [reflexivity |].
  intros H. apply andb_true_iff in H. destruct H as [Hc Hs].
  rewrite (IH Hs). f_equal.
  destruct (isAlnum c) eqn:Ha; [reflexivity |].
  unfold isSafe in Hc. rewrite Ha in Hc. simpl in Hc.
  apply Ascii.eqb_eq in Hc. now subst.
Qed.

(** The name [sanitizeFilename] of the JSON export returns is never
    empty, consists of letters, digits and underscores only, is as
    long as the title unless the title is empty (then it is "score"),
    and is left as it is when sanitized again.  [saveScore] downloads
    under that name of the score's title with ".json" appended. *)
Theorem sanitizeFilename_is_safe (title : string) :
  sanitizeFilename title <> ""
  /\ allChars isSafe (sanitizeFilename title) = true
  /\ String.length (sanitizeFilename title)
     = match title with
       | "" => 5%nat
       | _ => String.length title
       end
  /\ sanitizeFilename (sanitizeFilename title) = sanitizeFilename title
  /\ forall score,
       saveFilename score = sanitizeFilename (Types.title score) ++ ".json".
Proof.
  assert (Hsave : forall score,
             saveFilename score = sanitizeFilename (Types.title score) ++ ".json").
  { intros score. unfold saveFilename. now destruct (Types.title score). }
  unfold sanitizeFilename in *.
  destruct title as [| c s]; [repeat split; discriminate || reflexivity || exact Hsave |].
  assert (Hsafe : allChars isSafe (replaceUnsafe (String c s)) = true)
    by apply replaceUnsafe_safe.
  assert (Hlen := replaceUnsafe_length (String c s)).
  destruct (replaceUnsafe (String c s)) as [| c' r] eqn:Hr; [discriminate Hlen |].
  cbn [orElse]. rewrite (replaceUnsafe_fixes_safe _ Hsafe).
  repeat split; try discriminate; try assumption; try apply Hsave.
Qed.

Lemma trimEnd_fixed_safe (s : string) :
  allChars (fun c => negb (isWhiteSpace c)) s = true -> trimEnd s = s.
Proof.
  induction s as [| c s IH]; simpl; [reflexivity |].
  intros H. apply andb_true_iff in H. destruct H as [Hc Hs].
  rewrite (IH Hs). apply negb_true_iff in Hc. rewrite Hc.
  now destruct s.
Qed.

Lemma safe_not_white (c : ascii) : isSafe c = true -> isWhiteSpace c = false.
Proof.
  destruct c as [[] [] [] [] [] [] [] []]; vm_compute; congruence.
Qed.

Lemma safe_no_white (s : string) :
  allChars isSafe s = true -> allChars (fun c => negb (isWhiteSpace c)) s = true.
Proof.
  induction s as [| c s IH]; simpl; [reflexivity |].
  intros H. apply andb_true_iff in H. destruct H as [Hc Hs].
  now rewrite (safe_not_white _ Hc), (IH Hs).
Qed.

Lemma trim_fixes_safe (s : string) : allChars isSafe s = true -> trim s = s.
Proof.
  intros Hs. unfold trim.
  assert (Hstart : trimStart s = s).
  { destruct s as [| c s']; [reflexivity |]. simpl in *.
    apply andb_true_iff in Hs. destruct Hs as [Hc _].
    now rewrite (safe_not_white _ Hc). }
  rewrite Hstart. now apply trimEnd_fixed_safe, safe_no_white.
Qed.

(** The name the image and the PDF export derive from a title is
    never empty and consists of letters, digits and underscores only;
    it is the name the JSON export derives whenever trimming leaves
    the title as it is, and is left as it is when sanitized again.  A
    title of one space shows the difference: "score" here, "_" for the
    JSON export. *)
Theorem sanitizeExportFilename_is_safe (title : string) :
  sanitizeExportFilename title <> ""
  /\ allChars isSafe (sanitizeExportFilename title) = true
  /\ (trim title = title -> sanitizeExportFilename title = sanitizeFilename title)
  /\ sanitizeExportFilename (sanitizeExportFilename title)
     = sanitizeExportFilename title
  /\ sanitizeExportFilename " " = "score"
  /\ sanitizeFilename " " = "_".
Proof.
  assert (Hsafe : allChars isSafe (sanitizeExportFilename title) = true).
  { unfold sanitizeExportFilename.
    destruct (trim (orElse title "")) as [| c s] eqn:Ht; [reflexivity |].
    apply replaceUnsafe_safe. }
  assert (Hne : sanitizeExportFilename title <> "").
  { unfold sanitizeExportFilename.
    destruct (trim (orElse title "")) as [| c s]; discriminate. }
  split; [exact Hne |]. split; [exact Hsafe |]. split; [| split].
  - intros Htrim. unfold sanitizeExportFilename, sanitizeFilename.
    replace (orElse title "") with title by (now destruct title).
    rewrite Htrim. now destruct title.
  - unfold sanitizeExportFilename at 1.
    replace (orElse (sanitizeExportFilename title) "")
      with (sanitizeExportFilename title)
      by (now destruct (sanitizeExportFilename title)).
    rewrite (trim_fixes_safe _ Hsafe).
    destruct (sanitizeExportFilename title) as [| c s];
      [now contradiction Hne |].
    apply replaceUnsafe_fixes_safe, Hsafe.
  - split; reflexivity.
Qed.

Open Scope Q_scope.




End ExportFacts.

(** * Properties of the score reducer *)

Module ScoreReducerFacts.
Import ScoreReducer.

Lemma nth_error_setAt {X : Type} (v : X) (l : list X) :
  forall i j x,
    nth_error l i = Some x ->
    nth_error (setAt i v l) j = if (j =? i)%nat then Some v else nth_error l j.
Proof.
  unfold setAt. induction l as [| a l IH]; intros i j x Hi.
  - destruct i; discriminate.
  - destruct i as [| i]; destruct j as [| j]; simpl in *; try reflexivity.
    apply (IH i j x Hi).
Qed.

Lemma setAt_same {X : Type} (l : list X) :
  forall i x, nth_error l i = Some x -> setAt i x l = l.
Proof.
  unfold setAt. induction l as [| a l IH]; intros i x Hi.
  - destruct i; discriminate.
  - destruct i as [| i]; simpl in *.
    + now injection Hi as ->.
    + f_equal. now apply IH.
Qed.

Lemma setAt_setAt {X : Type} (v w : X) (l : list X) :
  forall i x, nth_error l i = Some x -> setAt i w (setAt i v l) = setAt i w l.
Proof.
  unfold setAt. induction l as [| a l IH]; intros i x Hi.
  - destruct i; discriminate.
  - destruct i as [| i]; simpl in *; [reflexivity |].
    f_equal. now apply IH with (x := x).
Qed.

Lemma map_setAt {X Y : Type} (f : X -> Y) (v : X) (l : list X) :
  forall i x, nth_error l i = Some x -> f v = f x -> map f (setAt i v l) = map f l.
Proof.
  unfold setAt. induction l as [| a l IH]; intros i x Hi Hf.
  - destruct i; discriminate.
  - destruct i as [| i]; simpl in *.
    + injection Hi as ->. now rewrite Hf.
    + f_equal. now apply IH with (x := x).
Qed.

Lemma nth_error_spliceOut {X : Type} (l : list X) :
  forall n k,
    nth_error (spliceOut n l) k = nth_error l (if (k <? n)%nat then k else S k).
Proof.
  unfold spliceOut. induction l as [| a l IH]; intros n k.
  - rewrite firstn_nil, skipn_nil. simpl.
    destruct (k <? n)%nat; now destruct k.
  - destruct n as [| n]; simpl; [reflexivity |].
    destruct k as [| k]; simpl; [reflexivity |].
    rewrite IH. change (S k <? S n)%nat with (k <? n)%nat.
    destruct (k <? n)%nat; reflexivity.
Qed.

Lemma filterIndexFrom_all {X : Type} (keep : nat -> bool) (l : list X) :
  forall c, (forall i, (c <= i)%nat -> keep i = true) -> filterIndexFrom c keep l = l.
Proof.
  induction l as [| a l IH]; intros c Hkeep; simpl; [reflexivity |].
  rewrite Hkeep by lia. f_equal. apply IH. intros i Hi. apply Hkeep. lia.
Qed.

Lemma filterIndexFrom_spliceOut {X : Type} (l : list X) :
  forall b n,
    filterIndexFrom b (fun i => negb (i =? b + n)%nat) l = spliceOut n l.
Proof.
  unfold spliceOut. induction l as [| a l IH]; intros b n; simpl.
  - now destruct n.
  - destruct n as [| n]; simpl.
    + rewrite Nat.add_0_r, Nat.eqb_refl. simpl.
      apply filterIndexFrom_all. intros i Hi.
      destruct (Nat.eqb_spec i b); [lia | reflexivity].
    + destruct (Nat.eqb_spec b (b + S n)); [lia |]. simpl. f_equal.
      replace (b + S n)%nat with (S b + n)%nat by lia. apply IH.
Qed.

Lemma spliceOut_beyond {X : Type} (l : list X) (n : nat) :
  nth_error l n = None -> spliceOut n l = l.
Proof.
  intros Hn. apply nth_error_None in Hn. unfold spliceOut.
  rewrite firstn_all2 by lia. rewrite skipn_all2 by lia. apply app_nil_r.
Qed.

Lemma spliceOut_length {X : Type} (l : list X) (n : nat) (x : X) :
  nth_error l n = Some x -> S (length (spliceOut n l)) = length l.
Proof.
  intros Hn. assert (Hlt : (n < length l)%nat) by (apply nth_error_Some; congruence).
  unfold spliceOut. rewrite length_app, length_firstn, length_skipn. lia.
Qed.

Lemma spliceOut_permutation {X : Type} (l : list X) :
  forall n x, nth_error l n = Some x -> Permutation l (x :: spliceOut n l).
Proof.
  unfold spliceOut. induction l as [| a l IH]; intros n x Hn.
  - destruct n; discriminate.
  - destruct n as [| n]; simpl in *.
    + injection Hn as ->. apply Permutation_refl.
    + eapply perm_trans; [apply perm_skip, (IH n x Hn) |]. apply perm_swap.
Qed.

Lemma spliceIn_permutation {X : Type} (t : nat) (v : X) (l : list X) :
  Permutation (v :: l) (spliceIn t v l).
Proof.
  unfold spliceIn. rewrite <- (firstn_skipn t l) at 1. apply Permutation_middle.
Qed.

Lemma spliceIn_nth {X : Type} (v : X) (l : list X) :
  forall t, nth_error (spliceIn t v l) (Nat.min t (length l)) = Some v.
Proof.
  unfold spliceIn. induction l as [| a l IH]; intros t.
  - destruct t; reflexivity.
  - destruct t as [| t]; simpl; [reflexivity | apply IH].
Qed.

Lemma spliceOut_spliceIn {X : Type} (v : X) (l : list X) :
  forall t, spliceOut (Nat.min t (length l)) (spliceIn t v l) = l.
Proof.
  unfold spliceOut, spliceIn. induction l as [| a l IH]; intros t.
  - destruct t; reflexivity.
  - destruct t as [| t]; simpl; [reflexivity |]. f_equal. apply IH.
Qed.

Lemma spliceOut_last {X : Type} (l : list X) (x : X) :
  spliceOut (length l) (l ++ [x]) = l.
Proof.
  unfold spliceOut. induction l as [| a l IH]; simpl; [reflexivity |].
  f_equal. exact IH.
Qed.

(** The entry of the state that [setAt] builds. *)
Lemma entryAt_setAt (state : Score) (pi : nat) (part : Part) (ns : list NoteOrRest) :
  nth_error (parts state) pi = Some part ->
  forall pj k,
    entryAt (withParts state (setAt pi (withNotes part ns) (parts state))) pj k
    = if (pj =? pi)%nat then nth_error ns k else entryAt state pj k.
Proof.
  intros Hpart pj k. unfold entryAt. simpl.
  erewrite nth_error_setAt by exact Hpart.
  destruct (pj =? pi)%nat; reflexivity.
Qed.

Lemma frame_setAt (state : Score) (pi : nat) (part : Part) (ns : list NoteOrRest) :
  nth_error (parts state) pi = Some part ->
  frame (withParts state (setAt pi (withNotes part ns) (parts state))) = frame state.
Proof.
  intros Hpart. unfold frame. simpl.
  erewrite map_setAt; [reflexivity | exact Hpart | reflexivity].
Qed.

Lemma withParts_same (state : Score) : withParts state (parts state) = state.
Proof. now destruct state. Qed.

Lemma withNotes_same (part : Part) : withNotes part (notes part) = part.
Proof. now destruct part. Qed.

Lemma unchanged (state : Score) (pi : nat) (part : Part) :
  nth_error (parts state) pi = Some part ->
  withParts state (setAt pi (withNotes part (notes part)) (parts state)) = state.
Proof.
  intros Hpart. rewrite withNotes_same, (@setAt_same _ _ _ _ Hpart).
  apply withParts_same.
Qed.

(** The actions on notes and rests leave title, tempo, rendering mode,
    time signature and clef as they are, and the parts with their
    names and in their number. *)
Theorem note_actions_keep_the_frame (state s' : Score) (action : ScoreAction) :
  onNotes action = true ->
  scoreReducer state action = Next s' ->
  frame s' = frame state.
Proof.
  intros Hon. destruct action; try discriminate Hon; simpl; unfold append.
  - destruct (parts state) as [| first rest] eqn:Hparts; [discriminate |].
    intros H. injection H as <-. unfold frame. simpl. now rewrite Hparts.
  - destruct (parts state) as [| first rest] eqn:Hparts; [discriminate |].
    intros H. injection H as <-. unfold frame. simpl. now rewrite Hparts.
  - destruct (nth_error (parts state) partIndex) as [part |] eqn:Hpart;
      [| intros H; now injection H as <-].
    destruct (nth_error (notes part) noteIndex) as [[p o d l a | d] |];
      intros H; injection H as <-; [now apply frame_setAt | reflexivity | reflexivity].
  - destruct (nth_error (parts state) partIndex) as [part |] eqn:Hpart;
      [| intros H; now injection H as <-].
    intros H; injection H as <-. now apply frame_setAt.
  - destruct (nth_error (parts state) partIndex) as [part |] eqn:Hpart;
      [| intros H; now injection H as <-].
    destruct (nth_error (notes part) fromIndex) as [moved |]; [| discriminate].
    intros H; injection H as <-. now apply frame_setAt.
  - destruct (nth_error (parts state) partIndex) as [part |] eqn:Hpart;
      [| intros H; now injection H as <-].
    destruct (nth_error (notes part) noteIndex) as [[p o d l a | d] |];
      intros H; injection H as <-; [now apply frame_setAt | reflexivity | reflexivity].
Qed.

(** Moving the last entry of the second part to the front keeps the
    frame of [twoParts]. *)
Lemma note_actions_keep_the_frame_witness :
  exists s', scoreReducer twoParts (REORDER_NOTE 1 3 0) = Next s'
             /\ frame s' = frame twoParts.
Proof.
  eexists. split; [reflexivity |].
  apply (@note_actions_keep_the_frame twoParts _ (REORDER_NOTE 1 3 0));
    reflexivity.
Defined.

(** [EDIT_NOTE] and [SET_LYRIC] aimed at a place where there is no
    note - no such part, no such entry, or a rest - return the state
    as it is. *)
Theorem edits_need_a_note (state : Score) (pi ni : nat) :
  (forall p o d l a, entryAt state pi ni <> Some (Note p o d l a)) ->
  forall changes lyric,
    scoreReducer state (EDIT_NOTE pi ni changes) = Next state
    /\ scoreReducer state (SET_LYRIC pi ni lyric) = Next state.
Proof.
  intros Hnone changes lyric. unfold entryAt in Hnone. simpl.
  destruct (nth_error (parts state) pi) as [part |]; [| now split].
  destruct (nth_error (notes part) ni) as [[p o d l a | d] |]; try (now split).
  now contradiction (Hnone p o d l a).
Qed.

(** The second entry of the second part of [twoParts] is a rest. *)
Lemma edits_need_a_note_witness :
  scoreReducer twoParts (EDIT_NOTE 1 1 (mkNoteChanges (Some G) None None None))
  = Next twoParts
  /\ scoreReducer twoParts (SET_LYRIC 1 1 "la") = Next twoParts.
Proof.
  apply (@edits_need_a_note twoParts 1 1). intros p o d l a. discriminate.
Defined.

(** [EDIT_NOTE] and [SET_LYRIC] on a note replace that note and leave
    every other entry where and as it is.  Editing keeps the lyric; an
    edit without changes returns the state; an empty lyric removes the
    lyric; of two lyrics set one after the other the second stands. *)
Theorem edits_change_one_note (state : Score) (pi ni : nat)
    (p : Pitch) (o : Octave) (d : Duration) (l : option string) (a : option bool) :
  entryAt state pi ni = Some (Note p o d l a) ->
  forall changes lyric,
    exists s1 s2,
      scoreReducer state (EDIT_NOTE pi ni changes) = Next s1
      /\ scoreReducer state (SET_LYRIC pi ni lyric) = Next s2
      /\ entryAt s1 pi ni = Some (applyChanges (Note p o d l a) changes)
      /\ entryAt s2 pi ni = Some (applyLyric (Note p o d l a) lyric)
      /\ (forall pj k,
            (pj =? pi)%nat && (k =? ni)%nat = false ->
            entryAt s1 pj k = entryAt state pj k
            /\ entryAt s2 pj k = entryAt state pj k)
      /\ noteLyric (applyChanges (Note p o d l a) changes) = l
      /\ noteLyric (applyLyric (Note p o d l a) "") = None
      /\ scoreReducer state (EDIT_NOTE pi ni (mkNoteChanges None None None None))
         = Next state
      /\ (forall lyric2,
            scoreReducer s2 (SET_LYRIC pi ni lyric2)
            = scoreReducer state (SET_LYRIC pi ni lyric2)).
Proof.
  intros Hentry changes lyric. unfold entryAt in Hentry.
  destruct (nth_error (parts state) pi) as [part |] eqn:Hpart; [| discriminate].
  assert (Hat : forall n pj k,
             entryAt (withParts state
                        (setAt pi (withNotes part (setAt ni n (notes part)))
                               (parts state))) pj k
             = if (pj =? pi)%nat
               then (if (k =? ni)%nat then Some n else nth_error (notes part) k)
               else entryAt state pj k).
  { intros n pj k. erewrite entryAt_setAt by exact Hpart.
    destruct (pj =? pi)%nat; [| reflexivity].
    now erewrite nth_error_setAt by exact Hentry. }
  simpl. rewrite Hpart, Hentry.
  eexists. eexists. split; [reflexivity |]. split; [reflexivity |].
  rewrite !Hat, !Nat.eqb_refl.
  split; [reflexivity |]. split; [reflexivity |]. split; [| split; [| split; [| split]]].
  - intros pj k Hother. rewrite !Hat.
    destruct (Nat.eqb_spec pj pi) as [-> |]; [| now split].
    simpl in Hother. rewrite Hother. unfold entryAt. rewrite Hpart. now split.
  - reflexivity.
  - reflexivity.
  - simpl. rewrite (@setAt_same _ _ _ _ Hentry). f_equal. now apply unchanged.
  - intros lyric2. simpl.
    erewrite nth_error_setAt by exact Hpart. rewrite Nat.eqb_refl. simpl.
    erewrite nth_error_setAt by exact Hentry. rewrite Nat.eqb_refl.
    f_equal. unfold withParts. simpl. f_equal.
    erewrite setAt_setAt by exact Hpart. f_equal. unfold withNotes. simpl. f_equal.
    now erewrite setAt_setAt by exact Hentry.
Qed.

(** The first entry of the second part of [twoParts] is a note with
    the lyric "la": a new pitch keeps the lyric. *)
Lemma edits_change_one_note_witness :
  exists s1,
    scoreReducer twoParts (EDIT_NOTE 1 0 (mkNoteChanges (Some G) None None None))
    = Next s1
    /\ entryAt s1 1 0 = Some (Note G middle quarter (Some "la") None).
Proof.
  destruct (@edits_change_one_note twoParts 1 0 C middle quarter (Some "la") None
              eq_refl (mkNoteChanges (Some G) None None None) "")
    as (s1 & _ & Hedit & _ & Hat & _).
  exists s1. split; [exact Hedit | exact Hat].
Defined.

(** [DELETE_NOTE] takes the entry out of its part: the entries after
    it move up by one index, every other part keeps its entries, and
    when the part has no entry of that index the state is returned
    unchanged. *)
Theorem delete_shifts_the_later_entries (state : Score) (pi ni : nat) (part : Part) :
  nth_error (parts state) pi = Some part ->
  exists s',
    scoreReducer state (DELETE_NOTE pi ni) = Next s'
    /\ (forall k, entryAt s' pi k
                  = entryAt state pi (if (k <? ni)%nat then k else S k))
    /\ (forall pj k, (pj =? pi)%nat = false -> entryAt s' pj k = entryAt state pj k)
    /\ (entryAt state pi ni = None -> s' = state).
Proof.
  intros Hpart. simpl. rewrite Hpart. eexists. split; [reflexivity |].
  unfold filterIndex.
  pose proof (filterIndexFrom_spliceOut (notes part) 0 ni) as Hsplice.
  simpl in Hsplice. rewrite Hsplice.
  split; [| split].
  - intros k. erewrite entryAt_setAt by exact Hpart. rewrite Nat.eqb_refl.
    unfold entryAt. rewrite Hpart. apply nth_error_spliceOut.
  - intros pj k Hother. erewrite entryAt_setAt by exact Hpart. now rewrite Hother.
  - unfold entryAt. rewrite Hpart. intros Hnone.
    rewrite (spliceOut_beyond _ _ Hnone) || rewrite (spliceOut_beyond Hnone). now apply unchanged.
Qed.

(** Deleting the rest of [twoParts] moves the two notes after it up. *)
Lemma delete_shifts_the_later_entries_witness :
  exists s',
    scoreReducer twoParts (DELETE_NOTE 1 1) = Next s'
    /\ entryAt s' 1 1 = Some (Note D lower half None (Some true)).
Proof.
  destruct (@delete_shifts_the_later_entries twoParts 1 1 _ eq_refl)
    as (s' & Hdel & Hshift & _).
  exists s'. split; [exact Hdel |]. rewrite Hshift. reflexivity.
Defined.

(** [ADD_NOTE] and [ADD_REST] need a first part: without one they
    throw.  Otherwise the new entry becomes the last entry of the
    first part (a note without lyric, accented only when the payload
    says true), every other entry stays, and deleting the new entry
    gives the state back. *)
Theorem add_appends_to_the_first_part (state : Score)
    (p : Pitch) (o : Octave) (d : Duration) (accented : option bool) :
  match parts state with
  | [] =>
      scoreReducer state (ADD_NOTE p o d accented) = TypeError
      /\ scoreReducer state (ADD_REST d) = TypeError
  | first :: _ =>
      let last := length (notes first) in
      exists s1 s2,
        scoreReducer state (ADD_NOTE p o d accented) = Next s1
        /\ scoreReducer state (ADD_REST d) = Next s2
        /\ entryAt s1 0 last
           = Some (Note p o d None
                     (match accented with Some true => Some true | _ => None end))
        /\ entryAt s2 0 last = Some (Rest d)
        /\ (forall pj k,
              (pj =? 0)%nat && (k =? last)%nat = false ->
              entryAt s1 pj k = entryAt state pj k
              /\ entryAt s2 pj k = entryAt state pj k)
        /\ scoreReducer s1 (DELETE_NOTE 0 last) = Next state
        /\ scoreReducer s2 (DELETE_NOTE 0 last) = Next state
  end.
Proof.
  destruct state as [ttl tmp mode ts clf ps]. simpl. unfold append. simpl.
  destruct ps as [| first rest]; [now split |].
  eexists. eexists. split; [reflexivity |]. split; [reflexivity |].
  unfold entryAt. simpl.
  assert (Hlast : forall e, nth_error (notes first ++ [e]) (length (notes first)) = Some e).
  { intros e. rewrite nth_error_app2 by lia. now rewrite Nat.sub_diag. }
  assert (Hundo : forall e,
             filterIndex (fun i => negb (i =? length (notes first))%nat)
                         (notes first ++ [e]) = notes first).
  { intros e. unfold filterIndex.
    pose proof (filterIndexFrom_spliceOut (notes first ++ [e]) 0
                  (length (notes first))) as Hsplice.
    simpl in Hsplice. rewrite Hsplice. apply spliceOut_last. }
  rewrite !Hlast, !Hundo.
  split; [reflexivity |]. split; [reflexivity |]. split.
  - intros pj k Hother. destruct pj as [| pj]; simpl in *; [| now split].
    assert (Hk : k <> length (notes first)) by (now apply Nat.eqb_neq).
    destruct (Nat.lt_ge_cases k (length (notes first))) as [Hlt | Hge].
    + rewrite !nth_error_app1 by exact Hlt. now split.
    + assert (Hnone : nth_error (notes first) k = None)
        by (apply nth_error_None; lia).
      rewrite Hnone. split; apply nth_error_None; rewrite length_app; simpl; lia.
  - unfold withParts, setAt, withNotes. simpl. now destruct first.
Qed.

(** [REORDER_NOTE] with a [fromIndex] beyond the part's entries
    returns an object whose notes hold [undefined].  Otherwise it
    moves that entry to [toIndex], or to the end when [toIndex] is
    beyond it: the part keeps its name and holds the same entries, the
    moved one at its new index and the others in their order. *)
Theorem reorder_moves_one_entry (state : Score) (pi fromIndex toIndex : nat)
    (part : Part) :
  nth_error (parts state) pi = Some part ->
  match nth_error (notes part) fromIndex with
  | None => scoreReducer state (REORDER_NOTE pi fromIndex toIndex) = NotAScore
  | Some moved =>
      let target := Nat.min toIndex (length (notes part) - 1) in
      exists s' part',
        scoreReducer state (REORDER_NOTE pi fromIndex toIndex) = Next s'
        /\ nth_error (parts s') pi = Some part'
        /\ name part' = name part
        /\ Permutation (notes part) (notes part')
        /\ nth_error (notes part') target = Some moved
        /\ spliceOut target (notes part') = spliceOut fromIndex (notes part)
        /\ (forall pj k, (pj =? pi)%nat = false ->
                         entryAt s' pj k = entryAt state pj k)
  end.
Proof.
  intros Hpart. simpl. rewrite Hpart.
  destruct (nth_error (notes part) fromIndex) as [moved |] eqn:Hfrom;
    [| reflexivity].
  pose proof (@spliceOut_length _ _ _ _ Hfrom) as Hlen.
  assert (Htarget : (length (notes part) - 1 = length (spliceOut fromIndex (notes part)))%nat)
    by lia.
  eexists. eexists. split; [reflexivity |]. simpl.
  split; [erewrite nth_error_setAt by exact Hpart; now rewrite Nat.eqb_refl |].
  simpl. split; [reflexivity |]. rewrite Htarget.
  split; [| split; [| split]].
  - eapply perm_trans; [apply spliceOut_permutation; exact Hfrom |].
    apply spliceIn_permutation.
  - apply spliceIn_nth.
  - apply spliceOut_spliceIn.
  - intros pj k Hother. erewrite entryAt_setAt by exact Hpart. now rewrite Hother.
Qed.

(** Moving the last entry of the second part of [twoParts] to the
    front. *)
Lemma reorder_moves_one_entry_witness :
  exists s',
    scoreReducer twoParts (REORDER_NOTE 1 3 0) = Next s'
    /\ entryAt s' 1 0 = Some (Note E upper whole None None).
Proof.
  destruct (@reorder_moves_one_entry twoParts 1 3 0 _ eq_refl)
    as (s' & part' & Hmove & Hpart' & _ & _ & Hat & _).
  exists s'. split; [exact Hmove |]. unfold entryAt. rewrite Hpart'. exact Hat.
Defined.

End ScoreReducerFacts.

(** * Properties of the layouts in the arithmetic of the code *)

Module Binary64Facts.
Import PrimFloat Binary64 FlattenFacts.

(** No two entries of [allNotes] have the same pair of indices. *)
Lemma allNotes64_tags_NoDup (score : Score) : NoDup (map tag (allNotes score)).
Proof. exact (proj1 (parts_tags (parts score) 0)). Qed.

(** The note at index [ni] of the part at index [pi] is an entry of
    [allNotes], tagged with these indices. *)
Lemma allNotes64_In (score : Score) (pi ni : nat) (part : Part) (note : NoteOrRest) :
  nth_error (parts score) pi = Some part ->
  nth_error (Types.notes part) ni = Some note ->
  In (mkTagged note pi ni) (allNotes score).
Proof.
  intros Hp Hn. unfold allNotes. apply in_concat.
  exists (mapi (fun noteIndex n => mkTagged n pi noteIndex) (Types.notes part)).
  split.
  - exact (mapi_from_In
             (fun partIndex part0 =>
                mapi (fun noteIndex n => mkTagged n partIndex noteIndex)
                     (Types.notes part0)) (parts score) 0 pi Hp).
  - exact (mapi_from_In (fun noteIndex n => mkTagged n pi noteIndex)
             (Types.notes part) 0 ni Hn).
Qed.

Lemma notes_durations (pi : nat) (l : list NoteOrRest) :
  forall j,
    map (fun t => Types.duration (t_note t))
        (mapi_from j (fun ni note => mkTagged note pi ni) l)
    = map Types.duration l.
Proof.
  induction l as [| a l IH]; intros j; simpl; [reflexivity |]. now rewrite IH.
Qed.

(** The durations of the entries of [allNotes] are the durations of
    the notes of the score, part after part. *)
Lemma parts_durations (ps : list Part) :
  forall i,
    map (fun t => Types.duration (t_note t))
        (concat (mapi_from i (fun partIndex part =>
                   mapi (fun noteIndex note => mkTagged note partIndex noteIndex)
                        (Types.notes part)) ps))
    = flat_map (fun part => map Types.duration (Types.notes part)) ps.
Proof.
  induction ps as [| a ps IH]; intros i; simpl; [reflexivity |].
  unfold mapi at 1. rewrite map_app, notes_durations, IH. reflexivity.
Qed.

Lemma allNotes64_durations (score : Score) :
  map (fun t => Types.duration (t_note t)) (allNotes score) = durations score.
Proof. apply parts_durations. Qed.

(** The index pairs of the entries of [allNotes] are those of the
    notes of the score. *)
Lemma parts_scoreTags (ps : list Part) :
  forall i,
    map tag (concat (mapi_from i (fun partIndex part =>
               mapi (fun noteIndex note => mkTagged note partIndex noteIndex)
                    (Types.notes part)) ps))
    = concat (mapi_from i (fun partIndex part =>
                map (pair partIndex) (seq 0 (length (Types.notes part)))) ps).
Proof.
  induction ps as [| a ps IH]; intros i; simpl; [reflexivity |].
  unfold mapi at 1. rewrite map_app, notes_tags, IH. reflexivity.
Qed.

Lemma allNotes64_tags (score : Score) : map tag (allNotes score) = scoreTags score.
Proof. apply parts_scoreTags. Qed.

Lemma notes_notes (pi : nat) (l : list NoteOrRest) :
  forall j, map t_note (mapi_from j (fun ni note => mkTagged note pi ni) l) = l.
Proof.
  induction l as [| a l IH]; intros j; simpl; [reflexivity |]. now rewrite IH.
Qed.

Lemma parts_notes (ps : list Part) :
  forall i,
    map t_note
        (concat (mapi_from i (fun partIndex part =>
                   mapi (fun noteIndex note => mkTagged note partIndex noteIndex)
                        (Types.notes part)) ps))
    = flat_map Types.notes ps.
Proof.
  induction ps as [| a ps IH]; intros i; simpl; [reflexivity |].
  unfold mapi at 1. rewrite map_app, notes_notes, IH. reflexivity.
Qed.

(** The entries of [allNotes] hold the notes and rests of the score,
    part after part. *)
Lemma allNotes64_notes (score : Score) :
  map t_note (allNotes score) = flat_map Types.notes (parts score).
Proof. apply parts_notes. Qed.

Lemma chainb_chain (R : number -> number -> bool) (ys : list number) :
  chainb R ys = true -> chain R ys.
Proof.
  induction ys as [| a ys IH]; [intros _; exact I |].
  destruct ys as [| b ys]; [intros _; exact I |].
  intros H. change (R a b && chainb R (b :: ys) = true) in H.
  apply andb_prop in H. destruct H as [Hab Hrest].
  split; [exact Hab | exact (IH Hrest)].
Qed.

End Binary64Facts.

(** ** The staff layout *)

Module StaffLayout64Facts.
Import PrimFloat Binary64 StaffLayout64 FlattenFacts Binary64Facts.

Open Scope float_scope.

#[local] Arguments geb : simpl never.
#[local] Arguments gtb : simpl never.

Section Loop.

Variable score : Score.
Variable cfg : LayoutConfig.

Let step := layoutStep score cfg.

(** A step pushes exactly one note object, at the current x. *)
Lemma step_laidOut64 (st : LoopState) (t : Tagged) :
  laidOut (step st t) = laidOut st ++ [noteEntry score t (currentX st)].
Proof.
  unfold step, layoutStep, laidOut.
  destruct (geb _ _), (gtb _ _); simpl;
    rewrite ?flat_map_snoc; simpl; rewrite ?app_nil_r, ?app_assoc; reflexivity.
Qed.

Lemma fold_laidOut64 (ts : list Tagged) (st : LoopState) :
  exists ls,
    laidOut (fold_left step ts st) = laidOut st ++ ls
    /\ Forall2 (fun t n => n = noteEntry score t (x n)) ts ls.
Proof.
  revert st. induction ts as [| t ts IH]; intros st; simpl.
  - exists []. rewrite app_nil_r. split; [reflexivity | constructor].
  - destruct (IH (step st t)) as [ls [Hl HF]].
    exists (noteEntry score t (currentX st) :: ls). split.
    + rewrite Hl, step_laidOut64, <- app_assoc. reflexivity.
    + constructor; [reflexivity | exact HF].
Qed.

(** The bar lines and the beat counter after a step. *)
Lemma step_bars64 (st : LoopState) (t : Tagged) :
  let acc := currentBeats st + DURATION_TO_BEATS (Types.duration (t_note t)) in
  if geb acc (beatsPerMeasure score)
  then drawnBars (step st t)
       = drawnBars st ++ [currentX st + noteSpacing cfg - noteSpacing cfg / 2]
       /\ currentBeats (step st t) = 0
  else drawnBars (step st t) = drawnBars st
       /\ currentBeats (step st t) = acc.
Proof.
  unfold step, layoutStep, drawnBars. cbv zeta.
  destruct (geb _ _), (gtb _ _); simpl;
    rewrite ?flat_map_snoc; simpl; rewrite ?app_nil_r, ?app_assoc; split; reflexivity.
Qed.

Lemma fold_bars64 (ts : list Tagged) (st : LoopState) :
  length (drawnBars (fold_left step ts st))
  = (length (drawnBars st)
     + measuresCompleted (beatsPerMeasure score) (currentBeats st)
         (map (fun t => DURATION_TO_BEATS (Types.duration (t_note t))) ts))%nat.
Proof.
  revert st. induction ts as [| t ts IH]; intros st; simpl.
  - lia.
  - rewrite IH. pose proof (step_bars64 st t) as Hs. cbv zeta in Hs.
    destruct (geb _ _); destruct Hs as [Hb Hc]; rewrite Hb, Hc.
    + rewrite length_app. simpl. lia.
    + reflexivity.
Qed.

Lemma step_tidy64 (st : LoopState) (t : Tagged) : tidy st -> tidy (step st t).
Proof.
  intros [Hb Hs]. unfold step, layoutStep, tidy.
  destruct (gtb _ _); simpl; split.
  - reflexivity.
  - apply Forall_app. split; [exact Hs |].
    constructor; [| constructor].
    destruct (geb _ _); simpl; apply snoc_not_nil.
  - intros Habs. destruct (geb _ _); simpl in Habs;
      now apply snoc_not_nil in Habs.
  - exact Hs.
Qed.

Lemma fold_tidy64 (ts : list Tagged) (st : LoopState) :
  tidy st -> tidy (fold_left step ts st).
Proof.
  revert st. induction ts as [| t ts IH]; intros st Ht; simpl; auto using step_tidy64.
Qed.

Lemma initial_tidy64 : tidy (initialState cfg).
Proof. split; [reflexivity | constructor]. Qed.

Lemma nthRow_S64 (y0 : number) (n : nat) :
  nthRow cfg y0 (S n) = nthRow cfg y0 n + staffHeight cfg + systemSpacing cfg.
Proof.
  revert y0. induction n as [| n IH]; intros y0; [reflexivity |].
  change (nthRow cfg y0 (S (S n)))
    with (nthRow cfg (y0 + staffHeight cfg + systemSpacing cfg) (S n)).
  now rewrite IH.
Qed.

Lemma rowsFrom_snoc64 (ys : list number) :
  forall y0 y,
    rowsFrom cfg y0 ys -> y = nthRow cfg y0 (length ys) ->
    rowsFrom cfg y0 (ys ++ [y]).
Proof.
  induction ys as [| a ys IH]; intros y0 y Hr Hy; simpl in *.
  - split; [exact Hy | exact I].
  - destruct Hr as [Ha Hr]. split; [exact Ha |]. now apply IH.
Qed.

Lemma step_stacked64 (st : LoopState) (t : Tagged) :
  stacked cfg st -> stacked cfg (step st t).
Proof.
  intros [Hr Hy]. unfold step, layoutStep, stacked.
  destruct (gtb _ _); simpl.
  - split.
    + rewrite map_app. apply rowsFrom_snoc64; [exact Hr |]. rewrite length_map.
      destruct (geb _ _); simpl; exact Hy.
    + rewrite length_app, Nat.add_comm.
      change (1 + length (st_systems st))%nat with (S (length (st_systems st))).
      rewrite nthRow_S64. destruct (geb _ _); simpl; now rewrite Hy.
  - split; [exact Hr |]. destruct (geb _ _); simpl; exact Hy.
Qed.

Lemma fold_stacked64 (ts : list Tagged) (st : LoopState) :
  stacked cfg st -> stacked cfg (fold_left step ts st).
Proof.
  revert st. induction ts as [| t ts IH]; intros st Hs; simpl;
    auto using step_stacked64.
Qed.

Lemma initial_stacked64 : stacked cfg (initialState cfg).
Proof. split; [exact I | reflexivity]. Qed.

(** ** The systems pushed after the loop *)

Lemma finish_cases64 (st : LoopState) :
  (notes (currentSystem st) <> []
   /\ finish st = st_systems st ++ [currentSystem st])
  \/ (notes (currentSystem st) = [] /\ st_systems st = []
      /\ finish st = [currentSystem st])
  \/ (notes (currentSystem st) = [] /\ st_systems st <> []
      /\ finish st = st_systems st).
Proof.
  unfold finish.
  destruct (notes (currentSystem st)) as [| n ns] eqn:Hn; simpl.
  - destruct (st_systems st) as [| s ss] eqn:Hs; simpl.
    + right. left. auto.
    + right. right. repeat split; discriminate || reflexivity.
  - left. split; [discriminate |].
    rewrite length_app, Nat.add_comm. reflexivity.
Qed.

Lemma finish_notes64 (st : LoopState) : flat_map notes (finish st) = laidOut st.
Proof.
  unfold laidOut.
  destruct (finish_cases64 st) as [[_ ->] | [[Hn [Hs ->]] | [Hn [_ ->]]]].
  - apply flat_map_snoc.
  - rewrite Hs. simpl. now rewrite app_nil_r.
  - now rewrite Hn, app_nil_r.
Qed.

Lemma finish_bars64 (st : LoopState) :
  tidy st -> flat_map barLines (finish st) = drawnBars st.
Proof.
  intros [Hb _]. unfold drawnBars.
  destruct (finish_cases64 st) as [[_ ->] | [[Hn [Hs ->]] | [Hn [_ ->]]]].
  - apply flat_map_snoc.
  - rewrite Hs. simpl. now rewrite app_nil_r.
  - now rewrite (Hb Hn), app_nil_r.
Qed.

Lemma finish_rows64 (st : LoopState) :
  stacked cfg st -> rowsFrom cfg (marginTop cfg) (map startY (finish st)).
Proof.
  intros [Hr Hy].
  destruct (finish_cases64 st) as [[_ ->] | [[Hn [Hs ->]] | [Hn [_ ->]]]].
  - rewrite map_app. apply rowsFrom_snoc64; [exact Hr |]. now rewrite length_map.
  - rewrite Hs in Hy. simpl in *. auto.
  - exact Hr.
Qed.

End Loop.

(** ** The layout as a whole *)

Lemma layout_notes64 (score : Score) (cfg : LayoutConfig) :
  Forall2 (fun t n => n = noteEntry score t (x n))
          (allNotes score) (allLayouts (computeLayoutWith score cfg)).
Proof.
  unfold allLayouts, computeLayoutWith. simpl. rewrite finish_notes64.
  destruct (fold_laidOut64 score cfg (allNotes score) (initialState cfg))
    as [ls [Hl HF]].
  rewrite Hl. exact HF.
Qed.

Lemma layout_tags64 (score : Score) (cfg : LayoutConfig) :
  map layoutTag (allLayouts (computeLayoutWith score cfg))
  = map tag (allNotes score).
Proof.
  pose proof (layout_notes64 score cfg) as HF.
  induction HF as [| t n ts ns Hn _ IH]; simpl; [reflexivity |].
  rewrite IH, Hn. reflexivity.
Qed.

Lemma layout_bars64 (score : Score) (cfg : LayoutConfig) :
  totalBarLines (computeLayoutWith score cfg)
  = measuresCompleted (beatsPerMeasure score) 0
      (map DURATION_TO_BEATS (durations score)).
Proof.
  unfold totalBarLines, computeLayoutWith. simpl.
  rewrite finish_bars64 by (apply fold_tidy64, initial_tidy64).
  rewrite fold_bars64, <- allNotes64_durations, map_map. reflexivity.
Qed.

Lemma layout_rows64 (score : Score) (cfg : LayoutConfig) :
  rowsFrom cfg (marginTop cfg) (map startY (systems (computeLayoutWith score cfg))).
Proof.
  unfold computeLayoutWith. simpl.
  apply finish_rows64, fold_stacked64, initial_stacked64.
Qed.

Lemma holders_none64 (pi ni : nat) (ss : list StaffSystem) :
  occurrences pi ni (flat_map notes ss) = 0%nat ->
  filter (fun s => (0 <? occurrences pi ni (notes s))%nat) ss = [].
Proof.
  unfold occurrences. induction ss as [| s ss IH]; intros H0; simpl in *;
    [reflexivity |].
  rewrite map_app, occursIn_app in H0.
  destruct (occursIn pi ni (map layoutTag (notes s))) eqn:Hs; [| lia].
  simpl. apply IH. lia.
Qed.

Lemma holders_once64 (pi ni : nat) (ss : list StaffSystem) :
  occurrences pi ni (flat_map notes ss) = 1%nat ->
  length (filter (fun s => (0 <? occurrences pi ni (notes s))%nat) ss) = 1%nat.
Proof.
  induction ss as [| s ss IH]; intros H1; simpl in *; [discriminate |].
  unfold occurrences in H1. rewrite map_app, occursIn_app in H1.
  fold (occurrences pi ni (notes s)) in H1.
  fold (occurrences pi ni (flat_map notes ss)) in H1.
  destruct (occurrences pi ni (notes s)) as [| k] eqn:Hs; simpl.
  - apply IH. lia.
  - rewrite holders_none64 by lia. reflexivity.
Qed.

Lemma layout_once64 (score : Score) (cfg : LayoutConfig)
    (pi ni : nat) (part : Part) (note : NoteOrRest) :
  nth_error (parts score) pi = Some part ->
  nth_error (Types.notes part) ni = Some note ->
  occurrences pi ni (allLayouts (computeLayoutWith score cfg)) = 1%nat.
Proof.
  intros Hp Hn. unfold occurrences. rewrite layout_tags64.
  apply occursIn_once; [apply allNotes64_tags_NoDup |].
  change (pi, ni) with (tag (mkTagged note pi ni)).
  apply in_map. now apply allNotes64_In with (part := part).
Qed.

(** Stacked rows are the row starts of their number. *)
Lemma rowsFrom_rowStarts (cfg : LayoutConfig) (ys : list number) :
  forall y0,
    rowsFrom cfg y0 ys ->
    ys = rowStarts (staffHeight cfg) (systemSpacing cfg) y0 (length ys).
Proof.
  induction ys as [| a ys IH]; intros y0 Hr; simpl in *; [reflexivity |].
  destruct Hr as [-> Hr]. f_equal. now apply IH.
Qed.

Lemma chain_rowStarts (R : number -> number -> bool) (h s : number) (n : nat) :
  forall m y0,
    (n <= m)%nat ->
    chain R (rowStarts h s y0 m) -> chain R (rowStarts h s y0 n).
Proof.
  induction n as [| n IH]; intros m y0 Hle Hm; [exact I |].
  destruct m as [| m]; [lia |].
  destruct n as [| n]; [exact I |].
  destruct m as [| m]; [lia |].
  change (R y0 (y0 + h + s) = true /\ chain R (rowStarts h s (y0 + h + s) (S n))).
  change (R y0 (y0 + h + s) = true /\ chain R (rowStarts h s (y0 + h + s) (S m)))
    in Hm.
  destruct Hm as [Hhead Hrest]. split; [exact Hhead |].
  apply IH with (m := S m); [lia | exact Hrest].
Qed.

(** The rows of the default vertical metrics, as many as are checked,
    are strictly increasing and clear of one another; by computation. *)
Lemma default_rows_checked :
  chainb (fun a b => a <? b) (rowStarts 40 80 40 checkedSystems) = true
  /\ chainb (fun a b => a + 40 <=? b) (rowStarts 40 80 40 checkedSystems) = true.
Proof. split; vm_compute; reflexivity. Qed.

(** C1. Beats are counted in quarter notes (whole 4, half 2, quarter
    1, eighth 0.5, sixteenth 0.25) against the threshold
    [beats * (4 / beatValue)], computed as the code computes it.  Each
    note adds its beats to the counter; when the sum reaches or exceeds
    the threshold a bar line is pushed and the counter is set to zero,
    otherwise the sum is kept.  So the number of bar lines of a layout
    is the number of measures the counting rule completes on the
    durations of the score's notes, whatever the configuration: one
    for four quarter notes in 4/4, two for six quarter notes in 3/4
    and two for twelve eighth notes in 6/8. *)
Theorem bar_lines_by_beat_counting (score : Score)
    (config : option PartialLayoutConfig) :
  map DURATION_TO_BEATS [whole; half; quarter; eighth; sixteenth]
  = [4; 2; 1; 0.5; 0.25]
  /\ beatsPerMeasure score
     = beats (timeSignature score) * (4 / beatValue (timeSignature score))
  /\ (forall st t,
        let cfg := fullConfig config in
        let sum := currentBeats st + DURATION_TO_BEATS (Types.duration (t_note t)) in
        if geb sum (beatsPerMeasure score)
        then drawnBars (layoutStep score cfg st t)
             = drawnBars st
               ++ [currentX st + noteSpacing cfg - noteSpacing cfg / 2]
             /\ currentBeats (layoutStep score cfg st t) = 0
        else drawnBars (layoutStep score cfg st t) = drawnBars st
             /\ currentBeats (layoutStep score cfg st t) = sum)
  /\ totalBarLines (computeLayout score config)
     = measuresCompleted (beatsPerMeasure score) 0
         (map DURATION_TO_BEATS (durations score))
  /\ (timeSignature score = {| beats := 4; beatValue := 4 |} ->
      durations score = repeat quarter 4 ->
      totalBarLines (computeLayout score config) = 1%nat)
  /\ (timeSignature score = {| beats := 3; beatValue := 4 |} ->
      durations score = repeat quarter 6 ->
      totalBarLines (computeLayout score config) = 2%nat)
  /\ (timeSignature score = {| beats := 6; beatValue := 8 |} ->
      durations score = repeat eighth 12 ->
      totalBarLines (computeLayout score config) = 2%nat).
Proof.
  split; [reflexivity |].
  split; [reflexivity |].
  split; [intros st t; apply step_bars64 |].
  unfold computeLayout. rewrite layout_bars64. split; [reflexivity |].
  unfold beatsPerMeasure.
  repeat split; intros -> ->; reflexivity.
Qed.

(** The three scores of the staff layout tests have one, two and two
    bar lines. *)
Lemma bar_lines_by_beat_counting_witness :
  totalBarLines (computeLayout fourQuarters None) = 1%nat
  /\ totalBarLines (computeLayout sixQuarters None) = 2%nat
  /\ totalBarLines (computeLayout twelveEighths None) = 2%nat.
Proof.
  split; [| split].
  - destruct (bar_lines_by_beat_counting fourQuarters None)
      as (_ & _ & _ & _ & H44 & _).
    apply H44; reflexivity.
  - destruct (bar_lines_by_beat_counting sixQuarters None)
      as (_ & _ & _ & _ & _ & H34 & _).
    apply H34; reflexivity.
  - destruct (bar_lines_by_beat_counting twelveEighths None)
      as (_ & _ & _ & _ & _ & _ & H68).
    apply H68; reflexivity.
Defined.

(** The threshold is the product as the code rounds it.  For 273
    beats of value 91 it is a little more than twelve, so three whole
    notes do not complete a measure; for a beat value of minus zero it
    is minus infinity, so every note completes one. *)
Lemma threshold_as_the_code_rounds_it :
  beatsPerMeasure threeWholes = 12.000000000000002
  /\ totalBarLines (computeLayout threeWholes None) = 0%nat
  /\ beatsPerMeasure (scoreOf {| beats := 4; beatValue := - 0 |} []) = neg_infinity
  /\ totalBarLines
       (computeLayout (scoreOf {| beats := 4; beatValue := - 0 |}
                               [ Rest sixteenth; Rest sixteenth ]) None)
     = 2%nat.
Proof. repeat split; reflexivity. Qed.

(** C5, as the code has it. Every note or rest of the score occurs
    once among the notes of the systems and in exactly one system; the
    notes of the systems, system after system, are the entries of the
    flattened sequence in their order, each with its part and note
    index - the parts in order and the notes of each part in order;
    the first system starts at [marginTop] and each further one at the
    start of the one before it [+ staffHeight + systemSpacing], as the
    code adds them.  With the default [marginTop], [staffHeight] and
    [systemSpacing] the starts of up to [checkedSystems] systems are
    strictly increasing, and each system ends at or above the start of
    the next. *)
Theorem systems_partition_the_notes (score : Score)
    (config : option PartialLayoutConfig) :
  let cfg := fullConfig config in
  let l := computeLayout score config in
  Forall2 (fun t n => n = noteEntry score t (x n)) (allNotes score) (allLayouts l)
  /\ map layoutTag (allLayouts l) = scoreTags score
  /\ (forall pi ni part note,
        nth_error (parts score) pi = Some part ->
        nth_error (Types.notes part) ni = Some note ->
        occurrences pi ni (allLayouts l) = 1%nat
        /\ length (holders pi ni l) = 1%nat)
  /\ rowsFrom cfg (marginTop cfg) (map startY (systems l))
  /\ (marginTop cfg = 40 -> staffHeight cfg = 40 -> systemSpacing cfg = 80 ->
      (length (systems l) <= checkedSystems)%nat ->
      increasing (map startY (systems l))
      /\ clear (staffHeight cfg) (map startY (systems l))).
Proof.
  intros cfg l. unfold l, computeLayout. fold cfg.
  split; [apply layout_notes64 |].
  split; [rewrite layout_tags64; apply allNotes64_tags |].
  split.
  - intros pi ni part note Hp Hn.
    pose proof (layout_once64 score cfg pi ni Hp Hn) as H1.
    split; [exact H1 |]. now apply holders_once64.
  - split; [apply layout_rows64 |].
    intros Htop Hheight Hspacing Hmany.
    pose proof (rowsFrom_rowStarts _ _ _ (layout_rows64 score cfg)) as Hrows.
    rewrite Htop, Hheight, Hspacing, length_map in Hrows.
    rewrite Hheight, Hrows.
    destruct default_rows_checked as [Hinc Hclear].
    split; eapply chain_rowStarts; try exact Hmany; now apply chainb_chain.
Qed.

(** In the default configuration the twenty-sixth of thirty quarter
    notes is in exactly one system and the two systems go down the
    page without meeting. *)
Lemma systems_partition_the_notes_witness :
  length (holders 0 25 (computeLayout thirtyQuarters None)) = 1%nat
  /\ map startY (systems (computeLayout thirtyQuarters None)) = [40; 160]
  /\ increasing (map startY (systems (computeLayout thirtyQuarters None)))
  /\ clear 40 (map startY (systems (computeLayout thirtyQuarters None))).
Proof.
  destruct (systems_partition_the_notes thirtyQuarters None)
    as (_ & _ & Honce & _ & Hrows).
  split; [exact (proj2 (Honce 0%nat 25%nat _ _ eq_refl eq_refl)) |].
  split; [reflexivity |].
  apply Hrows; [reflexivity | reflexivity | reflexivity |].
  apply Nat.leb_le. vm_compute. reflexivity.
Defined.

(** C5 as stated fails: the rows need not go down the page.  With
    [staffHeight] and [systemSpacing] zero the two systems of
    [flatScore] start at the same height, and so they do with a
    [staffHeight] too small to change the sum; with a [systemSpacing]
    of -30 the second system starts ten below the first, inside its
    forty. *)
Lemma systems_rows_may_coincide :
  map startY (systems (computeLayout flatScore (Some (narrowWith 0 0)))) = [40; 40]
  /\ ~ increasing
         (map startY (systems (computeLayout flatScore (Some (narrowWith 0 0)))))
  /\ map startY (systems (computeLayout flatScore (Some (narrowWith 1e-17 0))))
     = [40; 40]
  /\ map startY (systems (computeLayout flatScore (Some (narrowWith 40 (-30)))))
     = [40; 50]
  /\ ~ clear 40
         (map startY
            (systems (computeLayout flatScore (Some (narrowWith 40 (-30)))))).
Proof.
  split; [reflexivity |].
  split; [intros [Hlt _]; vm_compute in Hlt; discriminate Hlt |].
  split; [reflexivity |].
  split; [reflexivity |].
  intros [Hle _]. vm_compute in Hle. discriminate Hle.
Qed.

End StaffLayout64Facts.

(** ** The circles layout *)

Module CirclesLayout64Facts.
Import PrimFloat Binary64 CirclesLayout64 FlattenFacts Binary64Facts.

Open Scope float_scope.

#[local] Arguments gtb : simpl never.

Section Loop.

Variable cfg : CirclesLayoutConfig.

Let step := layoutStep cfg.

(** A step pushes exactly one entry. *)
Lemma row_step_laidOut64 (st : LoopState) (t : Tagged) :
  exists x y, laidOut (step st t) = laidOut st ++ [noteEntry cfg t x y].
Proof.
  unfold step, layoutStep, laidOut, wrapRow.
  destruct (gtb _ _ && _); simpl.
  - eexists. eexists. rewrite flat_map_snoc. simpl. reflexivity.
  - eexists. eexists. rewrite app_assoc. reflexivity.
Qed.

Lemma row_fold_laidOut64 (ts : list Tagged) (st : LoopState) :
  exists cs,
    laidOut (fold_left step ts st) = laidOut st ++ cs
    /\ Forall2 (fun t c => exists x y, c = noteEntry cfg t x y) ts cs.
Proof.
  revert st. induction ts as [| t ts IH]; intros st; simpl.
  - exists []. rewrite app_nil_r. split; [reflexivity | constructor].
  - destruct (IH (step st t)) as [cs [Hl HF]].
    destruct (row_step_laidOut64 st t) as [x [y Hs]].
    exists (noteEntry cfg t x y :: cs). split.
    + rewrite Hl, Hs, <- app_assoc. reflexivity.
    + constructor; [now exists x, y | exact HF].
Qed.

Lemma row_finish_cases64 (st : LoopState) :
  (currentRow st <> []
   /\ finish st = st_rows st ++ [mkCircleRow (currentRowY st) (currentRow st)])
  \/ (currentRow st = [] /\ st_rows st = []
      /\ finish st = [mkCircleRow (currentRowY st) []])
  \/ (currentRow st = [] /\ st_rows st <> [] /\ finish st = st_rows st).
Proof.
  unfold finish.
  destruct (currentRow st) as [| c cs] eqn:Hc; simpl.
  - destruct (st_rows st) as [| r rs] eqn:Hr; simpl.
    + right. left. auto.
    + right. right. repeat split; discriminate || reflexivity.
  - left. split; [discriminate |].
    rewrite length_app, Nat.add_comm. reflexivity.
Qed.

Lemma finish_circles64 (st : LoopState) : flat_map circles (finish st) = laidOut st.
Proof.
  unfold laidOut.
  destruct (row_finish_cases64 st) as [[_ ->] | [[Hc [Hr ->]] | [Hc [_ ->]]]].
  - rewrite flat_map_snoc. reflexivity.
  - rewrite Hr, Hc. reflexivity.
  - now rewrite Hc, app_nil_r.
Qed.

End Loop.

(** ** The layout as a whole *)

Lemma layout_circles64 (score : Score) (cfg : CirclesLayoutConfig) :
  Forall2 (fun t c => exists x y, c = noteEntry cfg t x y)
          (allNotes score) (allCircles (computeCirclesLayoutWith score cfg)).
Proof.
  unfold allCircles, computeCirclesLayoutWith. simpl. rewrite finish_circles64.
  destruct (row_fold_laidOut64 cfg (allNotes score) (initialState cfg))
    as [cs [Hl HF]].
  rewrite Hl. exact HF.
Qed.

Lemma noteEntry_tag64 (cfg : CirclesLayoutConfig) (t : Tagged) (x y : number) :
  partIndex (noteEntry cfg t x y) = t_partIndex t
  /\ noteIndex (noteEntry cfg t x y) = t_noteIndex t.
Proof.
  unfold noteEntry.
  destruct (t_note t) as [p o d l a | d]; [destruct d |]; split; reflexivity.
Qed.

(** The entry of a note is sized by the note's duration. *)
Lemma noteEntry_sized64 (cfg : CirclesLayoutConfig) (note : NoteOrRest)
    (pi ni : nat) (x y : number) (p : Pitch) (o : Octave) (d : Duration)
    (l : option string) (a : option bool) :
  note = Note p o d l a ->
  isRest (noteEntry cfg (mkTagged note pi ni) x y) = false
  /\ sized (circleSize cfg / 2) d (noteEntry cfg (mkTagged note pi ni) x y).
Proof.
  intros ->. unfold sized, noteEntry. simpl.
  destruct d; simpl; repeat split; reflexivity.
Qed.

(** Among the entries of notes whose index pairs differ from
    [(pi, ni)] none carries that pair. *)
Lemma entries_none (cfg : CirclesLayoutConfig) (pi ni : nat)
    (ts : list Tagged) (cs : list CircleLayout) :
  Forall2 (fun t c => exists x y, c = noteEntry cfg t x y) ts cs ->
  ~ In (pi, ni) (map tag ts) ->
  filter (fun c => (partIndex c =? pi)%nat && (noteIndex c =? ni)%nat) cs = [].
Proof.
  induction 1 as [| t c ts cs [x [y ->]] _ IH]; intros Hnot; [reflexivity |].
  simpl. destruct (noteEntry_tag64 cfg t x y) as [-> ->].
  destruct (Nat.eqb_spec (t_partIndex t) pi) as [Hp |];
    destruct (Nat.eqb_spec (t_noteIndex t) ni) as [Hn |]; simpl;
    try (apply IH; intros Hin; apply Hnot; now right).
  exfalso. apply Hnot. left. unfold tag. now rewrite Hp, Hn.
Qed.

(** Among the entries of notes with distinct index pairs exactly one
    carries the pair of a given note: the entry of that note. *)
Lemma entries_one (cfg : CirclesLayoutConfig) (t0 : Tagged)
    (ts : list Tagged) (cs : list CircleLayout) :
  Forall2 (fun t c => exists x y, c = noteEntry cfg t x y) ts cs ->
  NoDup (map tag ts) ->
  In t0 ts ->
  exists x y,
    filter (fun c => (partIndex c =? t_partIndex t0)%nat
                     && (noteIndex c =? t_noteIndex t0)%nat) cs
    = [noteEntry cfg t0 x y].
Proof.
  induction 1 as [| t c ts cs [x [y ->]] HF IH]; intros Hnd Hin; [destruct Hin |].
  simpl in Hnd. inversion Hnd as [| ? ? Hnotin Hnd']; subst.
  simpl. destruct (noteEntry_tag64 cfg t x y) as [-> ->].
  destruct Hin as [-> | Hin].
  - rewrite !Nat.eqb_refl. simpl. exists x, y. f_equal.
    eapply entries_none; [exact HF | exact Hnotin].
  - destruct (Nat.eqb_spec (t_partIndex t) (t_partIndex t0)) as [Hp |];
      destruct (Nat.eqb_spec (t_noteIndex t) (t_noteIndex t0)) as [Hn |]; simpl;
      try (now apply IH).
    exfalso. apply Hnotin. unfold tag. rewrite Hp, Hn.
    exact (in_map tag ts t0 Hin).
Qed.

(** C3. With base radius [r = circleSize / 2], every note of the
    score has exactly one entry in the layout, and that entry is, for
    a quarter note, one circle of radius [r]; for a half note, one
    circle of radius [r * 1.4]; for a whole note, one circle of radius
    [r * 1.8]; for an eighth note, two sub-circles of radius [r * 0.6]
    at the height of the entry, left and right of its centre; for a
    sixteenth note, four sub-circles of radius [r * 0.4] at the corners
    of a square around its centre, two above and two below.  The
    products are those the code computes. *)
Theorem circle_sizes_by_duration (score : Score)
    (config : option PartialCirclesLayoutConfig) (pi ni : nat) (part : Part)
    (p : Pitch) (o : Octave) (d : Duration) (l : option string) (a : option bool) :
  nth_error (parts score) pi = Some part ->
  nth_error (Types.notes part) ni = Some (Note p o d l a) ->
  let r := circleSize (fullConfig config) / 2 in
  exists c,
    entriesOf pi ni (computeCirclesLayout score config) = [c]
    /\ isRest c = false
    /\ sized r d c.
Proof.
  intros Hpart Hnote r. unfold entriesOf, computeCirclesLayout.
  pose proof (@allNotes64_In score pi ni _ _ Hpart Hnote) as Hin.
  destruct (@entries_one _ _ _ _ (layout_circles64 score (fullConfig config))
              (allNotes64_tags_NoDup score) Hin) as [x [y Hone]].
  simpl in Hone. eexists. split; [exact Hone |].
  now apply noteEntry_sized64 with (p := p) (o := o) (l := l) (a := a).
Qed.

(** The eighth note of [oneEighth] in the default configuration: two
    sub-circles of radius 12, a gap of 26.400000000000002 apart. *)
Lemma circle_sizes_by_duration_witness :
  exists c,
    entriesOf 0 0 (computeCirclesLayout oneEighth None) = [c]
    /\ isRest c = false
    /\ subCircles c
       = Some [ mkSubCircle (cx c - 20 * 0.6 * 2.2 / 2) (cy c) 12;
                mkSubCircle (cx c + 20 * 0.6 * 2.2 / 2) (cy c) 12 ].
Proof.
  destruct (@circle_sizes_by_duration oneEighth None 0 0 _ F middle eighth None None
              eq_refl eq_refl) as (c & Hone & Hrest & Hsized).
  exists c. split; [exact Hone |]. split; [exact Hrest |]. exact Hsized.
Defined.

(** ** The rows of a layout *)

Lemma rowsOf_snoc64 (cfg : CirclesLayoutConfig) (tss : list (list Tagged))
    (ts : list Tagged) :
  rowsOf cfg (tss ++ [ts]) = rowsOf cfg tss ++ [rowOf cfg (length tss) ts].
Proof.
  unfold rowsOf, mapi. now rewrite CirclesGeometryFacts.mapi_from_snoc.
Qed.

Lemma placeRow_snoc64 (cfg : CirclesLayoutConfig) (y : number) (ts : list Tagged)
    (t : Tagged) :
  forall x,
    placeRow cfg y x (ts ++ [t])
    = placeRow cfg y x ts ++ [noteEntry cfg t (endOf cfg x ts) y].
Proof.
  induction ts as [| a ts IH]; intros x; simpl; [reflexivity |].
  now rewrite IH.
Qed.

Lemma endOf_snoc64 (cfg : CirclesLayoutConfig) (ts : list Tagged) (t : Tagged) :
  forall x, endOf cfg x (ts ++ [t]) = endOf cfg x ts + totalWidth cfg t.
Proof.
  induction ts as [| a ts IH]; intros x; simpl; [reflexivity |]. apply IH.
Qed.

Lemma placeRow_length64 (cfg : CirclesLayoutConfig) (y : number) (ts : list Tagged) :
  forall x, length (placeRow cfg y x ts) = length ts.
Proof.
  induction ts as [| a ts IH]; intros x; simpl; [reflexivity |]. now rewrite IH.
Qed.

Lemma fitsAfter_snoc64 (cfg : CirclesLayoutConfig) (ts : list Tagged) (t : Tagged) :
  forall pre,
    fitsAfter cfg pre ts -> overflows cfg (pre ++ ts) t = false ->
    fitsAfter cfg pre (ts ++ [t]).
Proof.
  induction ts as [| a ts IH]; intros pre Hfit Hnew; simpl in *.
  - rewrite app_nil_r in Hnew. now split.
  - destruct Hfit as [Ha Hfit]. split; [exact Ha |].
    apply IH; [exact Hfit |]. now rewrite <- app_assoc.
Qed.

Lemma closedByNext_grow64 (cfg : CirclesLayoutConfig) (cur : list Tagged)
    (t : Tagged) :
  forall tss,
    cur <> [] -> closedByNext cfg (tss ++ [cur]) ->
    closedByNext cfg (tss ++ [cur ++ [t]]).
Proof.
  intros tss Hne. induction tss as [| ts tss IH]; simpl; [tauto |].
  intros [Hhead Hrest]. split; [| now apply IH].
  destruct tss as [| next tss']; simpl in *.
  - destruct cur as [| c cur']; [now contradiction Hne | exact Hhead].
  - exact Hhead.
Qed.

Lemma closedByNext_wrap64 (cfg : CirclesLayoutConfig) (cur : list Tagged)
    (t : Tagged) :
  forall tss,
    overflows cfg cur t = true -> closedByNext cfg (tss ++ [cur]) ->
    closedByNext cfg ((tss ++ [cur]) ++ [[t]]).
Proof.
  intros tss Hover. induction tss as [| ts tss IH]; simpl.
  - intros _. repeat split. exact Hover.
  - intros [Hhead Hrest]. split; [| now apply IH].
    destruct tss as [| next tss']; simpl in *; exact Hhead.
Qed.

Section Breaking.

Variable cfg : CirclesLayoutConfig.

Lemma step_breaking64 (done : list Tagged) (st : LoopState) (t : Tagged) :
  breaking cfg done st -> breaking cfg (done ++ [t]) (layoutStep cfg st t).
Proof.
  intros (tss & cur & Hdone & Hrows & Hrow & Hx & Hy & Hclosed & Hfits & Hne & Hnext).
  assert (Hfirst : cur = [] -> tss = []).
  { intros ->. destruct tss as [| ts tss']; [reflexivity |].
    exfalso. apply Hne; [discriminate | reflexivity]. }
  assert (Htest : gtb (currentX st + totalWidth cfg t - circleSpacing cfg / 2) (maxX cfg)
                  = overflows cfg cur t).
  { unfold overflows. now rewrite Hx. }
  assert (Hlen : length (currentRow st) = length cur).
  { now rewrite Hrow, placeRow_length64. }
  unfold layoutStep, wrapRow. fold (totalWidth cfg t). rewrite Htest, Hlen.
  destruct (overflows cfg cur t) eqn:Hover; destruct cur as [| c cur'] eqn:Hcur;
    simpl.
  - (* the test fails on an empty row: no wrap *)
    rewrite (Hfirst eq_refl) in *.
    exists [], [t]. simpl in *. rewrite Hrows, Hrow, Hx, Hy, Hdone.
    repeat split; try reflexivity; try constructor. discriminate.
  - (* wrap *)
    exists (tss ++ [c :: cur']), [t]. simpl.
    rewrite rowsOf_snoc64, length_app, Nat.add_comm, Hrows, Hrow, Hy. simpl.
    repeat split; try reflexivity.
    + rewrite Hdone, concat_app. simpl. now rewrite app_nil_r, <- app_assoc.
    + apply Forall_app. split; [exact Hclosed |].
      constructor; [| constructor]. split; [discriminate | exact Hfits].
    + discriminate.
    + now apply closedByNext_wrap64.
  - (* first note of the first row *)
    rewrite (Hfirst eq_refl) in *.
    exists [], [t]. simpl in *. rewrite Hrows, Hrow, Hx, Hy, Hdone.
    repeat split; try reflexivity; try constructor. discriminate.
  - (* the note fits *)
    exists tss, ((c :: cur') ++ [t]).
    rewrite placeRow_snoc64, endOf_snoc64, Hrows, Hrow, Hx, Hy, Hdone.
    repeat split; try assumption; try reflexivity.
    + now rewrite app_assoc.
    + simpl. apply fitsAfter_snoc64; [exact Hfits | exact Hover].
    + intros _. discriminate.
    + apply closedByNext_grow64; [discriminate | exact Hnext].
Qed.

Lemma fold_breaking64 (ts : list Tagged) :
  forall done st,
    breaking cfg done st ->
    breaking cfg (done ++ ts) (fold_left (layoutStep cfg) ts st).
Proof.
  induction ts as [| t ts IH]; intros done st Hb; simpl.
  - now rewrite app_nil_r.
  - replace (done ++ t :: ts) with ((done ++ [t]) ++ ts)
      by (now rewrite <- app_assoc).
    apply IH. now apply step_breaking64.
Qed.

Lemma initial_breaking64 : breaking cfg [] (initialState cfg).
Proof.
  exists [], []. simpl. repeat split; try reflexivity; try constructor.
  intros Habs. now contradiction Habs.
Qed.

End Breaking.

Lemma layout_breaking64 (score : Score) (cfg : CirclesLayoutConfig) :
  exists tss,
    tss <> []
    /\ concat tss = allNotes score
    /\ rows (computeCirclesLayoutWith score cfg) = rowsOf cfg tss
    /\ Forall (rowFits cfg) tss
    /\ closedByNext cfg tss.
Proof.
  unfold computeCirclesLayoutWith. simpl.
  pose proof (fold_breaking64 (allNotes score) (initial_breaking64 cfg)) as Hb.
  simpl in Hb.
  set (st := fold_left (layoutStep cfg) (allNotes score) (initialState cfg)) in *.
  destruct Hb as (tss & cur & Hdone & Hrows & Hrow & _ & Hy & Hclosed & Hfits & Hne & Hnext).
  assert (Hcur : currentRow st = [] -> cur = []).
  { intros Hnil. rewrite Hrow in Hnil. apply (f_equal (@length _)) in Hnil.
    rewrite placeRow_length64 in Hnil. now destruct cur. }
  destruct (row_finish_cases64 st)
    as [[Hsome ->] | [[Hnil [Hnone ->]] | [Hnil [Hsome ->]]]].
  - exists (tss ++ [cur]). split; [apply snoc_not_nil |].
    rewrite concat_app, rowsOf_snoc64, Hrows, Hrow, Hy. simpl. rewrite app_nil_r.
    repeat split; try (now symmetry); try assumption.
    apply Forall_app. split; [| now constructor].
    eapply Forall_impl; [| exact Hclosed]. now intros ts [_ Hts].
  - apply Hcur in Hnil. subst cur.
    assert (Htss : tss = []).
    { rewrite Hrows in Hnone. destruct tss; [reflexivity | discriminate]. }
    subst tss. simpl in *. exists [[]].
    rewrite Hy. repeat split; try (now symmetry); try discriminate.
    constructor; [exact I | constructor].
  - apply Hcur in Hnil. subst cur. exfalso. apply Hsome. rewrite Hrows.
    destruct tss as [| ts tss']; [reflexivity |].
    exfalso. apply Hne; [discriminate | reflexivity].
Qed.

(** The rows are the notes of the score, in order, broken into rows:
    the notes of the rows, row after row, are the notes and rests of
    the score, part after part, each with its part and note index; row
    number [k] is at [rowYAfter k]; its entries stand one after the
    other from [marginLeft + circleSize / 2], each note and each rest
    taking the footprint of its duration; every note but the first of
    a row passed the wrap test on it, and every row but the last was
    closed by the first note of the next row failing that test.  The
    sums and the test are those the code computes. *)
Theorem rows_break_the_notes_greedily (score : Score)
    (config : option PartialCirclesLayoutConfig) :
  let cfg := fullConfig config in
  exists tss,
    concat tss = allNotes score
    /\ map t_note (concat tss) = flat_map Types.notes (parts score)
    /\ map tag (concat tss) = scoreTags score
    /\ rows (computeCirclesLayout score config) = rowsOf cfg tss
    /\ Forall (rowFits cfg) tss
    /\ closedByNext cfg tss.
Proof.
  intros cfg. destruct (layout_breaking64 score cfg) as (tss & _ & Hall & H).
  exists tss. split; [exact Hall |]. rewrite Hall.
  split; [apply allNotes64_notes |]. split; [apply allNotes64_tags | exact H].
Qed.

(** Sixty quarter notes with circles 19.2 apart on the default canvas:
    the thirty-eighth note would end at 760 in exact arithmetic, which
    does not pass the limit of 760; the code's sum is a little more,
    and the first row holds thirty-seven notes. *)
Lemma rows_break_where_the_sum_rounds :
  map (fun r => length (circles r))
      (rows (computeCirclesLayout sixtyQuarters (Some (spaced 19.2))))
  = [37; 23]%nat.
Proof. vm_compute. reflexivity. Qed.

End CirclesLayout64Facts.
